(** * npm-dependency-finder: the registry-driven version search

    A shallow embedding of [src/components/PackageVersionFinder.tsx]
    (the search engine: [findCompatibleVersion], [analyzePackageDependencies],
    [findChildOccurrencesInTree], [resolveVersion], [normalizeVersion],
    [analyzeVersionRequirements]) and of the HTTP route
    [app/api/search/route.ts], together with the part of the [semver]
    package the engine calls; then of the command line
    [dist/cli/cli/cli.js] and of the evaluator of [lib/package-finder.ts]. *)

From Stdlib Require Import String Ascii List Bool Arith NArith Lia.
From Stdlib Require Import DecimalString DecimalNat Lists.Finite.
From Stdlib Require Import Sorting.Sorted Sorting.Permutation.
Import ListNotations.

Local Open Scope string_scope.
Local Open Scope list_scope.

(** ** Exceptions

    A JavaScript computation either returns a value or throws; [Throw]
    carries the [message] of the error object. *)

Inductive result (A : Type) : Type :=
| Ok (a : A)
| Throw (message : string).

Arguments Ok {A} a.
Arguments Throw {A} message.

Definition bind {A B : Type} (r : result A) (k : A -> result B) : result B :=
  match r with
  | Ok a => k a
  | Throw m => Throw m
  end.

Notation "x <- r ;; k" := (bind r (fun x => k))
  (at level 61, r at next level, right associativity).

(** ** Strings as the code uses them *)

Module Str.

(** [s.split(c)] for a one-character separator. *)
Fixpoint split (c : ascii) (s : string) : list string :=
  match s with
  | EmptyString => [EmptyString]
  | String a s' =>
      if Ascii.eqb a c then EmptyString :: split c s'
      else match split c s' with
           | [] => [String a EmptyString]
           | p :: ps => String a p :: ps
           end
  end.

(** [parts.join(sep)]. *)
Fixpoint join (sep : string) (parts : list string) : string :=
  match parts with
  | [] => EmptyString
  | [p] => p
  | p :: ps => p ++ sep ++ join sep ps
  end.

Fixpoint forallb (f : ascii -> bool) (s : string) : bool :=
  match s with
  | EmptyString => true
  | String a s' => f a && forallb f s'
  end.

(** [s.lastIndexOf(c)], [None] standing for -1. *)
Fixpoint lastIndexOf (c : ascii) (s : string) : option nat :=
  match s with
  | EmptyString => None
  | String a s' =>
      match lastIndexOf c s' with
      | Some i => Some (S i)
      | None => if Ascii.eqb a c then Some 0 else None
      end
  end.

(** [s.slice(0, n)] and [s.slice(n)] for [0 <= n]. *)
Fixpoint take (n : nat) (s : string) : string :=
  match n, s with
  | S n', String a s' => String a (take n' s')
  | _, _ => EmptyString
  end.

Fixpoint drop (n : nat) (s : string) : string :=
  match n, s with
  | S n', String _ s' => drop n' s'
  | _, _ => s
  end.

(** The cut of [s] at the first [c]: the text before it and, when [c]
    occurs, the text after it. *)
Fixpoint cut (c : ascii) (s : string) : string * option string :=
  match s with
  | EmptyString => (EmptyString, None)
  | String a s' =>
      if Ascii.eqb a c then (EmptyString, Some s')
      else let '(h, t) := cut c s' in (String a h, t)
  end.

Definition is_digit (c : ascii) : bool :=
  let n := N_of_ascii c in (48 <=? n)%N && (n <=? 57)%N.

Definition is_letter (c : ascii) : bool :=
  let n := N_of_ascii c in
  ((65 <=? n)%N && (n <=? 90)%N) || ((97 <=? n)%N && (n <=? 122)%N).

(** White space, the class [\s] and what [String.prototype.trim] removes,
    within ASCII. *)
Definition is_space (c : ascii) : bool :=
  let n := N_of_ascii c in
  ((9 <=? n)%N && (n <=? 13)%N) || (n =? 32)%N.

Fixpoint trimStart (s : string) : string :=
  match s with
  | String a s' => if is_space a then trimStart s' else s
  | EmptyString => EmptyString
  end.

Fixpoint trimEnd (s : string) : string :=
  match s with
  | EmptyString => EmptyString
  | String a s' =>
      match trimEnd s' with
      | EmptyString => if is_space a then EmptyString else String a EmptyString
      | t => String a t
      end
  end.

Definition trim (s : string) : string := trimEnd (trimStart s).

(** The value of a run of decimal digits. *)
Fixpoint digits_value (acc : N) (s : string) : N :=
  match s with
  | EmptyString => acc
  | String a s' => digits_value (acc * 10 + (N_of_ascii a - 48))%N s'
  end.

End Str.

(** ** The [semver] package

    Modelled from the spec: the [semver] package is imported by the engine and
    is not part of the repository.  The specification takes its comparison to
    be the standard precedence of semantic versions (major, minor, patch, then
    the pre-release identifiers), a version being a pre-release when it
    carries a pre-release tag.  The engine calls [compare], [gte], [lt],
    [prerelease] and [maxSatisfying]; versions are parsed as the [SemVer]
    class of the package does in its default (strict) mode, and the grammar of
    ranges is left to a parameter of the engine. *)

Module semver.

Inductive identifier : Type :=
| Num (n : N)
| Alnum (s : string).

Record SemVer : Type := mkSemVer
  { major : N;
    minor : N;
    patch : N;
    prerelease_ids : list identifier;
    build : list string }.

Definition MAX_LENGTH : nat := 256.
Definition MAX_SAFE_INTEGER : N := 9007199254740991.

(** [0|[1-9]\d*] *)
Definition numeric_identifier (s : string) : bool :=
  match s with
  | EmptyString => false
  | String a EmptyString => Str.is_digit a
  | String a s' => Str.is_digit a && negb (Ascii.eqb a "0") && Str.forallb Str.is_digit s'
  end.

(** [[a-zA-Z0-9-]] *)
Definition letter_dash_number (c : ascii) : bool :=
  Str.is_digit c || Str.is_letter c || Ascii.eqb c "-".

(** [\d*[a-zA-Z-][a-zA-Z0-9-]*]: identifier characters, not all digits. *)
Definition non_numeric_identifier (s : string) : bool :=
  Str.forallb letter_dash_number s && negb (Str.forallb Str.is_digit s).

(** [[a-zA-Z0-9-]+] *)
Definition build_identifier (s : string) : bool :=
  negb (String.eqb s "") && Str.forallb letter_dash_number s.

Definition parse_number (s : string) : option N :=
  if numeric_identifier s then
    let n := Str.digits_value 0 s in
    if (n <=? MAX_SAFE_INTEGER)%N then Some n else None
  else None.

Definition parse_identifier (s : string) : option identifier :=
  if numeric_identifier s then Some (Num (Str.digits_value 0 s))
  else if non_numeric_identifier s then Some (Alnum s)
  else None.

Fixpoint parse_identifiers (l : list string) : option (list identifier) :=
  match l with
  | [] => Some []
  | s :: l' =>
      match parse_identifier s, parse_identifiers l' with
      | Some i, Some ids => Some (i :: ids)
      | _, _ => None
      end
  end.

Definition strip_v (s : string) : string :=
  match s with
  | String "v" s' => s'
  | _ => s
  end.

(** [new SemVer(version)]: [None] where the constructor throws. *)
Definition parse (version : string) : option SemVer :=
  if Nat.ltb MAX_LENGTH (String.length version) then None
  else
    let '(body, build) := Str.cut "+" (strip_v (Str.trim version)) in
    let '(main, pre) := Str.cut "-" body in
    match Str.split "." main with
    | [a; b; c] =>
        match parse_number a, parse_number b, parse_number c with
        | Some ma, Some mi, Some pa =>
            let pre_ids :=
              match pre with
              | None => Some []
              | Some p => parse_identifiers (Str.split "." p)
              end in
            let build_ok :=
              match build with
              | None => true
              | Some b => List.forallb build_identifier (Str.split "." b)
              end in
            match pre_ids with
            | Some ids =>
                if build_ok
                then Some (mkSemVer ma mi pa ids
                             (match build with
                              | None => []
                              | Some b => Str.split "." b
                              end))
                else None
            | None => None
            end
        | _, _, _ => None
        end
    | _ => None
    end.

(** [compareIdentifiers]: numbers before text, numbers by value, text by
    code unit. *)
Definition compareIdentifiers (a b : identifier) : comparison :=
  match a, b with
  | Num x, Num y => N.compare x y
  | Num _, Alnum _ => Lt
  | Alnum _, Num _ => Gt
  | Alnum x, Alnum y => String.compare x y
  end.

Definition compareMain (a b : SemVer) : comparison :=
  match N.compare (major a) (major b) with
  | Eq => match N.compare (minor a) (minor b) with
          | Eq => N.compare (patch a) (patch b)
          | c => c
          end
  | c => c
  end.

(** The [do ... while] of [comparePre], past the length tests. *)
Fixpoint compareIds (a b : list identifier) : comparison :=
  match a, b with
  | [], [] => Eq
  | _ :: _, [] => Gt
  | [], _ :: _ => Lt
  | x :: a', y :: b' =>
      match compareIdentifiers x y with
      | Eq => compareIds a' b'
      | c => c
      end
  end.

Definition comparePre (a b : SemVer) : comparison :=
  match prerelease_ids a, prerelease_ids b with
  | _ :: _, [] => Lt
  | [], _ :: _ => Gt
  | [], [] => Eq
  | pa, pb => compareIds pa pb
  end.

Definition compareSemVer (a b : SemVer) : comparison :=
  match compareMain a b with
  | Eq => comparePre a b
  | c => c
  end.

Definition invalid (version : string) : string := "Invalid Version: " ++ version.

(** [semver.compare(a, b)]: a [TypeError] when either side is no version. *)
Definition compare (a b : string) : result comparison :=
  match parse a with
  | None => Throw (invalid a)
  | Some va =>
      match parse b with
      | None => Throw (invalid b)
      | Some vb => Ok (compareSemVer va vb)
      end
  end.

Definition gte (a b : string) : result bool :=
  c <- compare a b ;; Ok (match c with Lt => false | _ => true end).

Definition lt (a b : string) : result bool :=
  c <- compare a b ;; Ok (match c with Lt => true | _ => false end).

(** [semver.prerelease(v)]: the pre-release identifiers, [None] (null) for a
    version without any and for text that is no version. *)
Definition prerelease (version : string) : option (list identifier) :=
  match parse version with
  | Some v => match prerelease_ids v with
              | [] => None
              | ids => Some ids
              end
  | None => None
  end.

End semver.

(** ** JavaScript containers

    Objects used as records of string keys ([Record<string, T>]) keep their
    keys in insertion order (package names and versions are not array
    indices, the keys JavaScript would list first); a [Map] and a [Set] are
    used through [has]/[get]/[set]/[add]/[size] only. *)

Module Obj.

Definition t (V : Type) : Type := list (string * V).

Definition keys {V : Type} (o : t V) : list string := map fst o.

Fixpoint get {V : Type} (k : string) (o : t V) : option V :=
  match o with
  | [] => None
  | (k', v) :: o' => if String.eqb k k' then Some v else get k o'
  end.

Fixpoint set {V : Type} (k : string) (v : V) (o : t V) : t V :=
  match o with
  | [] => [(k, v)]
  | (k', v') :: o' =>
      if String.eqb k k' then (k, v) :: o' else (k', v') :: set k v o'
  end.

(** [{ ...a, ...b }] *)
Definition spread {V : Type} (a b : t V) : t V :=
  fold_left (fun o kv => set (fst kv) (snd kv) o) b a.

End Obj.

Module StrSet.

Definition t : Type := list string.

Definition has (k : string) (s : t) : bool := existsb (String.eqb k) s.

Definition add (k : string) (s : t) : t := if has k s then s else s ++ [k].

Definition size (s : t) : nat := List.length s.

End StrSet.

(** ** Data model *)

Record PackageVersion : Type := mkPackageVersion
  { dependencies : Obj.t string;
    optionalDependencies : Obj.t string;
    peerDependencies : Obj.t string }.

Record RegistryPackageMeta : Type := mkMeta
  { meta_name : string;
    versions : Obj.t PackageVersion }.

(** What [fetch] resolves to: [res.ok], [res.status], [res.statusText] and
    the outcome of [res.json()]. *)
Record Response : Type := mkResponse
  { ok : bool;
    status : string;
    statusText : string;
    json : result RegistryPackageMeta }.

Record SearchParams : Type := mkParams
  { parentPackage : string;
    parentMinVersion : string;
    childPackage : string;
    childMinVersion : string;
    packageRemoved : bool }.

Record SearchResult : Type := mkSearchResult
  { success : bool;
    version : option string;
    message : string;
    details : list string }.

Record DependencyAnalysisResult : Type := mkAnalysis
  { a_success : bool;
    a_message : string;
    a_details : list string }.

Record Match : Type := mkMatch
  { pathString : string;
    m_version : string }.

Record TraversalResult : Type := mkTraversal
  { matches : list Match;
    visitedCount : nat;
    truncated : bool }.

Record QueueNode : Type := mkNode
  { q_name : string;
    q_version : string;
    q_path : list string }.

(** The module-level caches of the engine and the requests sent to the
    registry so far (package names, oldest first). *)
Record World : Type := mkWorld
  { packageMetaCache : Obj.t RegistryPackageMeta;
    versionResolutionCache : Obj.t (option string);
    requests : list string }.

Definition emptyWorld : World := mkWorld [] [] [].

(** ** Computations on the world that may throw *)

Definition M (A : Type) : Type := World -> World * result A.

Definition ret {A : Type} (a : A) : M A := fun w => (w, Ok a).

Definition lift {A : Type} (r : result A) : M A := fun w => (w, r).

Definition bindM {A B : Type} (m : M A) (k : A -> M B) : M B :=
  fun w => match m w with
           | (w1, Ok a) => k a w1
           | (w1, Throw e) => (w1, Throw e)
           end.

Notation "x <~ m ;; k" := (bindM m (fun x => k))
  (at level 61, m at next level, right associativity).

(** A string is falsy exactly when it is empty. *)
Definition truthy (s : string) : bool := negb (String.eqb s "").

(** ** [normalizeVersion] *)

Definition normalizeVersion (version : string) : string :=
  let parts := Str.split "." version in
  Str.join "." (parts ++ repeat "0" (3 - List.length parts)).

(** ** [splitNameAndVersion] *)

Definition splitNameAndVersion (spec : string) : result (string * string) :=
  match Str.lastIndexOf "@" spec with
  | Some atIndex =>
      if (atIndex <=? 0)%nat then Throw ("Invalid package spec: " ++ spec)
      else Ok (Str.take atIndex spec, Str.drop (atIndex + 1) spec)
  | None => Throw ("Invalid package spec: " ++ spec)
  end.

(** ** The pattern of [analyzeVersionRequirements]

    The pattern is the package name, an [@], and one capturing group: a run
    of digits and dots, then any number of groups made of a hyphen and a run
    of word characters and dots.  The package name is read as a pattern, in
    which [.] stands for any character but a line terminator.  Names holding another operator of the pattern language
    ([regex_plain] is false) are outside this model. *)

Module Re.

Definition operator (c : ascii) : bool :=
  existsb (Ascii.eqb c)
    ["\"; "^"; "$"; "*"; "+"; "?"; "("; ")"; "["; "]"; "{"; "}"; "|"]%char.

Definition regex_plain (name : string) : bool :=
  Str.forallb (fun c => negb (operator c)) name.

Definition line_terminator (c : ascii) : bool :=
  let n := N_of_ascii c in (n =? 10)%N || (n =? 13)%N.

Definition pattern_char (p c : ascii) : bool :=
  if Ascii.eqb p "." then negb (line_terminator c) else Ascii.eqb p c.

(** The classes of digits and dots, and of word characters and dots. *)
Definition digit_or_dot (c : ascii) : bool := Str.is_digit c || Ascii.eqb c ".".

Definition word_or_dot (c : ascii) : bool :=
  Str.is_digit c || Str.is_letter c || Ascii.eqb c "_" || Ascii.eqb c ".".

(** The longest prefix of class [f] and what follows it. *)
Fixpoint span (f : ascii -> bool) (s : string) : string * string :=
  match s with
  | String c s' =>
      if f c then let '(h, t) := span f s' in (String c h, t)
      else (EmptyString, s)
  | EmptyString => (EmptyString, EmptyString)
  end.

(** What the rest of a run of word characters and dots, and the hyphen
    groups after it, take greedily at the start of [s]. *)
Fixpoint word_run (s : string) : string :=
  match s with
  | String c s' =>
      if word_or_dot c then String c (word_run s')
      else if Ascii.eqb c "-" then
        match s' with
        | String d s'' =>
            if word_or_dot d then String c (String d (word_run s''))
            else EmptyString
        | EmptyString => EmptyString
        end
      else EmptyString
  | EmptyString => EmptyString
  end.

(** What the hyphen groups take at the start of [s]. *)
Definition groups (s : string) : string :=
  match s with
  | String "-" (String d s') =>
      if word_or_dot d then String "-" (String d (word_run s'))
      else EmptyString
  | _ => EmptyString
  end.

(** The capturing group at the start of [s]. *)
Definition capture (s : string) : option string :=
  let '(d, rest) := span digit_or_dot s in
  match d with
  | EmptyString => None
  | _ => Some (d ++ groups rest)%string
  end.

(** The whole pattern tried at the start of [s]. *)
Fixpoint match_here (name : string) (s : string) : option string :=
  match name with
  | EmptyString =>
      match s with
      | String "@" s' => capture s'
      | _ => None
      end
  | String p name' =>
      match s with
      | String c s' => if pattern_char p c then match_here name' s' else None
      | EmptyString => None
      end
  end.

(** [line.match(re)]: the first group of the leftmost match. *)
Fixpoint exec (name : string) (line : string) : option string :=
  match match_here name line with
  | Some v => Some v
  | None =>
      match line with
      | String _ line' => exec name line'
      | EmptyString => None
      end
  end.

End Re.

(** ** [analyzeVersionRequirements] *)

Record VersionAnalysis : Type := mkVersionAnalysis
  { allValid : bool;
    invalidVersions : list string }.

Fixpoint checkLines (childPackage minVersion normalizedMinVersion : string)
    (dependencyLines : list string) (acc : VersionAnalysis)
    : result VersionAnalysis :=
  match dependencyLines with
  | [] => Ok acc
  | line :: rest =>
      match Re.exec childPackage line with
      | None => checkLines childPackage minVersion normalizedMinVersion rest acc
      | Some depVersion =>
          let normalizedDepVersion := normalizeVersion depVersion in
          if truthy minVersion then
            older <- semver.lt normalizedDepVersion normalizedMinVersion ;;
            if (older : bool) then
              checkLines childPackage minVersion normalizedMinVersion rest
                (mkVersionAnalysis false (invalidVersions acc ++ [line]))
            else checkLines childPackage minVersion normalizedMinVersion rest acc
          else checkLines childPackage minVersion normalizedMinVersion rest acc
      end
  end.

Definition analyzeVersionRequirements
    (dependencyLines : list string) (childPackage minVersion : string)
    : result VersionAnalysis :=
  let normalizedMinVersion := normalizeVersion minVersion in
  checkLines childPackage minVersion normalizedMinVersion dependencyLines
    (mkVersionAnalysis true []).

(** ** Registries and ranges used as examples

    [rangeBasic] is the part of the range grammar the examples use: [*] (or
    the empty range), one exact version, and a caret range of a full
    version. *)

Module Examples.

Definition isNil {A : Type} (l : list A) : bool :=
  match l with
  | [] => true
  | _ => false
  end.

Definition sameTuple (a b : semver.SemVer) : bool :=
  (semver.major a =? semver.major b)%N
  && (semver.minor a =? semver.minor b)%N
  && (semver.patch a =? semver.patch b)%N.

(** The bound [<M.m.p-0] that closes the caret range of [b]. *)
Definition caretUpper (b : semver.SemVer) : semver.SemVer :=
  if negb (semver.major b =? 0)%N then
    semver.mkSemVer (semver.major b + 1) 0 0 [semver.Num 0] []
  else if negb (semver.minor b =? 0)%N then
    semver.mkSemVer 0 (semver.minor b + 1) 0 [semver.Num 0] []
  else semver.mkSemVer 0 0 (semver.patch b + 1) [semver.Num 0] [].

Definition rangeBasic (range : string) (includePrerelease : bool)
    (v : semver.SemVer) : bool :=
  let preOk base :=
    includePrerelease || isNil (semver.prerelease_ids v)
    || (negb (isNil (semver.prerelease_ids base)) && sameTuple v base) in
  if String.eqb range "*" || String.eqb range "" then
    includePrerelease || isNil (semver.prerelease_ids v)
  else
    match range with
    | String "^" r =>
        match semver.parse r with
        | Some base =>
            match semver.compareSemVer v base with Lt => false | _ => true end
            && match semver.compareSemVer v (caretUpper base) with
               | Lt => true
               | _ => false
               end
            && preOk base
        | None => false
        end
    | _ =>
        match semver.parse range with
        | Some base =>
            match semver.compareSemVer v base with Eq => true | _ => false end
            && preOk base
        | None => false
        end
    end.

Definition pkg (deps : list (string * string)) : PackageVersion :=
  mkPackageVersion deps [] [].

Definition found (name : string) (vs : Obj.t PackageVersion) : result Response :=
  Ok (mkResponse true "200" "OK" (Ok (mkMeta name vs))).

Definition notFound : result Response :=
  Ok (mkResponse false "404" "Not Found" (Ok (mkMeta "" []))).

(** [@types/node@1.0.0] depends on [node], resolved to [node@5.1.0], and
    [@types/node@18.0.0] on an older [node], resolved to [node@3.9.0]. *)
Definition typesNode (name : string) : result Response :=
  if String.eqb name "@types/node" then
    found name [("1.0.0", pkg [("node", "^5.0.0")]);
                ("18.0.0", pkg [("node", "^3.0.0")])]
  else if String.eqb name "node" then
    found name [("3.0.0", pkg []); ("3.9.0", pkg []); ("4.9.0", pkg []);
                ("5.0.0", pkg []); ("5.1.0", pkg []); ("6.0.0-rc.1", pkg [])]
  else notFound.

(** The scenario of the specification, [A@1.0.0] depending on [B], resolved to
    [B@2.3.0], which depends on [C], resolved to [C@4.0.0], after an older
    [A@0.9.0] whose tree holds [C@3.9.0]. *)
Definition chainABC (name : string) : result Response :=
  if String.eqb name "A" then
    found name [("0.9.0", pkg [("B", "^1.0.0")]); ("1.0.0", pkg [("B", "^2.0.0")]);
                ("1.1.0", pkg [("B", "^2.0.0")])]
  else if String.eqb name "B" then
    found name [("1.0.0", pkg [("C", "^3.0.0")]); ("2.0.0", pkg [("C", "^4.0.0")]);
                ("2.3.0", pkg [("C", "^4.0.0")]); ("3.0.0", pkg [])]
  else if String.eqb name "C" then
    found name [("3.9.0", pkg []); ("4.0.0", pkg []); ("5.0.0", pkg [])]
  else notFound.

End Examples.
(** ** The engine

    The registry and the range grammar of [semver] are the two things the
    engine takes from outside: [fetch name] is what the request for the
    metadata of [name] resolves to ([Throw] when the request itself fails),
    and [rangeSatisfied range includePrerelease v] tells whether the parsed
    version [v] is in [range]. *)

Section Engine.

Variable fetch : string -> result Response.
Variable rangeSatisfied : string -> bool -> semver.SemVer -> bool.

(** [range.test(version)]: text that is no version is in no range. *)
Definition rangeTest (range : string) (includePrerelease : bool) (v : string) : bool :=
  match semver.parse v with
  | Some sv => rangeSatisfied range includePrerelease sv
  | None => false
  end.

(** [semver.maxSatisfying(versions, range, options)] *)
Definition maxSatisfying (versions : list string) (range : string)
    (includePrerelease : bool) : option string :=
  fold_left
    (fun max v =>
       if rangeTest range includePrerelease v then
         match max with
         | None => Some v
         | Some m =>
             match semver.compare m v with
             | Ok Lt => Some v
             | _ => max
             end
         end
       else max)
    versions None.

Definition fetchPackageMetadata (packageName : string) : M RegistryPackageMeta :=
  fun w =>
    match Obj.get packageName (packageMetaCache w) with
    | Some meta => (w, Ok meta)
    | None =>
        let w1 := mkWorld (packageMetaCache w) (versionResolutionCache w)
                    (requests w ++ [packageName]) in
        match fetch packageName with
        | Throw e => (w1, Throw e)
        | Ok res =>
            if negb (ok res) then
              (w1, Throw ("Failed to fetch metadata for " ++ packageName ++ ": "
                            ++ status res ++ " " ++ statusText res)%string)
            else
              match json res with
              | Throw e => (w1, Throw e)
              | Ok meta =>
                  (mkWorld (Obj.set packageName meta (packageMetaCache w1))
                     (versionResolutionCache w1) (requests w1),
                   Ok meta)
              end
        end
    end.

Definition setResolution (key : string) (r : option string) (w : World) : World :=
  mkWorld (packageMetaCache w) (Obj.set key r (versionResolutionCache w)) (requests w).

(** [match || null] *)
Definition orNull (m : option string) : option string :=
  match m with
  | Some v => if truthy v then Some v else None
  | None => None
  end.

Definition resolveVersion (name range : string) (w : World) : World * option string :=
  let key := (name ++ "@" ++ range)%string in
  match Obj.get key (versionResolutionCache w) with
  | Some r => (w, r)
  | None =>
      match fetchPackageMetadata name w with
      | (w1, Ok meta) =>
          let allVersions := Obj.keys (versions meta) in
          let stable :=
            filter (fun v => match semver.prerelease v with
                             | None => true
                             | Some _ => false
                             end) allVersions in
          let m := match orNull (maxSatisfying stable range false) with
                   | Some v => Some v
                   | None => maxSatisfying allVersions range true
                   end in
          (setResolution key (orNull m) w1, orNull m)
      | (w1, Throw _) => (setResolution key None w1, None)
      end
  end.

Definition maxNodes : nat := 3000.

(** The [for ... of Object.entries(deps)] loop of the traversal. *)
Fixpoint enqueueDeps (node : QueueNode) (deps : list (string * string))
    (queue : list QueueNode) (w : World) : World * list QueueNode :=
  match deps with
  | [] => (w, queue)
  | (depName, depRange) :: deps' =>
      match resolveVersion depName depRange w with
      | (w1, None) => enqueueDeps node deps' queue w1
      | (w1, Some resolved) =>
          let childPath := q_path node ++ [(depName ++ "@" ++ resolved)%string] in
          enqueueDeps node deps' (queue ++ [mkNode depName resolved childPath]) w1
      end
  end.

Definition keyOf (node : QueueNode) : string :=
  (q_name node ++ "@" ++ q_version node)%string.

(** What one newly visited node does to the matches, the queue and the
    world: the body of the [while] loop past the ceiling test. *)
Definition visit (targetName : string) (node : QueueNode)
    (matches : list Match) (queue : list QueueNode) (w : World)
    : World * (list Match * list QueueNode) :=
  if String.eqb (q_name node) targetName then
    (w, (matches ++ [mkMatch (Str.join " > " (q_path node)) (q_version node)], queue))
  else
    match fetchPackageMetadata (q_name node) w with
    | (w1, Throw _) => (w1, (matches, queue))
    | (w1, Ok meta) =>
        match Obj.get (q_version node) (versions meta) with
        | None => (w1, (matches, queue))
        | Some pkg =>
            let deps := Obj.spread (dependencies pkg) (optionalDependencies pkg) in
            let '(w2, queue') := enqueueDeps node deps queue w1 in
            (w2, (matches, queue'))
        end
    end.

(** The [while (queue.length)] loop.  An already visited key goes on with the
    rest of the queue; every newly visited key uses one unit of [fuel], and
    [None] is the loop out of fuel. *)
Fixpoint traverse (fuel : nat) (targetName : string) (visited : StrSet.t)
    (matches : list Match) (w : World) (queue : list QueueNode) {struct fuel}
    : World * option TraversalResult :=
  (fix scan (queue : list QueueNode) : World * option TraversalResult :=
     match queue with
     | [] => (w, Some (mkTraversal matches (StrSet.size visited) false))
     | node :: rest =>
         let key := keyOf node in
         if StrSet.has key visited then scan rest
         else
           let visited' := StrSet.add key visited in
           if (maxNodes <? StrSet.size visited')%nat then
             (w, Some (mkTraversal matches (StrSet.size visited') true))
           else
             match fuel with
             | 0 => (w, None)
             | S fuel' =>
                 let '(w1, (matches', queue')) := visit targetName node matches rest w in
                 traverse fuel' targetName visited' matches' w1 queue'
             end
     end) queue.

(** [findChildOccurrencesInTree].  [maxNodes] units of fuel are enough
    ([traverse_total] below), so the last case does not arise. *)
Definition findChildOccurrencesInTree (rootName rootVersion targetName : string)
    (w : World) : World * TraversalResult :=
  match traverse maxNodes targetName [] [] w
          [mkNode rootName rootVersion [(rootName ++ "@" ++ rootVersion)%string]] with
  | (w1, Some r) => (w1, r)
  | (w1, None) => (w1, mkTraversal [] 0 true)
  end.

(** *** The evaluator: [analyzePackageDependencies] from the traversal
    result on *)

Definition evaluate (parentVersion childPackage childMinVersion : string)
    (packageRemoved : bool) (traversal : TraversalResult)
    : result DependencyAnalysisResult :=
  let dependencyLines := map pathString (matches traversal) in
  if (List.length dependencyLines =? 0)%nat then
    if packageRemoved then
      Ok (mkAnalysis true
            ("✅ SUCCESS: Version " ++ parentVersion ++ " does not depend on '"
             ++ childPackage
             ++ "' anywhere in its dependency tree (package removed condition satisfied).")
            [("Package '" ++ childPackage ++ "' is not found in the dependency tree")%string])
    else
      Ok (mkAnalysis false
            ("❌ Package '" ++ childPackage ++ "' not found in dependency tree") [])
  else if packageRemoved then
    if truthy childMinVersion then
      versionAnalysis <- analyzeVersionRequirements dependencyLines childPackage childMinVersion ;;
      if allValid versionAnalysis then
        Ok (mkAnalysis true
              ("✅ SUCCESS: Version " ++ parentVersion ++ " - ALL instances of '"
               ++ childPackage ++ "' meet the minimum version requirement (>= "
               ++ childMinVersion ++ ") - minimum version condition satisfied.")
              dependencyLines)
      else
        Ok (mkAnalysis false
              ("❌ Package '" ++ childPackage
               ++ "' exists but doesn't meet minimum version requirement. Need EITHER package removal OR version >= "
               ++ childMinVersion ++ ".")
              (invalidVersions versionAnalysis))
    else
      Ok (mkAnalysis false
            ("❌ Package '" ++ childPackage
             ++ "' still exists in dependency tree (package removal condition not satisfied).")
            dependencyLines)
  else
    versionAnalysis <- analyzeVersionRequirements dependencyLines childPackage childMinVersion ;;
    if allValid versionAnalysis then
      Ok (mkAnalysis true
            ("✅ SUCCESS: Version " ++ parentVersion ++ " - ALL instances of '"
             ++ childPackage ++ "' meet the minimum version requirement (>= "
             ++ childMinVersion ++ ").")
            dependencyLines)
    else
      Ok (mkAnalysis false
            ("❌ Some instances of '" ++ childPackage ++ "' are older than required:")
            (invalidVersions versionAnalysis)).

Definition analyzePackageDependencies
    (parentPackageVersion childPackage childMinVersion : string)
    (packageRemoved : bool) : M DependencyAnalysisResult :=
  nv <~ lift (splitNameAndVersion parentPackageVersion) ;;
  let '(parentName, parentVersion) := nv in
  traversal <~ (fun w =>
                  let '(w1, t) :=
                    findChildOccurrencesInTree parentName parentVersion childPackage w in
                  (w1, Ok t)) ;;
  lift (evaluate parentVersion childPackage childMinVersion packageRemoved traversal).

(** *** [getPackageVersions]

    [versions.sort(semver.compare)]: the sort is stable, and the comparison
    throws at the first text it is given that is no version. *)

Fixpoint insertVersion (v : string) (sorted : list string) : result (list string) :=
  match sorted with
  | [] => Ok [v]
  | x :: rest =>
      c <- semver.compare v x ;;
      match c with
      | Gt => r <- insertVersion v rest ;; Ok (x :: r)
      | _ => Ok (v :: sorted)
      end
  end.

Fixpoint sortVersions (vs : list string) : result (list string) :=
  match vs with
  | [] => Ok []
  | v :: rest => sorted <- sortVersions rest ;; insertVersion v sorted
  end.

Definition getPackageVersions (packageName : string) : M (list string) :=
  meta <~ fetchPackageMetadata packageName ;;
  lift (sortVersions (Obj.keys (versions meta))).

(** *** [findCompatibleVersion] *)

(** [versions.filter(pred)] for a predicate that may throw. *)
Fixpoint filterR (pred : string -> result bool) (vs : list string) : result (list string) :=
  match vs with
  | [] => Ok []
  | v :: rest =>
      keep <- pred v ;;
      kept <- filterR pred rest ;;
      Ok (if (keep : bool) then v :: kept else kept)
  end.

Definition atLeast (parentMinVersion version : string) : result bool :=
  if negb (truthy parentMinVersion) then Ok true
  else
    let normalizedParentMinVersion := normalizeVersion parentMinVersion in
    let normalizedVersion := normalizeVersion version in
    semver.gte normalizedVersion normalizedParentMinVersion.

Definition isPrerelease (version : string) : bool :=
  match semver.prerelease version with
  | Some _ => true
  | None => false
  end.

(** [message.replace(/Version ([^\s]+)/, `Version $1${versionType}`)] *)
Definition afterVersion (versionType s : string) : option string :=
  match s with
  | String "V" (String "e" (String "r" (String "s" (String "i" (String "o"
      (String "n" (String " " r))))))) =>
      let '(word, rest) := Re.span (fun c => negb (Str.is_space c)) r in
      match word with
      | EmptyString => None
      | _ => Some ("Version " ++ word ++ versionType ++ rest)%string
      end
  | _ => None
  end.

Fixpoint enhance (versionType message : string) : string :=
  match afterVersion versionType message with
  | Some replaced => replaced
  | None =>
      match message with
      | String c message' => String c (enhance versionType message')
      | EmptyString => EmptyString
      end
  end.

Definition noCompatible : SearchResult :=
  mkSearchResult false None "No compatible version found for the given requirements" [].

(** The loop over the versions of one group: [Some] is the [return] of the
    first success. *)
Fixpoint tryVersions (params : SearchParams) (groupType : string)
    (vs : list string) : M (option SearchResult) :=
  match vs with
  | [] => ret None
  | version :: rest =>
      dependencyResult <~
        analyzePackageDependencies
          (parentPackage params ++ "@" ++ version)%string
          (childPackage params) (childMinVersion params) (packageRemoved params) ;;
      if a_success dependencyResult then
        let versionType :=
          if String.eqb groupType "stable" then " (stable release)" else " (pre-release)" in
        ret (Some (mkSearchResult true (Some version)
                     (enhance versionType (a_message dependencyResult))
                     (a_details dependencyResult)))
      else tryVersions params groupType rest
  end.

Fixpoint tryGroups (params : SearchParams)
    (versionGroups : list (list string * string)) : M SearchResult :=
  match versionGroups with
  | [] => ret noCompatible
  | (vs, groupType) :: rest =>
      if (List.length vs =? 0)%nat then tryGroups params rest
      else
        found <~ tryVersions params groupType vs ;;
        match found with
        | Some r => ret r
        | None => tryGroups params rest
        end
  end.

(** The candidates in the order they are tried. *)
Definition versionGroups (filteredVersions : list string) : list (list string * string) :=
  let stableVersions := filter (fun v => negb (isPrerelease v)) filteredVersions in
  let preReleaseVersions := filter isPrerelease filteredVersions in
  [(stableVersions, "stable"); (preReleaseVersions, "pre-release")].

(** The body of the [try]. *)
Definition search (params : SearchParams) : M SearchResult :=
  versions <~ getPackageVersions (parentPackage params) ;;
  if (List.length versions =? 0)%nat then
    ret (mkSearchResult false None
           ("No versions found for package '" ++ parentPackage params ++ "'") [])
  else
    filteredVersions <~ lift (filterR (atLeast (parentMinVersion params)) versions) ;;
    if (List.length filteredVersions =? 0)%nat then
      ret (mkSearchResult false None
             ("No versions of '" ++ parentPackage params ++ "' found that are >= "
              ++ parentMinVersion params) [])
    else tryGroups params (versionGroups filteredVersions).

Definition findCompatibleVersion (params : SearchParams) (w : World)
    : World * SearchResult :=
  match search params w with
  | (w1, Ok r) => (w1, r)
  | (w1, Throw e) =>
      (w1, mkSearchResult false None ("Error during search: " ++ e) [])
  end.

(** *** The HTTP route, [POST] of [app/api/search/route.ts], on a parsed body

    The route imports [findCompatibleVersion] from [lib/package-finder.ts],
    whose body is this one up to the way the versions and the dependency lines
    are obtained. *)

Inductive HttpResponse : Type :=
| Json (status : nat) (result : SearchResult)
| JsonError (status : nat) (error : string).

Definition POST (body : SearchParams) (w : World) : World * HttpResponse :=
  if negb (truthy (parentPackage body)) || negb (truthy (childPackage body)) then
    (w, JsonError 400 "Parent package and child package are required")
  else if negb (packageRemoved body) && negb (truthy (childMinVersion body)) then
    (w, JsonError 400
          "Child minimum version is required when package is not marked as removed")
  else
    let '(w1, result) := findCompatibleVersion body w in
    (w1, Json 200 result).


(** ** Notions the properties are stated with *)

(** The number of occurrences of [c] in [s]. *)
Fixpoint count (c : ascii) (s : string) : nat :=
  match s with
  | EmptyString => 0
  | String a s' => (if Ascii.eqb a c then 1 else 0) + count c s'
  end.

(** [a] does not come after [b] in version order. *)
Definition versionLe (a b : string) : Prop :=
  exists c, semver.compare a b = Ok c /\ c <> Gt.

(** [version] passes the filter of [findCompatibleVersion] for the floor
    [parentMinVersion]. *)
Definition meetsFloor (parentMinVersion version : string) : bool :=
  match atLeast parentMinVersion version with
  | Ok b => b
  | Throw _ => false
  end.

(** The candidates, in the order the two loops of [findCompatibleVersion]
    try them, for the keys [versions] of the parent's metadata. *)
Definition candidates (versionGroups : list (list string * string)) : list string :=
  concat (map fst versionGroups).

Definition orderCandidates (versions : list string) (parentMinVersion : string)
    : result (list string) :=
  sorted <- sortVersions versions ;;
  filteredVersions <- filterR (atLeast parentMinVersion) sorted ;;
  Ok (candidates (versionGroups filteredVersions)).

Definition isVersion (v : string) : bool :=
  match semver.parse v with
  | Some _ => true
  | None => false
  end.

(** A floor the filter can compare with: none, or one that is a version
    once normalized. *)
Definition floorOk (parentMinVersion : string) : bool :=
  negb (truthy parentMinVersion) || isVersion (normalizeVersion parentMinVersion).

(** The analysis of the candidate [version] of the parent, as the loop of
    [findCompatibleVersion] runs it. *)
Definition analyze (params : SearchParams) (version : string)
    : M DependencyAnalysisResult :=
  analyzePackageDependencies
    (parentPackage params ++ "@" ++ version)%string
    (childPackage params) (childMinVersion params) (packageRemoved params).

(** Every candidate of [vs] is analysed in turn, from the world [w], and none
    succeeds; the world they leave. *)
Fixpoint allFail (params : SearchParams) (vs : list string) (w : World)
    : option World :=
  match vs with
  | [] => Some w
  | v :: rest =>
      match analyze params v w with
      | (w1, Ok r) => if a_success r then None else allFail params rest w1
      | (_, Throw _) => None
      end
  end.

(** The traversal of the candidate [version], as [analyzePackageDependencies]
    runs it. *)
Definition traversalAt (params : SearchParams) (version : string) (w : World)
    : option (World * TraversalResult) :=
  match splitNameAndVersion (parentPackage params ++ "@" ++ version) with
  | Ok (parentName, parentVersion) =>
      Some (findChildOccurrencesInTree parentName parentVersion (childPackage params) w)
  | Throw _ => None
  end.

(** The traversals of the candidates of [vs], in turn from the world [w], find
    no occurrence of the target; the world they leave. *)
Fixpoint noTarget (params : SearchParams) (vs : list string) (w : World)
    : option World :=
  match vs with
  | [] => Some w
  | v :: rest =>
      match traversalAt params v w with
      | Some (w1, t) =>
          match matches t with
          | [] => noTarget params rest w1
          | _ :: _ => None
          end
      | None => None
      end
  end.

(** [comparePre] on the identifier lists alone. *)
Definition comparePreIds (pa pb : list semver.identifier) : comparison :=
  match pa, pb with
  | _ :: _, [] => Lt
  | [], _ :: _ => Gt
  | [], [] => Eq
  | _, _ => semver.compareIds pa pb
  end.


(** The suffix added to the message of a success, and the result built for
    the winning [version] from its analysis. *)
Definition versionTypeOf (groupType : string) : string :=
  if String.eqb groupType "stable" then " (stable release)" else " (pre-release)".

Definition winner (groupType version : string) (a : DependencyAnalysisResult)
    : SearchResult :=
  mkSearchResult true (Some version)
    (enhance (versionTypeOf groupType) (a_message a)) (a_details a).


(** The params the route rejects. *)
Definition invalidParams (body : SearchParams) : bool :=
  negb (truthy (parentPackage body)) || negb (truthy (childPackage body))
  || (negb (packageRemoved body) && negb (truthy (childMinVersion body))).

(** The failure result of the [catch] of [findCompatibleVersion]. *)
Definition searchError (e : string) : SearchResult :=
  mkSearchResult false None ("Error during search: " ++ e) [].

(** [m] is a version of [versions] in [range] that no version of [versions] in
    [range] comes after. *)
Definition maxIn (versions : list string) (range : string)
    (includePrerelease : bool) (m : string) : Prop :=
  In m versions
  /\ rangeTest range includePrerelease m = true
  /\ forall v, In v versions -> rangeTest range includePrerelease v = true ->
               versionLe v m.

(** No version of [versions] is in [range]. *)
Definition noneIn (versions : list string) (range : string)
    (includePrerelease : bool) : Prop :=
  forall v, In v versions -> rangeTest range includePrerelease v = false.

(** The stable versions among [allVersions], as [resolveVersion] selects them. *)
Definition stableOf (allVersions : list string) : list string :=
  filter (fun v => match semver.prerelease v with
                   | None => true
                   | Some _ => false
                   end) allVersions.

(** The nodes the loop of the traversal processes: those it takes past the
    test of [visited] and the ceiling, and so records or expands, in order. *)
Fixpoint processedNodes (fuel : nat) (targetName : string) (visited : StrSet.t)
    (matches : list Match) (w : World) (queue : list QueueNode) {struct fuel}
    : list QueueNode :=
  (fix scan (queue : list QueueNode) : list QueueNode :=
     match queue with
     | [] => []
     | node :: rest =>
         if StrSet.has (keyOf node) visited then scan rest
         else if (maxNodes <? StrSet.size (StrSet.add (keyOf node) visited))%nat then []
         else
           match fuel with
           | 0 => []
           | S fuel' =>
               let '(w1, (matches', queue')) := visit targetName node matches rest w in
               node :: processedNodes fuel' targetName
                         (StrSet.add (keyOf node) visited) matches' w1 queue'
           end
     end) queue.

(** [child] was enqueued while [parent] was expanded. *)
Definition childOf (parent child : QueueNode) : Prop :=
  q_path child = q_path parent ++ [keyOf child].

(** The metadata cache holds, for each name, what the registry answers for it. *)
Definition coherent (w : World) : Prop :=
  forall n m,
    Obj.get n (packageMetaCache w) = Some m ->
    exists s st, fetch n = Ok (mkResponse true s st (Ok m)).

(** The occurrence recorded for a node of the target. *)
Definition occurrence (node : QueueNode) : Match :=
  mkMatch (Str.join " > " (q_path node)) (q_version node).

(** What [analyzeVersionRequirements] decides for one line: valid unless the
    version its pattern reads in the line is older than the minimum. *)
Definition lineValid (childPackage normalizedMinVersion line : string) : bool :=
  match Re.exec childPackage line with
  | None => true
  | Some depVersion =>
      match semver.lt (normalizeVersion depVersion) normalizedMinVersion with
      | Ok older => negb older
      | Throw _ => true
      end
  end.

(** The version read in [line], if any, can be compared with the minimum. *)
Definition lineComparable (childPackage normalizedMinVersion line : string) : Prop :=
  match Re.exec childPackage line with
  | None => True
  | Some depVersion =>
      exists older, semver.lt (normalizeVersion depVersion) normalizedMinVersion = Ok older
  end.

End Engine.

(** ** Runs of the engine on the examples *)

Module Runs.

Import Examples.

(** The search for the first [A] whose tree holds [C] at 4.0.0 or later. *)
Definition abcParams : SearchParams := mkParams "A" "" "C" "4.0.0" false.

Definition abcVersions : list string := ["0.9.0"; "1.0.0"; "1.1.0"].

(** The worlds after the version list of [A] is fetched, after [A@0.9.0] is
    analysed, and after [A@1.0.0] is. *)
Definition abcFetched : World := fst (getPackageVersions chainABC "A" emptyWorld).

Definition abcFirst : World :=
  fst (analyze chainABC rangeBasic abcParams "0.9.0" abcFetched).

Definition abcSecond : World :=
  fst (analyze chainABC rangeBasic abcParams "1.0.0" abcFirst).

Definition abcAnalysis : DependencyAnalysisResult :=
  mkAnalysis true
    "✅ SUCCESS: Version 1.0.0 - ALL instances of 'C' meet the minimum version requirement (>= 4.0.0)."
    ["A@1.0.0 > B@2.3.0 > C@4.0.0"].

(** The searches for the first [@types/node] whose tree holds [node] at 4.0.0
    or later, without and with removal accepted, and the search that names no
    minimum. *)
Definition nodeParams : SearchParams := mkParams "@types/node" "" "node" "4.0.0" false.

Definition nodeOrRemoved : SearchParams := mkParams "@types/node" "" "node" "4.0.0" true.

Definition nodeAny : SearchParams := mkParams "@types/node" "" "node" "" false.

(** The world once the version list of [@types/node] is fetched. *)
Definition typesFetched : World :=
  fst (getPackageVersions typesNode "@types/node" emptyWorld).

(** The occurrences the traversals of [@types/node@1.0.0] and of
    [@types/node@18.0.0] find. *)
Definition newerNode : Match := mkMatch "@types/node@1.0.0 > node@5.1.0" "5.1.0".

Definition olderNode : Match := mkMatch "@types/node@18.0.0 > node@3.9.0" "3.9.0".

(** A registry in which [wide@1.0.0] depends on [deps] and every other
    package has the one version [1.0.0], without dependencies. *)
Definition broad (deps : Obj.t string) (name : string) : result Response :=
  if String.eqb name "wide" then found name [("1.0.0", pkg deps)]
  else found name [("1.0.0", pkg [])].

Definition depName (i : nat) : string :=
  ("d" ++ NilEmpty.string_of_uint (Nat.to_uint i))%string.

(** The dependencies [d0], [d1], ..., as many as the ceiling of the traversal,
    and after them the target. *)
Definition wideDeps : Obj.t string :=
  map (fun i => (depName i, "*")) (seq 0 maxNodes) ++ [("target", "*")].

(** The search for a [wide] whose tree does not hold [target]. *)
Definition removalParams : SearchParams := mkParams "wide" "" "target" "" true.

(** The node enqueued for the dependency [d] of [node], resolved to [1.0.0]. *)
Definition childNode (node : QueueNode) (d : string) : QueueNode :=
  mkNode d "1.0.0" (q_path node ++ [(d ++ "@" ++ "1.0.0")%string]).

(** Every resolution kept so far is [1.0.0]. *)
Definition resolvedToOne (w : World) : Prop :=
  forall k r, Obj.get k (versionResolutionCache w) = Some r -> r = Some "1.0.0".

(** A node of a package other than [wide] and the target, at [1.0.0]. *)
Definition leafNode (n : QueueNode) : Prop :=
  String.eqb (q_name n) "wide" = false
  /\ String.eqb (q_name n) "target" = false
  /\ q_version n = "1.0.0".

(** The success of the removal search at [wide@1.0.0]. *)
Definition absent : SearchResult :=
  mkSearchResult true (Some "1.0.0")
    "✅ SUCCESS: Version 1.0.0 (stable release) does not depend on 'target' anywhere in its dependency tree (package removed condition satisfied)."
    ["Package 'target' is not found in the dependency tree"].

(** The world in which the traversal of [wide@1.0.0] starts: the version list
    of [wide] fetched from the registry [broad deps]. *)
Definition wideFetched (deps : Obj.t string) : World :=
  mkWorld [("wide", mkMeta "wide" [("1.0.0", pkg deps)])] [] ["wide"].

End Runs.
(** ** How the engine changes the world

    [steps fetch w w']: [w'] is [w] after some calls of [fetchPackageMetadata]
    and some writes of a key the resolution cache does not hold yet. *)

Inductive steps (fetch : string -> result Response) : World -> World -> Prop :=
| steps_done w : steps fetch w w
| steps_fetch w w1 packageName :
    steps fetch w w1 ->
    steps fetch w (fst (fetchPackageMetadata fetch packageName w1))
| steps_resolution w w1 key r :
    steps fetch w w1 ->
    Obj.get key (versionResolutionCache w1) = None ->
    steps fetch w (setResolution key r w1).

(** [w'] holds every entry of the caches of [w], and its request log goes on
    from the one of [w]. *)
Definition extends (w w' : World) : Prop :=
  (forall name meta,
      Obj.get name (packageMetaCache w) = Some meta ->
      Obj.get name (packageMetaCache w') = Some meta)
  /\ (forall key r,
        Obj.get key (versionResolutionCache w) = Some r ->
        Obj.get key (versionResolutionCache w') = Some r)
  /\ exists sent, requests w' = requests w ++ sent.

(** The registry answers the request for [name] with metadata. *)
Definition answered (fetch : string -> result Response) (name : string) : Prop :=
  exists s st meta, fetch name = Ok (mkResponse true s st (Ok meta)).

(** Every name the metadata cache holds was requested once, and a name that
    was requested and is not held is one the registry does not answer. *)
Definition frugal (fetch : string -> result Response) (w : World) : Prop :=
  forall name,
    match Obj.get name (packageMetaCache w) with
    | Some _ => count_occ string_dec (requests w) name = 1
    | None => In name (requests w) -> ~ answered fetch name
    end.
(** The characters the capturing group of the pattern can hold. *)
Definition version_char (c : ascii) : bool := Re.word_or_dot c || Ascii.eqb c "-".

(** The note the evaluator gives in place of occurrences when the target is
    absent and removal was asked for. *)
Definition absentNote (childPackage : string) : list string :=
  [("Package '" ++ childPackage ++ "' is not found in the dependency tree")%string].
(** The depth of a node: the length of its path from the root. *)
Definition depth (node : QueueNode) : nat := List.length (q_path node).

(** The path of [node] starts at [rootKey] and ends at the node itself. *)
Definition rooted (rootKey : string) (node : QueueNode) : Prop :=
  exists mid, q_path node = rootKey :: mid /\ last (q_path node) "" = keyOf node.

(** A printable character of ASCII that is no space. *)
Definition visible (c : ascii) : bool :=
  let n := N_of_ascii c in (33 <=? n)%N && (n <=? 126)%N.
(** ** The command line, [dist/cli/cli/cli.js]

    [run] is the program from the arguments of the process to its exit code;
    what it prints is left out.  The search it calls is the one its build was
    linked with, a parameter here; [Throw] is the promise rejected, which the
    handler at the end of the file turns into the exit code 99. *)

Definition parseArg (spec : string) : option (string * string) :=
  if negb (truthy spec) then None
  else
    match Str.lastIndexOf "@" spec with
    | Some at_ =>
        if (at_ <=? 0)%nat then Some (spec, "")
        else Some (Str.take at_ spec, Str.drop (at_ + 1) spec)
    | None => Some (spec, "")
    end.

Record ParsedArgs : Type := mkParsedArgs
  { pa_parent : string;
    pa_child : string;
    pa_removed : bool;
    pa_noColor : bool }.

(** [token.startsWith("-")] *)
Definition startsWithDash (token : string) : bool :=
  match token with
  | String "-" _ => true
  | _ => false
  end.

(** The loop of [parseArgs] over the tokens: the positional ones, in order,
    and the set of the flags. *)
Definition sortTokens (argv : list string) : list string * StrSet.t :=
  fold_left
    (fun acc token =>
       if startsWithDash token then (fst acc, StrSet.add token (snd acc))
       else (fst acc ++ [token], snd acc))
    argv ([], []).

(** [Boolean(process.env.NO_COLOR)] *)
Definition envSet (NO_COLOR : option string) : bool :=
  match NO_COLOR with
  | Some s => truthy s
  | None => false
  end.

Definition parseArgs (argv : list string) (NO_COLOR : option string)
    : option ParsedArgs :=
  let '(positional, flags) := sortTokens argv in
  if (List.length positional <? 2)%nat then None
  else
    Some (mkParsedArgs (nth 0 positional "") (nth 1 positional "")
            (StrSet.has "--removed" flags || StrSet.has "-r" flags)
            (StrSet.has "--no-color" flags || envSet NO_COLOR)).

(** [rest.includes(flag)] *)
Definition includes (flag : string) (rest : list string) : bool :=
  existsb (String.eqb flag) rest.

Definition run (find : SearchParams -> M SearchResult) (argv : list string)
    (NO_COLOR : option string) (w : World) : World * nat :=
  let rest := skipn 2 argv in
  if includes "--help" rest || includes "-h" rest then (w, 0)
  else
    match parseArgs rest NO_COLOR with
    | None => (w, 1)
    | Some parsed =>
        match parseArg (pa_parent parsed), parseArg (pa_child parsed) with
        | Some parent, Some child =>
            match find (mkParams (fst parent) (snd parent) (fst child) (snd child)
                          (pa_removed parsed)) w with
            | (w1, Ok result) => (w1, if success result then 0 else 2)
            | (w1, Throw _) => (w1, 99)
            end
        | _, _ => (w, 1)
        end
    end.

(** The tokens of [argv] that are no flags. *)
Definition positionals (argv : list string) : list string :=
  filter (fun token => negb (startsWithDash token)) argv.

(** ** The evaluator of [lib/package-finder.ts]

    [analyzePackageDependencies] of the variant that lists the dependencies
    with [npm ls], from the lines of that listing on.  It differs from
    [evaluate] in the version its messages name,
    [parentPackageVersion.split('@')[1]]. *)

Definition reportedVersion (parentPackageVersion : string) : string :=
  match nth_error (Str.split "@" parentPackageVersion) 1 with
  | Some v => v
  | None => "undefined"
  end.

Definition legacyEvaluate (parentPackageVersion childPackage childMinVersion : string)
    (packageRemoved : bool) (dependencyLines : list string)
    : result DependencyAnalysisResult :=
  if (List.length dependencyLines =? 0)%nat then
    if packageRemoved then
      Ok (mkAnalysis true
            ("✅ SUCCESS: Version " ++ reportedVersion parentPackageVersion
             ++ " does not depend on '" ++ childPackage
             ++ "' anywhere in its dependency tree (package removed condition satisfied).")
            [("Package '" ++ childPackage ++ "' is not found in the dependency tree")%string])
    else
      Ok (mkAnalysis false
            ("❌ Package '" ++ childPackage ++ "' not found in dependency tree") [])
  else if packageRemoved then
    if truthy childMinVersion then
      versionAnalysis <- analyzeVersionRequirements dependencyLines childPackage childMinVersion ;;
      if allValid versionAnalysis then
        Ok (mkAnalysis true
              ("✅ SUCCESS: Version " ++ reportedVersion parentPackageVersion
               ++ " - ALL instances of '" ++ childPackage
               ++ "' meet the minimum version requirement (>= "
               ++ childMinVersion ++ ") - minimum version condition satisfied.")
              dependencyLines)
      else
        Ok (mkAnalysis false
              ("❌ Package '" ++ childPackage
               ++ "' exists but doesn't meet minimum version requirement. Need EITHER package removal OR version >= "
               ++ childMinVersion ++ ".")
              (invalidVersions versionAnalysis))
    else
      Ok (mkAnalysis false
            ("❌ Package '" ++ childPackage
             ++ "' still exists in dependency tree (package removal condition not satisfied).")
            dependencyLines)
  else
    versionAnalysis <- analyzeVersionRequirements dependencyLines childPackage childMinVersion ;;
    if allValid versionAnalysis then
      Ok (mkAnalysis true
            ("✅ SUCCESS: Version " ++ reportedVersion parentPackageVersion
             ++ " - ALL instances of '" ++ childPackage
             ++ "' meet the minimum version requirement (>= "
             ++ childMinVersion ++ ").")
            dependencyLines)
    else
      Ok (mkAnalysis false
            ("❌ Some instances of '" ++ childPackage ++ "' are older than required:")
            (invalidVersions versionAnalysis)).
(** ** More registries and runs used as examples *)

Module Samples.

Import Examples.

(** A parent with a key that is no version. *)
Definition tagged (name : string) : result Response :=
  if String.eqb name "p" then found name [("1.0.0", pkg []); ("next", pkg [])]
  else notFound.

(** A parent whose only version with a recent enough [C] is a pre-release. *)
Definition betas (name : string) : result Response :=
  if String.eqb name "P" then
    found name [("1.0.0", pkg [("C", "^3.0.0")]);
                ("2.0.0-beta.1", pkg [("C", "^4.0.0")])]
  else if String.eqb name "C" then
    found name [("3.9.0", pkg []); ("4.0.0", pkg [])]
  else notFound.

(** A root that reaches [T] directly, at [1.0.0], and through [X], at
    [2.0.0]; [X] comes first among its dependencies. *)
Definition diamond (name : string) : result Response :=
  if String.eqb name "R" then
    found name [("1.0.0", pkg [("X", "^1.0.0"); ("T", "^1.0.0")])]
  else if String.eqb name "X" then
    found name [("1.0.0", pkg [("T", "^2.0.0")])]
  else if String.eqb name "T" then
    found name [("1.0.0", pkg []); ("2.0.0", pkg [])]
  else notFound.

Definition betaParams : SearchParams := mkParams "P" "" "C" "4.0.0" false.

(** The search of the engine, as a command line linked with it calls it. *)
Definition engineSearch (fetch : string -> result Response)
    (rangeSatisfied : string -> bool -> semver.SemVer -> bool)
    (params : SearchParams) : M SearchResult :=
  fun w =>
    let '(w1, r) := findCompatibleVersion fetch rangeSatisfied params w in
    (w1, Ok r).

(** The arguments of [find-dep-breakpoint axios form-data]. *)
Definition bareArgv : list string := ["node"; "cli.js"; "axios"; "form-data"].

(** The traversal of [A@1.0.0] for [C]. *)
Definition abcTraversal : TraversalResult :=
  mkTraversal [mkMatch "A@1.0.0 > B@2.3.0 > C@4.0.0" "4.0.0"] 3 false.

End Samples.

(** ** The order of versions *)

(** A three-way comparison that orders its carrier: the shape shared by the
    comparisons of numbers, identifiers, identifier lists and versions. *)
Record Ordering {A : Type} (cmp : A -> A -> comparison) : Prop := mkOrdering
  { cmp_antisym : forall a b, cmp b a = CompOpp (cmp a b);
    cmp_lt_trans : forall a b c, cmp a b = Lt -> cmp b c = Lt -> cmp a c = Lt;
    cmp_eq_compat : forall a b c, cmp a b = Eq -> cmp a c = cmp b c }.

Lemma Ordering_refl {A : Type} (cmp : A -> A -> comparison) (O : Ordering cmp) a :
  cmp a a = Eq.
Proof.
  pose proof (cmp_antisym cmp O a a) as H.
  destruct (cmp a a); simpl in H; congruence.
Qed.

Lemma Ordering_le_trans {A : Type} (cmp : A -> A -> comparison) (O : Ordering cmp) a b c :
  cmp a b <> Gt -> cmp b c <> Gt -> cmp a c <> Gt.
Proof.
  intros Hab Hbc.
  destruct (cmp a b) eqn:Eab; try congruence.
  - rewrite (cmp_eq_compat cmp O a b c Eab). exact Hbc.
  - destruct (cmp b c) eqn:Ebc; try congruence.
    + assert (Ecb : cmp c b = Eq) by (rewrite (cmp_antisym cmp O b c), Ebc; reflexivity).
      pose proof (cmp_eq_compat cmp O c b a Ecb) as Hc.
      rewrite (cmp_antisym cmp O a c), (cmp_antisym cmp O a b), Eab in Hc.
      simpl in Hc. destruct (cmp a c); simpl in Hc; congruence.
    + rewrite (cmp_lt_trans cmp O a b c Eab Ebc). congruence.
Qed.

(** Comparing by [f] first and by [g] on a tie. *)
Lemma Ordering_lex {X A B : Type} (f : X -> A) (g : X -> B)
    (ca : A -> A -> comparison) (cb : B -> B -> comparison) :
  Ordering ca -> Ordering cb ->
  Ordering (fun x y => match ca (f x) (f y) with
                       | Eq => cb (g x) (g y)
                       | c => c
                       end).
Proof.
  intros Oa Ob. constructor.
  - intros a b. rewrite (cmp_antisym ca Oa (f a) (f b)).
    destruct (ca (f a) (f b)); simpl; auto. apply (cmp_antisym cb Ob).
  - intros a b c.
    destruct (ca (f a) (f b)) eqn:Eab; try discriminate.
    + rewrite (cmp_eq_compat ca Oa _ _ (f c) Eab).
      destruct (ca (f b) (f c)) eqn:Ebc; try discriminate; auto.
      apply (cmp_lt_trans cb Ob).
    + intros _.
      destruct (ca (f b) (f c)) eqn:Ebc; try discriminate.
      * intros _.
        assert (Ecb : ca (f c) (f b) = Eq)
          by (rewrite (cmp_antisym ca Oa (f b) (f c)), Ebc; reflexivity).
        pose proof (cmp_eq_compat ca Oa _ _ (f a) Ecb) as Hc.
        rewrite (cmp_antisym ca Oa (f a) (f c)), (cmp_antisym ca Oa (f a) (f b)), Eab in Hc.
        simpl in Hc. destruct (ca (f a) (f c)); simpl in Hc; congruence.
      * intros _. rewrite (cmp_lt_trans ca Oa _ _ _ Eab Ebc). reflexivity.
  - intros a b c.
    destruct (ca (f a) (f b)) eqn:Eab; try discriminate.
    intros Hg. rewrite (cmp_eq_compat ca Oa _ _ (f c) Eab).
    destruct (ca (f b) (f c)); auto. apply (cmp_eq_compat cb Ob); exact Hg.
Qed.

Lemma Ordering_N : Ordering N.compare.
Proof.
  constructor.
  - intros a b. apply N.compare_antisym.
  - intros a b c. rewrite !N.compare_lt_iff. apply N.lt_trans.
  - intros a b c H. apply N.compare_eq in H. subst. reflexivity.
Qed.

Lemma Ordering_ascii : Ordering Ascii.compare.
Proof.
  constructor.
  - intros a b. apply Ascii.compare_antisym.
  - intros a b c. apply (cmp_lt_trans _ Ordering_N).
  - intros a b c H. apply Ascii.compare_eq_iff in H. subst. reflexivity.
Qed.

Lemma Ordering_string : Ordering String.compare.
Proof.
  constructor.
  - intros a b. apply String.compare_antisym.
  - induction a as [|x a IH]; intros [|y b] [|z c]; simpl; try congruence.
    destruct (Ascii.compare x y) eqn:Exy; try discriminate.
    + apply Ascii.compare_eq_iff in Exy. subst y.
      destruct (Ascii.compare x z); auto. apply IH.
    + intros _. destruct (Ascii.compare y z) eqn:Eyz; try discriminate.
      * apply Ascii.compare_eq_iff in Eyz. subst z. rewrite Exy. reflexivity.
      * rewrite (cmp_lt_trans _ Ordering_ascii _ _ _ Exy Eyz). reflexivity.
  - intros a b c H. apply String.compare_eq_iff in H. subst. reflexivity.
Qed.

Lemma Ordering_identifier : Ordering semver.compareIdentifiers.
Proof.
  constructor.
  - intros [x|x] [y|y]; simpl; auto.
    + apply (cmp_antisym _ Ordering_N).
    + apply (cmp_antisym _ Ordering_string).
  - intros [x|x] [y|y] [z|z]; simpl; try congruence.
    + apply (cmp_lt_trans _ Ordering_N).
    + apply (cmp_lt_trans _ Ordering_string).
  - intros [x|x] [y|y] [z|z]; simpl; try congruence;
      first [ apply (cmp_eq_compat _ Ordering_N)
            | apply (cmp_eq_compat _ Ordering_string)
            | intros H; apply N.compare_eq in H; subst; reflexivity
            | intros H; apply String.compare_eq_iff in H; subst; reflexivity ].
Qed.

Lemma Ordering_compareIds : Ordering semver.compareIds.
Proof.
  pose proof Ordering_identifier as O.
  constructor.
  - induction a as [|x a IH]; intros [|y b]; simpl; auto.
    rewrite (cmp_antisym _ O x y).
    destruct (semver.compareIdentifiers x y); simpl; auto.
  - induction a as [|x a IH]; intros [|y b] [|z c]; simpl; try congruence.
    destruct (semver.compareIdentifiers x y) eqn:Exy; try discriminate.
    + rewrite (cmp_eq_compat _ O _ _ z Exy).
      destruct (semver.compareIdentifiers y z); auto. apply IH.
    + intros _. destruct (semver.compareIdentifiers y z) eqn:Eyz; try discriminate.
      * assert (Ezy : semver.compareIdentifiers z y = Eq)
          by (rewrite (cmp_antisym _ O y z), Eyz; reflexivity).
        pose proof (cmp_eq_compat _ O _ _ x Ezy) as Hc.
        rewrite (cmp_antisym _ O x z), (cmp_antisym _ O x y), Exy in Hc.
        simpl in Hc. destruct (semver.compareIdentifiers x z); simpl in Hc; congruence.
      * rewrite (cmp_lt_trans _ O _ _ _ Exy Eyz). reflexivity.
  - induction a as [|x a IH]; intros [|y b] [|z c]; simpl; try congruence.
    destruct (semver.compareIdentifiers x y) eqn:Exy; try discriminate.
    intros H. rewrite (cmp_eq_compat _ O _ _ z Exy).
    destruct (semver.compareIdentifiers y z); auto.
Qed.

Lemma Ordering_comparePreIds : Ordering comparePreIds.
Proof.
  pose proof Ordering_compareIds as O.
  constructor.
  - intros [|x a] [|y b]; try reflexivity.
    apply (cmp_antisym _ O (x :: a) (y :: b)).
  - intros [|x a] [|y b] [|z c]; try (simpl; congruence).
    apply (cmp_lt_trans _ O (x :: a) (y :: b) (z :: c)).
  - intros [|x a] [|y b] [|z c]; try (simpl; congruence).
    apply (cmp_eq_compat _ O (x :: a) (y :: b) (z :: c)).
Qed.

Lemma Ordering_compareSemVer : Ordering semver.compareSemVer.
Proof.
  pose proof (Ordering_lex semver.major
                (fun v => v)
                N.compare
                (fun a b =>
                   match N.compare (semver.minor a) (semver.minor b) with
                   | Eq =>
                       match N.compare (semver.patch a) (semver.patch b) with
                       | Eq => comparePreIds (semver.prerelease_ids a) (semver.prerelease_ids b)
                       | c => c
                       end
                   | c => c
                   end)
                Ordering_N
                (Ordering_lex semver.minor (fun v => v) N.compare _ Ordering_N
                   (Ordering_lex semver.patch semver.prerelease_ids N.compare _
                      Ordering_N Ordering_comparePreIds))) as O.
  assert (E : forall a b,
             semver.compareSemVer a b =
             match N.compare (semver.major a) (semver.major b) with
             | Eq =>
                 match N.compare (semver.minor a) (semver.minor b) with
                 | Eq =>
                     match N.compare (semver.patch a) (semver.patch b) with
                     | Eq => comparePreIds (semver.prerelease_ids a) (semver.prerelease_ids b)
                     | c => c
                     end
                 | c => c
                 end
             | c => c
             end).
  { intros a b. unfold semver.compareSemVer, semver.compareMain, semver.comparePre, comparePreIds.
    destruct (N.compare (semver.major a) (semver.major b)); auto.
    destruct (N.compare (semver.minor a) (semver.minor b)); auto.
    destruct (N.compare (semver.patch a) (semver.patch b)); auto.
    destruct (semver.prerelease_ids a), (semver.prerelease_ids b); reflexivity. }
  constructor.
  - intros a b. rewrite !E. apply (cmp_antisym _ O).
  - intros a b c. rewrite !E. apply (cmp_lt_trans _ O).
  - intros a b c. rewrite !E. apply (cmp_eq_compat _ O).
Qed.

(** ** Text *)

Lemma split_not_nil c s : Str.split c s <> [].
Proof.
  destruct s as [|a s]; simpl; [discriminate|].
  destruct (Ascii.eqb a c); [discriminate|].
  destruct (Str.split c s); discriminate.
Qed.

Lemma join_split c s : Str.join (String c EmptyString) (Str.split c s) = s.
Proof.
  induction s as [|a s IH]; simpl; [reflexivity|].
  destruct (Ascii.eqb a c) eqn:E.
  - apply Ascii.eqb_eq in E. subst a.
    destruct (Str.split c s) as [|p ps] eqn:Es; [exfalso; eapply split_not_nil; eauto|].
    simpl in *. rewrite IH. reflexivity.
  - destruct (Str.split c s) as [|p ps] eqn:Es; [exfalso; eapply split_not_nil; eauto|].
    simpl in *. destruct ps as [|q ps]; simpl; rewrite <- IH; reflexivity.
Qed.

Lemma split_length c s : List.length (Str.split c s) = S (count c s).
Proof.
  induction s as [|a s IH]; simpl; [reflexivity|].
  destruct (Ascii.eqb a c); simpl.
  - rewrite IH. reflexivity.
  - destruct (Str.split c s) as [|p ps] eqn:Es; [exfalso; eapply split_not_nil; eauto|].
    simpl in *. exact IH.
Qed.

Lemma count_trimStart c s : count c (Str.trimStart s) <= count c s.
Proof.
  induction s as [|a s IH]; simpl; [lia|].
  destruct (Str.is_space a); simpl; lia.
Qed.

Lemma count_trimEnd c s : count c (Str.trimEnd s) <= count c s.
Proof.
  induction s as [|a s IH]; simpl; [lia|].
  destruct (Str.trimEnd s) as [|b t] eqn:Et.
  - destruct (Str.is_space a); simpl in *; lia.
  - simpl in *. lia.
Qed.

Lemma count_strip_v c s : count c (semver.strip_v s) <= count c s.
Proof.
  destruct s as [|a s]; simpl; [lia|].
  destruct a as [[] [] [] [] [] [] [] []]; simpl; lia.
Qed.

Lemma count_cut c d s : count c (fst (Str.cut d s)) <= count c s.
Proof.
  induction s as [|a s IH]; simpl; [lia|].
  destruct (Ascii.eqb a d); simpl; [lia|].
  destruct (Str.cut d s) as [h t]; simpl in *. lia.
Qed.

(** A version has its two dots. *)
Lemma parse_dots v sv : semver.parse v = Some sv -> 2 <= count "." v.
Proof.
  unfold semver.parse.
  destruct (Nat.ltb semver.MAX_LENGTH (String.length v)); [discriminate|].
  destruct (Str.cut "+" (semver.strip_v (Str.trim v))) as [body bld] eqn:Eb.
  destruct (Str.cut "-" body) as [main pre] eqn:Em.
  destruct (Str.split "." main) as [|a [|b [|c [|d l]]]] eqn:Es; try discriminate.
  intros _.
  pose proof (split_length "." main) as Hl. rewrite Es in Hl. simpl in Hl.
  pose proof (count_cut "." "-" body) as H1. rewrite Em in H1. simpl in H1.
  pose proof (count_cut "." "+" (semver.strip_v (Str.trim v))) as H2.
  rewrite Eb in H2. simpl in H2.
  pose proof (count_strip_v "." (Str.trim v)) as H3.
  pose proof (count_trimEnd "." (Str.trimStart v)) as H4.
  pose proof (count_trimStart "." v) as H5.
  unfold Str.trim in *. lia.
Qed.

(** [normalizeVersion] leaves a version as it is. *)
Lemma normalizeVersion_version v sv :
  semver.parse v = Some sv -> normalizeVersion v = v.
Proof.
  intros H. apply parse_dots in H. unfold normalizeVersion.
  pose proof (split_length "." v) as Hl.
  replace (3 - List.length (Str.split "." v)) with 0 by lia.
  simpl. rewrite app_nil_r. apply join_split.
Qed.

(** ** Sorting and filtering the versions *)

Lemma isVersion_parse v : isVersion v = true -> exists sv, semver.parse v = Some sv.
Proof.
  unfold isVersion. destruct (semver.parse v) as [sv|]; [eauto|discriminate].
Qed.

Lemma compare_versions a b :
  isVersion a = true -> isVersion b = true ->
  exists va vb, semver.parse a = Some va /\ semver.parse b = Some vb
                /\ semver.compare a b = Ok (semver.compareSemVer va vb).
Proof.
  intros Ha Hb.
  destruct (isVersion_parse a Ha) as [va Ea], (isVersion_parse b Hb) as [vb Eb].
  exists va, vb. unfold semver.compare. rewrite Ea, Eb. auto.
Qed.

Lemma versionLe_trans a b c :
  versionLe a b -> versionLe b c -> versionLe a c.
Proof.
  intros [x [Hx Nx]] [y [Hy Ny]]. unfold versionLe, semver.compare in *.
  destruct (semver.parse a) as [va|]; [|discriminate].
  destruct (semver.parse b) as [vb|]; [|discriminate].
  destruct (semver.parse c) as [vc|]; [|discriminate].
  injection Hx as <-. injection Hy as <-.
  eexists; split; [reflexivity|].
  eapply (Ordering_le_trans _ Ordering_compareSemVer); eauto.
Qed.

Lemma versionLe_of_Gt a b : semver.compare a b = Ok Gt -> versionLe b a.
Proof.
  unfold versionLe, semver.compare.
  destruct (semver.parse a) as [va|]; [|discriminate].
  destruct (semver.parse b) as [vb|]; [|discriminate].
  intros H. injection H as H.
  eexists; split; [reflexivity|].
  rewrite (cmp_antisym _ Ordering_compareSemVer va vb), H. discriminate.
Qed.

Lemma insertVersion_sorted v sorted :
  isVersion v = true -> Forall (fun x => isVersion x = true) sorted ->
  StronglySorted versionLe sorted ->
  exists r, insertVersion v sorted = Ok r /\ Permutation r (v :: sorted)
            /\ StronglySorted versionLe r.
Proof.
  intros Hv. induction sorted as [|x rest IH]; intros Hall Hs.
  - exists [v]. simpl. repeat split; auto. repeat constructor.
  - inversion Hall as [|? ? Hx Hrest]; subst.
    apply StronglySorted_inv in Hs. destruct Hs as [Hs Hle].
    destruct (compare_versions v x Hv Hx) as [vv [vx [Ev [Ex Ec]]]].
    simpl. rewrite Ec. simpl.
    destruct (semver.compareSemVer vv vx) eqn:Ecmp.
    + exists (v :: x :: rest). repeat split; auto.
      constructor; [constructor; auto|].
      assert (Hvx : versionLe v x) by (exists Eq; split; [congruence|discriminate]).
      constructor; [exact Hvx|].
      eapply Forall_impl; [|exact Hle]. intros y Hy. eapply versionLe_trans; eauto.
    + exists (v :: x :: rest). repeat split; auto.
      constructor; [constructor; auto|].
      assert (Hvx : versionLe v x) by (exists Lt; split; [congruence|discriminate]).
      constructor; [exact Hvx|].
      eapply Forall_impl; [|exact Hle]. intros y Hy. eapply versionLe_trans; eauto.
    + destruct (IH Hrest Hs) as [r [Er [Hp Hsr]]]. rewrite Er. simpl.
      exists (x :: r). split; [reflexivity|]. split.
      * rewrite Hp. apply perm_swap.
      * constructor; [exact Hsr|].
        eapply Permutation_Forall; [symmetry; exact Hp|].
        constructor; [|exact Hle].
        apply versionLe_of_Gt. congruence.
Qed.

Lemma sortVersions_sorted vs :
  Forall (fun x => isVersion x = true) vs ->
  exists r, sortVersions vs = Ok r /\ Permutation r vs /\ StronglySorted versionLe r.
Proof.
  induction vs as [|v rest IH]; intros Hall.
  - exists []. simpl. repeat split; auto. constructor.
  - inversion Hall as [|? ? Hv Hrest]; subst.
    destruct (IH Hrest) as [r [Er [Hp Hs]]].
    simpl. rewrite Er. simpl.
    assert (Hr : Forall (fun x => isVersion x = true) r)
      by (eapply Permutation_Forall; [symmetry; exact Hp|exact Hrest]).
    destruct (insertVersion_sorted v r Hv Hr Hs) as [r' [Er' [Hp' Hs']]].
    exists r'. repeat split; auto. rewrite Hp'. constructor. exact Hp.
Qed.

Lemma filterR_filter (pred : string -> result bool) vs :
  Forall (fun v => exists b, pred v = Ok b) vs ->
  filterR pred vs
  = Ok (filter (fun v => match pred v with Ok b => b | Throw _ => false end) vs).
Proof.
  induction vs as [|v rest IH]; intros Hall; [reflexivity|].
  inversion Hall as [|? ? [b Hb] Hrest]; subst.
  simpl. rewrite Hb, (IH Hrest). simpl. destruct b; reflexivity.
Qed.

Lemma atLeast_defined floor v :
  floorOk floor = true -> isVersion v = true -> exists b, atLeast floor v = Ok b.
Proof.
  unfold floorOk, atLeast. intros Hf Hv.
  destruct (negb (truthy floor)); [eauto|]. simpl in Hf.
  destruct (isVersion_parse v Hv) as [sv Ev].
  rewrite (normalizeVersion_version v sv Ev).
  destruct (compare_versions v _ Hv Hf) as [va [vb [_ [_ Ec]]]].
  unfold semver.gte. rewrite Ec. simpl. eauto.
Qed.

Lemma StronglySorted_filter {A : Type} (R : A -> A -> Prop) (p : A -> bool) l :
  StronglySorted R l -> StronglySorted R (filter p l).
Proof.
  induction 1 as [|a l Hs IH Hall]; simpl; [constructor|].
  destruct (p a); [|exact IH].
  constructor; [exact IH|].
  apply Forall_forall. intros x Hx. apply filter_In in Hx.
  rewrite Forall_forall in Hall. apply Hall. tauto.
Qed.

Lemma Permutation_filter {A : Type} (p : A -> bool) l l' :
  Permutation l l' -> Permutation (filter p l) (filter p l').
Proof.
  induction 1 as [|x l l' Hp IH|x y l|l l' l'' H1 IH1 H2 IH2]; simpl.
  - constructor.
  - destruct (p x); [constructor|]; exact IH.
  - destruct (p x), (p y); try reflexivity. apply perm_swap.
  - etransitivity; eauto.
Qed.

Lemma Permutation_partition {A : Type} (p : A -> bool) l :
  Permutation (filter (fun x => negb (p x)) l ++ filter p l) l.
Proof.
  induction l as [|x l IH]; simpl; [constructor|].
  destruct (p x); simpl.
  - rewrite <- Permutation_middle. constructor. exact IH.
  - constructor. exact IH.
Qed.

Lemma forallb_isVersion vs :
  forallb isVersion vs = true -> Forall (fun x => isVersion x = true) vs.
Proof. intros H. apply Forall_forall. apply forallb_forall. exact H. Qed.

Lemma isPrerelease_partition filtered :
  candidates (versionGroups filtered)
  = filter (fun v => negb (isPrerelease v)) filtered ++ filter isPrerelease filtered.
Proof. unfold candidates, versionGroups. simpl. rewrite app_nil_r. reflexivity. Qed.

(** C3 (as amended).  When the keys of the parent's metadata are versions and
    the floor is absent or a version once normalized, the candidates are
    exactly the versions that pass the floor filter, the stable ones in
    ascending order followed by the pre-release ones in ascending order; for
    the versions 1.0.0, 1.0.0-beta.1, 0.9.0, 2.0.0 and the floor 1.0.0 they
    are 1.0.0 then 2.0.0, the pre-release 1.0.0-beta.1 coming before 1.0.0
    and so below the floor. *)
Theorem candidates_ordered (versions : list string) (parentMinVersion : string) :
  forallb isVersion versions = true ->
  floorOk parentMinVersion = true ->
  exists stable prerelease,
    orderCandidates versions parentMinVersion = Ok (stable ++ prerelease)
    /\ Permutation (stable ++ prerelease)
         (filter (meetsFloor parentMinVersion) versions)
    /\ Forall (fun v => isPrerelease v = false) stable
    /\ Forall (fun v => isPrerelease v = true) prerelease
    /\ StronglySorted versionLe stable
    /\ StronglySorted versionLe prerelease
    /\ orderCandidates ["1.0.0"; "1.0.0-beta.1"; "0.9.0"; "2.0.0"] "1.0.0"
       = Ok ["1.0.0"; "2.0.0"].
Proof.
  intros Hvs Hfloor. apply forallb_isVersion in Hvs.
  destruct (sortVersions_sorted versions Hvs) as [sorted [Es [Hp Hs]]].
  assert (Hsv : Forall (fun x => isVersion x = true) sorted)
    by (eapply Permutation_Forall; [symmetry; exact Hp|exact Hvs]).
  assert (Ef : filterR (atLeast parentMinVersion) sorted
               = Ok (filter (meetsFloor parentMinVersion) sorted)).
  { apply filterR_filter. eapply Forall_impl; [|exact Hsv].
    intros v Hv. apply atLeast_defined; assumption. }
  set (filtered := filter (meetsFloor parentMinVersion) sorted) in Ef |- *.
  exists (filter (fun v => negb (isPrerelease v)) filtered), (filter isPrerelease filtered).
  assert (Hsf : StronglySorted versionLe filtered)
    by (apply StronglySorted_filter; exact Hs).
  repeat split.
  - unfold orderCandidates. rewrite Es. simpl. rewrite Ef. simpl.
    rewrite isPrerelease_partition. reflexivity.
  - rewrite Permutation_partition. apply Permutation_filter. exact Hp.
  - apply Forall_forall. intros v Hv. apply filter_In in Hv.
    destruct Hv as [_ Hv]. destruct (isPrerelease v); [discriminate|reflexivity].
  - apply Forall_forall. intros v Hv. apply filter_In in Hv. tauto.
  - apply StronglySorted_filter. exact Hsf.
  - apply StronglySorted_filter. exact Hsf.
Qed.

(** ** The evaluator *)

Lemma checkLines_no_minimum childPackage normalizedMinVersion dependencyLines acc :
  checkLines childPackage "" normalizedMinVersion dependencyLines acc = Ok acc.
Proof.
  induction dependencyLines as [|line rest IH]; simpl; [reflexivity|].
  destruct (Re.exec childPackage line); exact IH.
Qed.

Lemma analyzeVersionRequirements_no_minimum dependencyLines childPackage :
  analyzeVersionRequirements dependencyLines childPackage ""
  = Ok (mkVersionAnalysis true []).
Proof. unfold analyzeVersionRequirements. apply checkLines_no_minimum. Qed.

Lemma evaluate_no_occurrence parentVersion childPackage childMinVersion packageRemoved t :
  matches t = [] ->
  exists msg details,
    evaluate parentVersion childPackage childMinVersion packageRemoved t
    = Ok (mkAnalysis packageRemoved msg details).
Proof.
  intros H. unfold evaluate. rewrite H. cbn [map List.length Nat.eqb].
  destruct packageRemoved; eauto.
Qed.

Lemma evaluate_removal_only parentVersion childPackage t :
  matches t <> [] ->
  exists msg,
    evaluate parentVersion childPackage "" true t
    = Ok (mkAnalysis false msg (map pathString (matches t))).
Proof.
  intros H. unfold evaluate.
  destruct (matches t) as [|m ms]; [congruence|].
  cbn [map List.length Nat.eqb].
  change (truthy "") with false. cbv iota. eauto.
Qed.

Lemma evaluate_no_minimum parentVersion childPackage t :
  matches t <> [] ->
  exists msg,
    evaluate parentVersion childPackage "" false t
    = Ok (mkAnalysis true msg (map pathString (matches t))).
Proof.
  intros H. unfold evaluate.
  destruct (matches t) as [|m ms]; [congruence|].
  cbn [map List.length Nat.eqb].
  rewrite analyzeVersionRequirements_no_minimum. simpl. eauto.
Qed.

Lemma checkLines_spec childPackage minVersion normalizedMinVersion dependencyLines acc :
  truthy minVersion = true ->
  Forall (lineComparable childPackage normalizedMinVersion) dependencyLines ->
  checkLines childPackage minVersion normalizedMinVersion dependencyLines acc
  = Ok (mkVersionAnalysis
          (allValid acc && forallb (lineValid childPackage normalizedMinVersion) dependencyLines)
          (invalidVersions acc
           ++ filter (fun line => negb (lineValid childPackage normalizedMinVersion line))
                dependencyLines)).
Proof.
  intros Hm. revert acc.
  induction dependencyLines as [|line rest IH]; intros acc Hc.
  - simpl. rewrite andb_true_r, app_nil_r. destruct acc; reflexivity.
  - inversion Hc as [|? ? Hl Hrest]; subst.
    unfold lineComparable in Hl. cbn [checkLines forallb filter]. unfold lineValid at 1 3.
    destruct (Re.exec childPackage line) as [depVersion|].
    + destruct Hl as [older Hl]. rewrite Hm, Hl. cbn [bind].
      destruct older; cbn [negb andb]; rewrite (IH _ Hrest); cbn [allValid invalidVersions].
      * rewrite andb_false_r, <- app_assoc. reflexivity.
      * reflexivity.
    + rewrite (IH _ Hrest). reflexivity.
Qed.

(** What the evaluator decides in min-version mode, and with removal accepted
    as well, once the target occurs: all lines are valid. *)
Lemma evaluate_minimum parentVersion childPackage childMinVersion packageRemoved t :
  truthy childMinVersion = true ->
  matches t <> [] ->
  Forall (lineComparable childPackage (normalizeVersion childMinVersion))
    (map pathString (matches t)) ->
  exists msg details,
    evaluate parentVersion childPackage childMinVersion packageRemoved t
    = Ok (mkAnalysis
            (forallb (lineValid childPackage (normalizeVersion childMinVersion))
               (map pathString (matches t)))
            msg details).
Proof.
  intros Hm Hne Hc. unfold evaluate, analyzeVersionRequirements.
  destruct (matches t) as [|m ms] eqn:Em; [congruence|].
  set (lines := map pathString (m :: ms)) in *.
  replace (List.length lines =? 0)%nat with false by reflexivity.
  rewrite Hm, (checkLines_spec _ _ _ _ _ Hm Hc). cbn [bind allValid andb].
  destruct packageRemoved;
    destruct (forallb (lineValid childPackage (normalizeVersion childMinVersion)) lines);
    eauto.
Qed.

(** ** The engine over any registry and range grammar *)

Section EngineFacts.

Variable fetch : string -> result Response.
Variable rangeSatisfied : string -> bool -> semver.SemVer -> bool.

(** *** The loop over the candidates *)

Lemma allFail_app params l1 l2 w :
  allFail fetch rangeSatisfied params (l1 ++ l2) w
  = match allFail fetch rangeSatisfied params l1 w with
    | Some w1 => allFail fetch rangeSatisfied params l2 w1
    | None => None
    end.
Proof.
  revert w. induction l1 as [|v l1 IH]; intros w; simpl; [reflexivity|].
  destruct (analyze fetch rangeSatisfied params v w) as [w1 [a|e]]; [|reflexivity].
  destruct (a_success a); [reflexivity|apply IH].
Qed.

Lemma tryVersions_step params groupType v rest w :
  tryVersions fetch rangeSatisfied params groupType (v :: rest) w
  = match analyze fetch rangeSatisfied params v w with
    | (w1, Ok a) =>
        if a_success a then (w1, Ok (Some (winner groupType v a)))
        else tryVersions fetch rangeSatisfied params groupType rest w1
    | (w1, Throw e) => (w1, Throw e)
    end.
Proof.
  unfold analyze. simpl. unfold bindM at 1.
  destruct (analyzePackageDependencies fetch rangeSatisfied _ _ _ _ w) as [w1 [a|e]];
    [|reflexivity].
  destruct (a_success a); reflexivity.
Qed.

Lemma tryVersions_allFail params groupType vs w w1 :
  allFail fetch rangeSatisfied params vs w = Some w1 ->
  tryVersions fetch rangeSatisfied params groupType vs w = (w1, Ok None).
Proof.
  revert w. induction vs as [|v rest IH]; intros w H.
  - simpl in H. injection H as <-. reflexivity.
  - rewrite tryVersions_step. simpl in H.
    destruct (analyze fetch rangeSatisfied params v w) as [w' [a|e]]; [|discriminate].
    destruct (a_success a); [discriminate|]. apply IH. exact H.
Qed.

Lemma tryVersions_hit params groupType pre v post w w1 w2 a :
  allFail fetch rangeSatisfied params pre w = Some w1 ->
  analyze fetch rangeSatisfied params v w1 = (w2, Ok a) ->
  a_success a = true ->
  tryVersions fetch rangeSatisfied params groupType (pre ++ v :: post) w
  = (w2, Ok (Some (winner groupType v a))).
Proof.
  revert w. induction pre as [|x pre IH]; intros w Hpre Hv Ha.
  - simpl in Hpre. injection Hpre as <-. simpl app.
    rewrite tryVersions_step, Hv, Ha. reflexivity.
  - simpl app. rewrite tryVersions_step. simpl in Hpre.
    destruct (analyze fetch rangeSatisfied params x w) as [w' [b|e]]; [|discriminate].
    destruct (a_success b); [discriminate|]. apply IH; assumption.
Qed.

Lemma tryVersions_inv params groupType vs w w2 found :
  tryVersions fetch rangeSatisfied params groupType vs w = (w2, Ok found) ->
  match found with
  | None => allFail fetch rangeSatisfied params vs w = Some w2
  | Some r =>
      exists pre v post w1 a,
        vs = pre ++ v :: post
        /\ allFail fetch rangeSatisfied params pre w = Some w1
        /\ analyze fetch rangeSatisfied params v w1 = (w2, Ok a)
        /\ a_success a = true
        /\ r = winner groupType v a
  end.
Proof.
  revert w. induction vs as [|x rest IH]; intros w H.
  - simpl in H. unfold ret in H. injection H as <- <-. reflexivity.
  - rewrite tryVersions_step in H.
    destruct (analyze fetch rangeSatisfied params x w) as [w' [b|e]] eqn:Ex; [|discriminate].
    destruct (a_success b) eqn:Eb.
    + injection H as <- <-.
      exists [], x, rest, w, b. repeat split; auto.
    + specialize (IH w' H). destruct found as [r|].
      * destruct IH as [pre [v [post [w1 [a [E1 [E2 [E3 [E4 E5]]]]]]]]].
        exists (x :: pre), v, post, w1, a. subst rest. repeat split; auto.
        simpl. rewrite Ex, Eb. exact E2.
      * simpl. rewrite Ex, Eb. exact IH.
Qed.

Lemma tryGroups_step params vs groupType rest w :
  tryGroups fetch rangeSatisfied params ((vs, groupType) :: rest) w
  = match tryVersions fetch rangeSatisfied params groupType vs w with
    | (w1, Ok (Some r)) => (w1, Ok r)
    | (w1, Ok None) => tryGroups fetch rangeSatisfied params rest w1
    | (w1, Throw e) => (w1, Throw e)
    end.
Proof.
  simpl. destruct vs as [|v vs']; [reflexivity|].
  cbn [List.length Nat.eqb]. unfold bindM at 1.
  destruct (tryVersions fetch rangeSatisfied params groupType (v :: vs') w) as [w1 [[r | ] | e]];
    reflexivity.
Qed.

(** The first candidate whose analysis succeeds wins, whatever comes after
    it. *)
Lemma tryGroups_first_success params groups pre v post w w1 w2 a :
  candidates groups = pre ++ v :: post ->
  allFail fetch rangeSatisfied params pre w = Some w1 ->
  analyze fetch rangeSatisfied params v w1 = (w2, Ok a) ->
  a_success a = true ->
  exists msg,
    tryGroups fetch rangeSatisfied params groups w
    = (w2, Ok (mkSearchResult true (Some v) msg (a_details a))).
Proof.
  revert pre w. induction groups as [|[vs groupType] rest IH]; intros pre w Hc Hpre Hv Ha.
  - destruct pre; discriminate.
  - unfold candidates in Hc. simpl in Hc. fold (candidates rest) in Hc.
    rewrite tryGroups_step.
    apply app_eq_app in Hc. destruct Hc as [l [[E1 E2]|[E1 E2]]].
    + destruct l as [|x l].
      * rewrite app_nil_r in E1. subst vs. simpl in E2.
        rewrite (tryVersions_allFail _ _ _ _ _ Hpre).
        apply (IH [] w1); auto.
      * simpl in E2. injection E2 as <- E2. subst vs.
        rewrite (tryVersions_hit _ _ _ _ _ _ _ _ _ Hpre Hv Ha).
        eexists. reflexivity.
    + subst pre. rewrite allFail_app in Hpre.
      destruct (allFail fetch rangeSatisfied params vs w) as [w'|] eqn:Evs; [|discriminate].
      rewrite (tryVersions_allFail _ _ _ _ _ Evs).
      apply (IH l w'); auto.
Qed.

Lemma tryGroups_inv params groups w w2 r :
  tryGroups fetch rangeSatisfied params groups w = (w2, Ok r) ->
  (success r = true /\
   exists pre v post w1 a,
     candidates groups = pre ++ v :: post
     /\ allFail fetch rangeSatisfied params pre w = Some w1
     /\ analyze fetch rangeSatisfied params v w1 = (w2, Ok a)
     /\ a_success a = true
     /\ version r = Some v /\ details r = a_details a)
  \/ (r = noCompatible /\ allFail fetch rangeSatisfied params (candidates groups) w = Some w2).
Proof.
  revert w. induction groups as [|[vs groupType] rest IH]; intros w H.
  - simpl in H. unfold ret in H. injection H as <- <-. right. split; reflexivity.
  - rewrite tryGroups_step in H.
    destruct (tryVersions fetch rangeSatisfied params groupType vs w) as [w' [found|e]] eqn:Ev;
      [|discriminate].
    pose proof (tryVersions_inv _ _ _ _ _ _ Ev) as Hinv.
    unfold candidates. simpl. fold (candidates rest).
    destruct found as [r'|].
    + injection H as <- <-.
      destruct Hinv as [pre [v [post [w1 [a [E1 [E2 [E3 [E4 E5]]]]]]]]].
      left. subst r'. split; [reflexivity|].
      exists pre, v, (post ++ candidates rest), w1, a. subst vs.
      rewrite <- app_assoc. repeat split; auto.
    + destruct (IH w' H) as [[Hs [pre [v [post [w1 [a [E1 [E2 [E3 [E4 E5]]]]]]]]]] | [E1 E2]].
      * left. split; [exact Hs|].
        exists (vs ++ pre), v, post, w1, a. rewrite E1, app_assoc.
        repeat split; try tauto. rewrite allFail_app, Hinv. exact E2.
      * right. split; [exact E1|]. rewrite allFail_app, Hinv. exact E2.
Qed.

(** *** From [findCompatibleVersion] to the loop *)

Lemma filterR_nil_inv pred vs filtered :
  filterR pred vs = Ok filtered -> filtered <> [] -> vs <> [].
Proof. intros H Hf E. subst vs. simpl in H. congruence. Qed.

Lemma search_tryGroups params w w0 versions filtered :
  getPackageVersions fetch (parentPackage params) w = (w0, Ok versions) ->
  filterR (atLeast (parentMinVersion params)) versions = Ok filtered ->
  filtered <> [] ->
  search fetch rangeSatisfied params w
  = tryGroups fetch rangeSatisfied params (versionGroups filtered) w0.
Proof.
  intros Hg Hf Hne. unfold search. unfold bindM at 1. rewrite Hg.
  pose proof (filterR_nil_inv _ _ _ Hf Hne) as Hv.
  destruct versions as [|x xs]; [congruence|]. cbn [List.length Nat.eqb].
  unfold bindM at 1. unfold lift. rewrite Hf.
  destruct filtered as [|y ys]; [congruence|]. reflexivity.
Qed.

Lemma findCompatibleVersion_first_success params w w0 versions filtered pre v post w1 w2 a :
  getPackageVersions fetch (parentPackage params) w = (w0, Ok versions) ->
  filterR (atLeast (parentMinVersion params)) versions = Ok filtered ->
  candidates (versionGroups filtered) = pre ++ v :: post ->
  allFail fetch rangeSatisfied params pre w0 = Some w1 ->
  analyze fetch rangeSatisfied params v w1 = (w2, Ok a) ->
  a_success a = true ->
  exists msg,
    findCompatibleVersion fetch rangeSatisfied params w
    = (w2, mkSearchResult true (Some v) msg (a_details a)).
Proof.
  intros Hg Hf Hc Hpre Hv Ha.
  assert (Hne : filtered <> []).
  { intros E. subst filtered. destruct pre; discriminate. }
  destruct (tryGroups_first_success _ _ _ _ _ _ _ _ _ Hc Hpre Hv Ha) as [msg Ht].
  exists msg. unfold findCompatibleVersion.
  rewrite (search_tryGroups _ _ _ _ _ Hg Hf Hne), Ht. reflexivity.
Qed.

(** The candidates of [orderCandidates] are those the loop runs over. *)
Lemma search_runs_candidates params w w0 meta cands :
  fetchPackageMetadata fetch (parentPackage params) w = (w0, Ok meta) ->
  orderCandidates (Obj.keys (versions meta)) (parentMinVersion params) = Ok cands ->
  cands <> [] ->
  exists groups,
    candidates groups = cands
    /\ search fetch rangeSatisfied params w = tryGroups fetch rangeSatisfied params groups w0.
Proof.
  intros Hf Ho Hne. unfold orderCandidates in Ho.
  destruct (sortVersions (Obj.keys (versions meta))) as [sorted|e] eqn:Es; [|discriminate].
  cbn [bind] in Ho.
  destruct (filterR (atLeast (parentMinVersion params)) sorted) as [filtered|e] eqn:Ef;
    [|discriminate].
  cbn [bind] in Ho. injection Ho as Ho.
  exists (versionGroups filtered). split; [exact Ho|].
  apply (search_tryGroups params w w0 sorted filtered).
  - unfold getPackageVersions, bindM, lift. rewrite Hf, Es. reflexivity.
  - exact Ef.
  - intros E. subst filtered. apply Hne. rewrite <- Ho. reflexivity.
Qed.

(** C7.  The candidates are analysed in their order, each from the world the
    one before it left; when the candidates before [v] have all failed and the
    analysis of [v] succeeds, [findCompatibleVersion] returns the success for
    [v] in the world that analysis left, whatever candidates come after [v]:
    none of them is traversed or evaluated.  (The target name is one the
    pattern of the evaluator reads literally.) *)
Theorem first_success_wins params w w0 versions filtered pre v post w1 w2 a :
  Re.regex_plain (childPackage params) = true ->
  getPackageVersions fetch (parentPackage params) w = (w0, Ok versions) ->
  filterR (atLeast (parentMinVersion params)) versions = Ok filtered ->
  candidates (versionGroups filtered) = pre ++ v :: post ->
  allFail fetch rangeSatisfied params pre w0 = Some w1 ->
  analyze fetch rangeSatisfied params v w1 = (w2, Ok a) ->
  a_success a = true ->
  (exists msg,
     findCompatibleVersion fetch rangeSatisfied params w
     = (w2, mkSearchResult true (Some v) msg (a_details a)))
  /\ (forall groups' post',
        candidates groups' = pre ++ v :: post' ->
        exists msg,
          tryGroups fetch rangeSatisfied params groups' w0
          = (w2, Ok (mkSearchResult true (Some v) msg (a_details a)))).
Proof.
  intros _ Hg Hf Hc Hpre Hv Ha. split.
  - eapply findCompatibleVersion_first_success; eauto.
  - intros groups' post' Hc'. eapply tryGroups_first_success; eauto.
Qed.

(** *** Analysis through the traversal *)

Lemma analyze_traversalAt params v w w1 t :
  traversalAt fetch rangeSatisfied params v w = Some (w1, t) ->
  exists parentVersion,
    analyze fetch rangeSatisfied params v w
    = (w1, evaluate parentVersion (childPackage params) (childMinVersion params)
             (packageRemoved params) t).
Proof.
  unfold traversalAt, analyze, analyzePackageDependencies.
  unfold bindM at 1. unfold lift at 1.
  destruct (splitNameAndVersion (parentPackage params ++ "@" ++ v)) as [[n pv]|e];
    [|discriminate].
  intros H. injection H as H. exists pv. unfold bindM, lift. rewrite H. reflexivity.
Qed.

Lemma noTarget_allFail params vs w w1 :
  packageRemoved params = false ->
  noTarget fetch rangeSatisfied params vs w = Some w1 ->
  allFail fetch rangeSatisfied params vs w = Some w1.
Proof.
  intros Hr. revert w. induction vs as [|v rest IH]; intros w H; [exact H|].
  simpl in *.
  destruct (traversalAt fetch rangeSatisfied params v w) as [[w' t]|] eqn:Et; [|discriminate].
  destruct (analyze_traversalAt _ _ _ _ _ Et) as [pv Ea]. rewrite Ea.
  destruct (matches t) as [|m ms] eqn:Em; [|discriminate].
  destruct (evaluate_no_occurrence pv (childPackage params) (childMinVersion params)
              (packageRemoved params) t Em) as [msg [ds Ee]].
  rewrite Ee, Hr. simpl. apply IH. exact H.
Qed.

(** C10.  With [packageRemoved] false and an empty [childMinVersion] the
    comparison of versions is skipped, every line counting as valid; the
    search then succeeds with the first candidate, in order, whose traversal
    finds the target at all, and its details are the paths found.  (The
    target name is one the pattern of the evaluator reads literally.) *)
Theorem no_minimum_accepts_any_version
    params w w0 versions filtered pre v post w1 w2 t :
  Re.regex_plain (childPackage params) = true ->
  packageRemoved params = false ->
  childMinVersion params = "" ->
  getPackageVersions fetch (parentPackage params) w = (w0, Ok versions) ->
  filterR (atLeast (parentMinVersion params)) versions = Ok filtered ->
  candidates (versionGroups filtered) = pre ++ v :: post ->
  noTarget fetch rangeSatisfied params pre w0 = Some w1 ->
  traversalAt fetch rangeSatisfied params v w1 = Some (w2, t) ->
  matches t <> [] ->
  (forall dependencyLines,
     analyzeVersionRequirements dependencyLines (childPackage params) ""
     = Ok (mkVersionAnalysis true []))
  /\ exists msg,
       findCompatibleVersion fetch rangeSatisfied params w
       = (w2, mkSearchResult true (Some v) msg (map pathString (matches t))).
Proof.
  intros _ Hr Hm Hg Hf Hc Hpre Ht Hne. split.
  - intros. apply analyzeVersionRequirements_no_minimum.
  - destruct (analyze_traversalAt _ _ _ _ _ Ht) as [pv Ea].
    rewrite Hr, Hm in Ea.
    destruct (evaluate_no_minimum pv (childPackage params) t Hne) as [msg Ee].
    rewrite Ee in Ea.
    destruct (findCompatibleVersion_first_success params w w0 versions filtered
                pre v post w1 w2 _ Hg Hf Hc
                (noTarget_allFail _ _ _ _ Hr Hpre) Ea eq_refl) as [msg' E].
    exists msg'. exact E.
Qed.

(** *** The route and the catch *)

(** C5 (as amended).  The params are validated by the route, before it calls
    [findCompatibleVersion]: when the parent or the child package name is
    missing, or [packageRemoved] is false and [childMinVersion] is empty, the
    route answers with status 400 and leaves the world as it was, no request
    having gone to the registry and no traversal having run; otherwise it
    answers with the result of [findCompatibleVersion], which validates
    nothing itself. *)
Theorem route_validates (body : SearchParams) (w : World) :
  (invalidParams body = true ->
   exists e, POST fetch rangeSatisfied body w = (w, JsonError 400 e))
  /\ (invalidParams body = false ->
      POST fetch rangeSatisfied body w
      = (fst (findCompatibleVersion fetch rangeSatisfied body w),
         Json 200 (snd (findCompatibleVersion fetch rangeSatisfied body w)))).
Proof.
  unfold invalidParams, POST. split; intros H.
  - destruct (negb (truthy (parentPackage body)) || negb (truthy (childPackage body)));
      [eauto|].
    simpl in H. rewrite H. eauto.
  - apply orb_false_iff in H. destruct H as [H1 H2]. rewrite H1, H2.
    destruct (findCompatibleVersion fetch rangeSatisfied body w). reflexivity.
Qed.

(** *** The traversal loop *)

Lemma traverse_nil fuel targetName visited matches w :
  traverse fetch rangeSatisfied fuel targetName visited matches w []
  = (w, Some (mkTraversal matches (StrSet.size visited) false)).
Proof. destruct fuel; reflexivity. Qed.

Lemma traverse_cons fuel targetName visited matches w node rest :
  traverse fetch rangeSatisfied fuel targetName visited matches w (node :: rest)
  = if StrSet.has (keyOf node) visited then
      traverse fetch rangeSatisfied fuel targetName visited matches w rest
    else if (maxNodes <? StrSet.size (StrSet.add (keyOf node) visited))%nat then
      (w, Some (mkTraversal matches (StrSet.size (StrSet.add (keyOf node) visited)) true))
    else
      match fuel with
      | 0 => (w, None)
      | S fuel' =>
          let '(w1, (matches', queue')) :=
            visit fetch rangeSatisfied targetName node matches rest w in
          traverse fetch rangeSatisfied fuel' targetName
            (StrSet.add (keyOf node) visited) matches' w1 queue'
      end.
Proof. destruct fuel; reflexivity. Qed.

Lemma add_fresh key visited :
  StrSet.has key visited = false ->
  StrSet.add key visited = visited ++ [key]
  /\ StrSet.size (StrSet.add key visited) = S (StrSet.size visited).
Proof.
  intros H. unfold StrSet.add, StrSet.size. rewrite H. split; [reflexivity|].
  rewrite length_app. simpl. lia.
Qed.

(** [maxNodes] units of fuel see the loop to its end. *)
Lemma traverse_total fuel targetName visited matches w queue :
  maxNodes <= fuel + StrSet.size visited ->
  exists w' r,
    traverse fetch rangeSatisfied fuel targetName visited matches w queue = (w', Some r).
Proof.
  revert visited matches w queue.
  induction fuel as [|fuel IH]; intros visited matches w queue Hf;
    induction queue as [|node rest IHq].
  - rewrite traverse_nil. eauto.
  - rewrite traverse_cons.
    destruct (StrSet.has (keyOf node) visited) eqn:Eh; [exact IHq|].
    destruct (add_fresh _ _ Eh) as [_ Hs]. rewrite Hs.
    destruct (maxNodes <? S (StrSet.size visited))%nat eqn:El; [eauto|].
    apply Nat.ltb_ge in El. exfalso. lia.
  - rewrite traverse_nil. eauto.
  - rewrite traverse_cons.
    destruct (StrSet.has (keyOf node) visited) eqn:Eh; [exact IHq|].
    destruct (add_fresh _ _ Eh) as [_ Hs]. rewrite Hs.
    destruct (maxNodes <? S (StrSet.size visited))%nat eqn:El; [eauto|].
    destruct (visit fetch rangeSatisfied targetName node matches rest w)
      as [w1 [matches' queue']].
    apply IH. rewrite Hs. lia.
Qed.

Lemma findChildOccurrencesInTree_traverse rootName rootVersion targetName w :
  exists r,
    traverse fetch rangeSatisfied maxNodes targetName [] [] w
      [mkNode rootName rootVersion [(rootName ++ "@" ++ rootVersion)%string]]
    = (fst (findChildOccurrencesInTree fetch rangeSatisfied rootName rootVersion targetName w),
       Some r)
    /\ snd (findChildOccurrencesInTree fetch rangeSatisfied rootName rootVersion targetName w)
       = r.
Proof.
  unfold findChildOccurrencesInTree.
  destruct (traverse_total maxNodes targetName [] [] w
              [mkNode rootName rootVersion [(rootName ++ "@" ++ rootVersion)%string]])
    as [w' [r E]]; [apply Nat.le_add_r|].
  rewrite E. exists r. split; reflexivity.
Qed.

(** *** Failures of the registry *)

Lemma search_fetch_failure params w w1 e :
  fetchPackageMetadata fetch (parentPackage params) w = (w1, Throw e) ->
  search fetch rangeSatisfied params w = (w1, Throw e).
Proof.
  intros H. unfold search, getPackageVersions. unfold bindM. rewrite H. reflexivity.
Qed.

Lemma visit_fetch_failure targetName node matches queue w w1 e :
  String.eqb (q_name node) targetName = false ->
  fetchPackageMetadata fetch (q_name node) w = (w1, Throw e) ->
  visit fetch rangeSatisfied targetName node matches queue w = (w1, (matches, queue)).
Proof. intros Hn Hf. unfold visit. rewrite Hn, Hf. reflexivity. Qed.

Lemma resolveVersion_fetch_failure name range w w1 e :
  Obj.get (name ++ "@" ++ range)%string (versionResolutionCache w) = None ->
  fetchPackageMetadata fetch name w = (w1, Throw e) ->
  resolveVersion fetch rangeSatisfied name range w
  = (setResolution (name ++ "@" ++ range)%string None w1, None).
Proof. intros Hc Hf. unfold resolveVersion. rewrite Hc, Hf. reflexivity. Qed.

(** C9.  [findCompatibleVersion] returns a [SearchResult] for every input:
    whatever is thrown in the search, the failure to fetch the version list of
    the parent included, is caught and comes back as a failure result whose
    message tells the error; in the traversal a dependency whose metadata
    cannot be fetched is skipped, the loop going on with the rest of the queue
    and the range of such a dependency resolving to nothing; and the loop
    always comes to its end. *)
Theorem no_exception_escapes (params : SearchParams) (w : World) :
  (exists w' r, findCompatibleVersion fetch rangeSatisfied params w = (w', r))
  /\ (forall w1 e,
        search fetch rangeSatisfied params w = (w1, Throw e) ->
        findCompatibleVersion fetch rangeSatisfied params w = (w1, searchError e))
  /\ (forall w1 e,
        fetchPackageMetadata fetch (parentPackage params) w = (w1, Throw e) ->
        findCompatibleVersion fetch rangeSatisfied params w = (w1, searchError e)
        /\ success (searchError e) = false)
  /\ (forall fuel targetName visited matches node rest w1 e,
        StrSet.has (keyOf node) visited = false ->
        StrSet.size visited < maxNodes ->
        String.eqb (q_name node) targetName = false ->
        fetchPackageMetadata fetch (q_name node) w = (w1, Throw e) ->
        traverse fetch rangeSatisfied (S fuel) targetName visited matches w (node :: rest)
        = traverse fetch rangeSatisfied fuel targetName (visited ++ [keyOf node]) matches w1 rest)
  /\ (forall name range w1 e,
        Obj.get (name ++ "@" ++ range)%string (versionResolutionCache w) = None ->
        fetchPackageMetadata fetch name w = (w1, Throw e) ->
        snd (resolveVersion fetch rangeSatisfied name range w) = None)
  /\ (forall rootName rootVersion targetName,
        exists w' r,
          traverse fetch rangeSatisfied maxNodes targetName [] [] w
            [mkNode rootName rootVersion [(rootName ++ "@" ++ rootVersion)%string]]
          = (w', Some r)).
Proof.
  repeat split.
  - destruct (findCompatibleVersion fetch rangeSatisfied params w) as [w' r]. eauto.
  - intros w1 e H. unfold findCompatibleVersion. rewrite H. reflexivity.
  - unfold findCompatibleVersion. rewrite (search_fetch_failure _ _ _ _ H). reflexivity.
  - intros fuel targetName visited matches node rest w1 e Hh Hs Hn Hf.
    rewrite traverse_cons, Hh.
    destruct (add_fresh _ _ Hh) as [Ea Es]. rewrite Es, Ea.
    replace (maxNodes <? S (StrSet.size visited))%nat with false
      by (symmetry; apply Nat.ltb_ge; lia).
    rewrite (visit_fetch_failure _ _ _ _ _ _ _ Hn Hf). reflexivity.
  - intros name range w1 e Hc Hf.
    rewrite (resolveVersion_fetch_failure _ _ _ _ _ Hc Hf). reflexivity.
  - intros. apply traverse_total. apply Nat.le_add_r.
Qed.

(** *** The resolver *)

Lemma rangeTest_isVersion range includePrerelease v :
  rangeTest rangeSatisfied range includePrerelease v = true -> isVersion v = true.
Proof.
  unfold rangeTest, isVersion. destruct (semver.parse v); [reflexivity|discriminate].
Qed.

Lemma versionLe_refl v : isVersion v = true -> versionLe v v.
Proof.
  intros H. destruct (compare_versions v v H H) as [va [vb [Ea [Eb Ec]]]].
  rewrite Ea in Eb. injection Eb as <-.
  exists Eq. split; [|discriminate].
  rewrite Ec, (Ordering_refl _ Ordering_compareSemVer). reflexivity.
Qed.

Lemma versionLe_of_not_Lt m v :
  isVersion m = true -> isVersion v = true ->
  semver.compare m v <> Ok Lt -> versionLe v m.
Proof.
  intros Hm Hv H. destruct (compare_versions m v Hm Hv) as [vm [vv [Em [Ev Ec]]]].
  destruct (compare_versions v m Hv Hm) as [vv' [vm' [Ev' [Em' Ec']]]].
  rewrite Em in Em'. rewrite Ev in Ev'. injection Em' as <-. injection Ev' as <-.
  exists (semver.compareSemVer vv vm). split; [exact Ec'|].
  rewrite (cmp_antisym _ Ordering_compareSemVer vm vv).
  rewrite Ec in H. destruct (semver.compareSemVer vm vv); simpl; congruence.
Qed.

Lemma versionLe_of_Lt m v : semver.compare m v = Ok Lt -> versionLe m v.
Proof. intros H. exists Lt. split; [exact H|discriminate]. Qed.

(** The loop of [maxSatisfying], from any version kept so far. *)
Lemma maxSatisfying_loop range includePrerelease versions acc :
  (forall a, acc = Some a -> rangeTest rangeSatisfied range includePrerelease a = true) ->
  match
    fold_left
      (fun max v =>
         if rangeTest rangeSatisfied range includePrerelease v then
           match max with
           | None => Some v
           | Some m => match semver.compare m v with
                       | Ok Lt => Some v
                       | _ => max
                       end
           end
         else max)
      versions acc
  with
  | Some m =>
      (acc = Some m \/ In m versions)
      /\ rangeTest rangeSatisfied range includePrerelease m = true
      /\ (forall v, In v versions ->
                    rangeTest rangeSatisfied range includePrerelease v = true ->
                    versionLe v m)
      /\ (forall a, acc = Some a -> versionLe a m)
  | None =>
      acc = None
      /\ forall v, In v versions ->
                   rangeTest rangeSatisfied range includePrerelease v = false
  end.
Proof.
  revert acc. induction versions as [|x rest IH]; intros acc Hacc.
  - simpl. destruct acc as [a|].
    + repeat split; auto.
      * intros v [].
      * intros a' E. injection E as <-. apply versionLe_refl.
        eapply rangeTest_isVersion. apply Hacc. reflexivity.
    + split; [reflexivity|]. intros v [].
  - simpl fold_left.
    set (acc' := if rangeTest rangeSatisfied range includePrerelease x
                 then match acc with
                      | None => Some x
                      | Some m => match semver.compare m x with
                                  | Ok Lt => Some x
                                  | _ => acc
                                  end
                      end
                 else acc).
    assert (Hacc' : forall a, acc' = Some a ->
                              rangeTest rangeSatisfied range includePrerelease a = true).
    { intros a. unfold acc'.
      destruct (rangeTest rangeSatisfied range includePrerelease x) eqn:Ex; [|apply Hacc].
      destruct acc as [m|]; [|intros E; injection E as <-; exact Ex].
      destruct (semver.compare m x) as [[]|]; try apply Hacc.
      intros E; injection E as <-; exact Ex. }
    assert (Hstep : forall m, acc' = Some m ->
                (acc = Some m \/ m = x)
                /\ (rangeTest rangeSatisfied range includePrerelease x = true -> versionLe x m)
                /\ (forall a, acc = Some a -> versionLe a m)).
    { intros m. unfold acc'.
      destruct (rangeTest rangeSatisfied range includePrerelease x) eqn:Ex.
      - pose proof (rangeTest_isVersion _ _ _ Ex) as Vx.
        destruct acc as [a|].
        + pose proof (rangeTest_isVersion _ _ _ (Hacc a eq_refl)) as Va.
          destruct (semver.compare a x) as [c|e] eqn:Ec.
          * destruct c; intros E; injection E as <-.
            -- repeat split; auto.
               ++ intros _. apply versionLe_of_not_Lt; auto. congruence.
               ++ intros a' E'. injection E' as <-. apply versionLe_refl; auto.
            -- repeat split; auto.
               ++ intros _. apply versionLe_refl; auto.
               ++ intros a' E'. injection E' as <-. apply versionLe_of_Lt; auto.
            -- repeat split; auto.
               ++ intros _. apply versionLe_of_not_Lt; auto. congruence.
               ++ intros a' E'. injection E' as <-. apply versionLe_refl; auto.
          * intros E; injection E as <-. repeat split; auto.
            -- intros _. apply versionLe_of_not_Lt; auto. congruence.
            -- intros a' E'. injection E' as <-. apply versionLe_refl; auto.
        + intros E; injection E as <-. repeat split; auto.
          * intros _. apply versionLe_refl; auto.
          * intros a E'. discriminate.
      - intros E. repeat split; auto.
        + intros; discriminate.
        + intros a E'. rewrite E in E'. injection E' as <-.
          apply versionLe_refl. eapply rangeTest_isVersion. apply Hacc. exact E. }
    specialize (IH acc' Hacc').
    destruct (fold_left _ rest acc') as [m|] eqn:Ef.
    + destruct IH as [Hin [Ht [Hmax Hle]]]. repeat split; auto.
      * destruct Hin as [Hin|Hin]; [|right; right; exact Hin].
        destruct (Hstep m Hin) as [[E|E] _]; [left; exact E|right; left; auto].
      * intros v [E|Hv] Hv'; [|auto]. subst v.
        destruct acc' as [m'|] eqn:Ea'.
        -- destruct (Hstep m' eq_refl) as [_ [H1 _]].
           eapply versionLe_trans; [apply H1; exact Hv'|]. apply Hle. reflexivity.
        -- exfalso. unfold acc' in Ea'. rewrite Hv' in Ea'.
           destruct acc as [a|]; [|discriminate].
           destruct (semver.compare a x) as [[]|]; discriminate.
      * intros a Ea. destruct acc' as [m'|] eqn:Ea'.
        -- destruct (Hstep m' eq_refl) as [_ [_ H2]].
           eapply versionLe_trans; [apply H2; exact Ea|]. apply Hle. reflexivity.
        -- exfalso. unfold acc' in Ea'. subst acc.
           destruct (rangeTest rangeSatisfied range includePrerelease x); [|discriminate].
           destruct (semver.compare a x) as [[]|]; discriminate.
    + destruct IH as [Enone Hnone]. unfold acc' in Enone.
      destruct (rangeTest rangeSatisfied range includePrerelease x) eqn:Ex.
      * exfalso. destruct acc as [a|]; [|discriminate].
        destruct (semver.compare a x) as [[]|]; discriminate.
      * split; [exact Enone|]. intros v [E|Hv]; [subst v; exact Ex|auto].
Qed.

Lemma maxSatisfying_spec versions range includePrerelease :
  match maxSatisfying rangeSatisfied versions range includePrerelease with
  | Some m => maxIn rangeSatisfied versions range includePrerelease m
  | None => noneIn rangeSatisfied versions range includePrerelease
  end.
Proof.
  assert (H0 : forall a, @None string = Some a ->
                         rangeTest rangeSatisfied range includePrerelease a = true)
    by discriminate.
  pose proof (maxSatisfying_loop range includePrerelease versions None H0) as H.
  unfold maxSatisfying.
  match type of H with match ?f with _ => _ end => destruct f as [m|] end.
  - destruct H as [[E|Hin] [Ht [Hmax _]]]; [discriminate|].
    repeat split; auto.
  - destruct H as [_ H]. exact H.
Qed.

Lemma get_set_same {V : Type} k (v : V) o : Obj.get k (Obj.set k v o) = Some v.
Proof.
  induction o as [|[k' v'] o IH]; simpl.
  - rewrite String.eqb_refl. reflexivity.
  - destruct (String.eqb k k') eqn:E; simpl.
    + rewrite String.eqb_refl. reflexivity.
    + rewrite E. exact IH.
Qed.

Lemma orNull_version m : isVersion m = true -> orNull (Some m) = Some m.
Proof.
  intros H. unfold orNull, truthy.
  destruct (String.eqb m "") eqn:E; [|reflexivity].
  apply String.eqb_eq in E. subst m. discriminate.
Qed.

Lemma resolveVersion_hit name range w r :
  Obj.get (name ++ "@" ++ range)%string (versionResolutionCache w) = Some r ->
  resolveVersion fetch rangeSatisfied name range w = (w, r).
Proof. intros H. unfold resolveVersion. rewrite H. reflexivity. Qed.

Lemma resolveVersion_cached name range w :
  Obj.get (name ++ "@" ++ range)%string
    (versionResolutionCache (fst (resolveVersion fetch rangeSatisfied name range w)))
  = Some (snd (resolveVersion fetch rangeSatisfied name range w)).
Proof.
  unfold resolveVersion.
  destruct (Obj.get (name ++ "@" ++ range)%string (versionResolutionCache w)) as [r|] eqn:E.
  - exact E.
  - destruct (fetchPackageMetadata fetch name w) as [w1 [meta|e]]; simpl; apply get_set_same.
Qed.

(** C6.  On a pair not resolved before, [resolveVersion] takes the versions of
    the package from the metadata cache and returns a greatest stable version
    in the range or, when no stable version is in the range, a greatest
    version in the range with pre-releases allowed, or nothing when no version
    is in the range; a failed fetch gives nothing as well, not an error.
    The result is kept under the key of the pair: a call that finds the key
    returns what is kept and leaves the world as it is, and so does every
    repeated call, which sends no request to the registry. *)
Theorem resolveVersion_max_and_memo (name range : string) (w : World) :
  (forall w1 meta,
      Obj.get (name ++ "@" ++ range)%string (versionResolutionCache w) = None ->
      fetchPackageMetadata fetch name w = (w1, Ok meta) ->
      exists r,
        resolveVersion fetch rangeSatisfied name range w
        = (setResolution (name ++ "@" ++ range)%string r w1, r)
        /\ match r with
           | Some m =>
               maxIn rangeSatisfied (stableOf (Obj.keys (versions meta))) range false m
               \/ (noneIn rangeSatisfied (stableOf (Obj.keys (versions meta))) range false
                   /\ maxIn rangeSatisfied (Obj.keys (versions meta)) range true m)
           | None =>
               noneIn rangeSatisfied (stableOf (Obj.keys (versions meta))) range false
               /\ noneIn rangeSatisfied (Obj.keys (versions meta)) range true
           end)
  /\ (forall w1 e,
        Obj.get (name ++ "@" ++ range)%string (versionResolutionCache w) = None ->
        fetchPackageMetadata fetch name w = (w1, Throw e) ->
        resolveVersion fetch rangeSatisfied name range w
        = (setResolution (name ++ "@" ++ range)%string None w1, None))
  /\ (forall r,
        Obj.get (name ++ "@" ++ range)%string (versionResolutionCache w) = Some r ->
        resolveVersion fetch rangeSatisfied name range w = (w, r))
  /\ resolveVersion fetch rangeSatisfied name range
       (fst (resolveVersion fetch rangeSatisfied name range w))
     = resolveVersion fetch rangeSatisfied name range w.
Proof.
  split; [|split; [|split]].
  - intros w1 meta Hc Hf. unfold resolveVersion. rewrite Hc, Hf.
    fold (stableOf (Obj.keys (versions meta))).
    pose proof (maxSatisfying_spec (stableOf (Obj.keys (versions meta))) range false) as Hs.
    pose proof (maxSatisfying_spec (Obj.keys (versions meta)) range true) as Ha.
    destruct (maxSatisfying rangeSatisfied (stableOf (Obj.keys (versions meta))) range false)
      as [m|].
    + assert (Vm : isVersion m = true)
        by (eapply rangeTest_isVersion; apply Hs).
      rewrite !(orNull_version m Vm). exists (Some m). split; [reflexivity|].
      left. exact Hs.
    + change (orNull None) with (@None string). cbv iota.
      destruct (maxSatisfying rangeSatisfied (Obj.keys (versions meta)) range true) as [m|].
      * assert (Vm : isVersion m = true)
          by (eapply rangeTest_isVersion; apply Ha).
        rewrite !(orNull_version m Vm). exists (Some m). split; [reflexivity|].
        right. split; assumption.
      * exists None. split; [reflexivity|]. split; assumption.
  - intros w1 e. apply resolveVersion_fetch_failure.
  - intros r. apply resolveVersion_hit.
  - pose proof (resolveVersion_cached name range w) as H.
    destruct (resolveVersion fetch rangeSatisfied name range w) as [w1 r]. simpl in *.
    apply resolveVersion_hit. exact H.
Qed.

(** *** What the traversal processes *)

Lemma processedNodes_nil fuel targetName visited matches w :
  processedNodes fetch rangeSatisfied fuel targetName visited matches w [] = [].
Proof. destruct fuel; reflexivity. Qed.

Lemma processedNodes_cons fuel targetName visited matches w node rest :
  processedNodes fetch rangeSatisfied fuel targetName visited matches w (node :: rest)
  = if StrSet.has (keyOf node) visited then
      processedNodes fetch rangeSatisfied fuel targetName visited matches w rest
    else if (maxNodes <? StrSet.size (StrSet.add (keyOf node) visited))%nat then []
    else
      match fuel with
      | 0 => []
      | S fuel' =>
          let '(w1, (matches', queue')) :=
            visit fetch rangeSatisfied targetName node matches rest w in
          node :: processedNodes fetch rangeSatisfied fuel' targetName
                    (StrSet.add (keyOf node) visited) matches' w1 queue'
      end.
Proof. destruct fuel; reflexivity. Qed.

Lemma has_app key s s' :
  StrSet.has key (s ++ s') = StrSet.has key s || StrSet.has key s'.
Proof. unfold StrSet.has. apply existsb_app. Qed.

Lemma processedNodes_fresh fuel targetName visited matches w queue :
  NoDup (map keyOf (processedNodes fetch rangeSatisfied fuel targetName visited matches w queue))
  /\ forall n,
       In n (processedNodes fetch rangeSatisfied fuel targetName visited matches w queue) ->
       StrSet.has (keyOf n) visited = false.
Proof.
  revert visited matches w queue.
  induction fuel as [|fuel IH]; intros visited matches w queue;
    induction queue as [|node rest IHq];
    try (rewrite processedNodes_nil; split; [constructor|intros n []]);
    rewrite processedNodes_cons;
    (destruct (StrSet.has (keyOf node) visited) eqn:Eh; [exact IHq|]);
    (destruct (maxNodes <? StrSet.size (StrSet.add (keyOf node) visited))%nat;
     [split; [constructor|intros n []]|]).
  - split; [constructor|intros n []].
  - destruct (visit fetch rangeSatisfied targetName node matches rest w)
      as [w1 [matches' queue']].
    destruct (IH (StrSet.add (keyOf node) visited) matches' w1 queue') as [Hnd Hfresh].
    destruct (add_fresh _ _ Eh) as [Ea _]. rewrite Ea in *.
    split.
    + simpl. constructor; [|exact Hnd].
      intros Hin. apply in_map_iff in Hin. destruct Hin as [n [En Hn]].
      apply Hfresh in Hn. rewrite has_app, En in Hn.
      apply orb_false_iff in Hn. destruct Hn as [_ Hn].
      simpl in Hn. rewrite String.eqb_refl in Hn. discriminate.
    + intros n [E|Hn]; [subst n; exact Eh|].
      apply Hfresh in Hn. rewrite has_app in Hn.
      apply orb_false_iff in Hn. tauto.
Qed.

Lemma NoDup_keys_pairs (l : list QueueNode) :
  NoDup (map keyOf l) -> NoDup (map (fun n => (q_name n, q_version n)) l).
Proof.
  induction l as [|n l IH]; simpl; intros H; [constructor|].
  inversion H as [|? ? Hn Hl]; subst. constructor; [|auto].
  intros Hin. apply Hn. apply in_map_iff in Hin. destruct Hin as [m [Em Hm]].
  apply in_map_iff. exists m. split; [|exact Hm].
  unfold keyOf. injection Em as -> ->. reflexivity.
Qed.

Lemma enqueueDeps_children node deps queue w :
  exists kids,
    snd (enqueueDeps fetch rangeSatisfied node deps queue w) = queue ++ kids
    /\ Forall (childOf node) kids.
Proof.
  revert queue w. induction deps as [|[depName depRange] deps IH]; intros queue w.
  - exists []. simpl. rewrite app_nil_r. split; [reflexivity|constructor].
  - simpl. destruct (resolveVersion fetch rangeSatisfied depName depRange w) as [w1 [resolved|]].
    + destruct (IH (queue ++ [mkNode depName resolved
                                (q_path node ++ [(depName ++ "@" ++ resolved)%string])]) w1)
        as [kids [E Hk]].
      exists (mkNode depName resolved
                (q_path node ++ [(depName ++ "@" ++ resolved)%string]) :: kids).
      rewrite <- app_assoc in E. split; [exact E|].
      constructor; [reflexivity|exact Hk].
    + apply IH.
Qed.

Lemma visit_target targetName node matches queue w :
  String.eqb (q_name node) targetName = true ->
  visit fetch rangeSatisfied targetName node matches queue w
  = (w, (matches ++ [mkMatch (Str.join " > " (q_path node)) (q_version node)], queue)).
Proof. intros H. unfold visit. rewrite H. reflexivity. Qed.

Lemma visit_children targetName node matches queue w :
  exists kids,
    snd (snd (visit fetch rangeSatisfied targetName node matches queue w)) = queue ++ kids
    /\ Forall (fun k => String.eqb (q_name node) targetName = false /\ childOf node k) kids.
Proof.
  unfold visit. destruct (String.eqb (q_name node) targetName) eqn:En.
  - exists []. simpl. rewrite app_nil_r. split; [reflexivity|constructor].
  - destruct (fetchPackageMetadata fetch (q_name node) w) as [w1 [meta|e]].
    + destruct (Obj.get (q_version node) (versions meta)) as [pkg|].
      * destruct (enqueueDeps_children node
                    (Obj.spread (dependencies pkg) (optionalDependencies pkg)) queue w1)
          as [kids [E Hk]].
        destruct (enqueueDeps fetch rangeSatisfied node _ queue w1) as [w2 queue'].
        exists kids. simpl in *. split; [exact E|].
        eapply Forall_impl; [|exact Hk]. auto.
      * exists []. simpl. rewrite app_nil_r. split; [reflexivity|constructor].
    + exists []. simpl. rewrite app_nil_r. split; [reflexivity|constructor].
Qed.

(** Every processed node was in the queue at the start or was enqueued while a
    processed node that is not the target was expanded. *)
Lemma processedNodes_origin fuel targetName visited matches w queue (origin : QueueNode -> Prop) :
  Forall origin queue ->
  Forall (fun n =>
            origin n
            \/ exists p,
                 In p (processedNodes fetch rangeSatisfied fuel targetName visited matches w queue)
                 /\ String.eqb (q_name p) targetName = false /\ childOf p n)
    (processedNodes fetch rangeSatisfied fuel targetName visited matches w queue).
Proof.
  revert visited matches w queue origin.
  induction fuel as [|fuel IH]; intros visited matches w queue origin;
    induction queue as [|node rest IHq]; intros Hq;
    try (rewrite processedNodes_nil; constructor);
    rewrite processedNodes_cons;
    (destruct (StrSet.has (keyOf node) visited);
     [apply IHq; inversion Hq; assumption|]);
    (destruct (maxNodes <? StrSet.size (StrSet.add (keyOf node) visited))%nat;
     [constructor|]).
  - constructor.
  - destruct (visit_children targetName node matches rest w) as [kids [Ek Hk]].
    destruct (visit fetch rangeSatisfied targetName node matches rest w)
      as [w1 [matches' queue']]. simpl in Ek. subst queue'.
    inversion Hq as [|? ? Hnode Hrest]; subst.
    set (origin' := fun n => origin n
                             \/ (String.eqb (q_name node) targetName = false /\ childOf node n)).
    assert (Hq' : Forall origin' (rest ++ kids)).
    { apply Forall_app. split.
      - eapply Forall_impl; [|exact Hrest]. intros n Hn. left. exact Hn.
      - eapply Forall_impl; [|exact Hk]. intros n Hn. right. exact Hn. }
    specialize (IH (StrSet.add (keyOf node) visited) matches' w1 (rest ++ kids) origin' Hq').
    constructor; [left; exact Hnode|].
    eapply Forall_impl; [|exact IH].
    intros n [[Hn|[Hn1 Hn2]]|[p [Hp1 Hp2]]].
    + left. exact Hn.
    + right. exists node. split; [left; reflexivity|]. split; assumption.
    + right. exists p. split; [right; exact Hp1|exact Hp2].
Qed.

Lemma visit_matches targetName node matches queue w :
  fst (snd (visit fetch rangeSatisfied targetName node matches queue w))
  = matches ++ (if String.eqb (q_name node) targetName then [occurrence node] else []).
Proof.
  unfold visit. destruct (String.eqb (q_name node) targetName); [reflexivity|].
  destruct (fetchPackageMetadata fetch (q_name node) w) as [w1 [meta|e]];
    [|simpl; rewrite app_nil_r; reflexivity].
  destruct (Obj.get (q_version node) (versions meta)) as [pkg|];
    [|simpl; rewrite app_nil_r; reflexivity].
  destruct (enqueueDeps fetch rangeSatisfied node _ queue w1). simpl.
  rewrite app_nil_r. reflexivity.
Qed.

(** The matches of a traversal are the occurrences of the processed nodes of
    the target, in the order they were processed. *)
Lemma traverse_matches fuel targetName visited found w queue w' r :
  traverse fetch rangeSatisfied fuel targetName visited found w queue = (w', Some r) ->
  matches r
  = found
    ++ map occurrence
         (filter (fun n => String.eqb (q_name n) targetName)
            (processedNodes fetch rangeSatisfied fuel targetName visited found w queue)).
Proof.
  revert visited found w queue.
  induction fuel as [|fuel IH]; intros visited found w queue;
    induction queue as [|node rest IHq]; intros H;
    try (rewrite traverse_nil in H; rewrite processedNodes_nil; injection H as _ <-;
         simpl; rewrite app_nil_r; reflexivity);
    rewrite traverse_cons in H; rewrite processedNodes_cons;
    (destruct (StrSet.has (keyOf node) visited); [exact (IHq H)|]);
    (destruct (maxNodes <? StrSet.size (StrSet.add (keyOf node) visited))%nat;
     [injection H as _ <-; simpl; rewrite app_nil_r; reflexivity|]).
  - discriminate.
  - pose proof (visit_matches targetName node found rest w) as Hm.
    destruct (visit fetch rangeSatisfied targetName node found rest w)
      as [w1 [found' queue']]. simpl in Hm.
    rewrite (IH _ _ _ _ H), Hm. cbn [filter].
    destruct (String.eqb (q_name node) targetName); cbn [map];
      rewrite <- app_assoc; reflexivity.
Qed.

(** The count of a traversal: the keys visited before it, one for each
    processed node and, when it stopped at the ceiling, one for the node it
    stopped at. *)
Lemma traverse_visitedCount fuel targetName visited found w queue w' r :
  traverse fetch rangeSatisfied fuel targetName visited found w queue = (w', Some r) ->
  visitedCount r
  = StrSet.size visited
    + List.length (processedNodes fetch rangeSatisfied fuel targetName visited found w queue)
    + (if truncated r then 1 else 0).
Proof.
  revert visited found w queue.
  induction fuel as [|fuel IH]; intros visited found w queue;
    induction queue as [|node rest IHq]; intros H;
    try (rewrite traverse_nil in H; rewrite processedNodes_nil; injection H as _ <-;
         simpl; lia);
    rewrite traverse_cons in H; rewrite processedNodes_cons;
    (destruct (StrSet.has (keyOf node) visited) eqn:Eh; [exact (IHq H)|]);
    destruct (add_fresh _ _ Eh) as [_ Es]; rewrite Es in *;
    (destruct (maxNodes <? S (StrSet.size visited))%nat;
     [injection H as _ <-; simpl; lia|]).
  - discriminate.
  - destruct (visit fetch rangeSatisfied targetName node found rest w)
      as [w1 [found' queue']].
    rewrite (IH _ _ _ _ H), Es. simpl. lia.
Qed.

(** C8.  Within one traversal the processed nodes have pairwise distinct
    (name, version) pairs, none of them visited before; a node whose name is
    the target is recorded as an occurrence and nothing is enqueued for it,
    the queue and the world staying as they are; the matches returned are the
    occurrences of the processed nodes of the target, and the count returned
    counts each processed node once; and every processed node
    is the root or was enqueued while a processed node other than the target
    was expanded, so nothing below an occurrence is ever reached through it. *)
Theorem traversal_invariants fuel targetName visited found w queue :
  NoDup (map (fun n => (q_name n, q_version n))
           (processedNodes fetch rangeSatisfied fuel targetName visited found w queue))
  /\ (forall n,
        In n (processedNodes fetch rangeSatisfied fuel targetName visited found w queue) ->
        StrSet.has (keyOf n) visited = false)
  /\ (forall node found' queue' w',
        String.eqb (q_name node) targetName = true ->
        visit fetch rangeSatisfied targetName node found' queue' w'
        = (w', (found' ++ [occurrence node], queue')))
  /\ (forall w' r,
        traverse fetch rangeSatisfied fuel targetName visited found w queue = (w', Some r) ->
        matches r
        = found
          ++ map occurrence
               (filter (fun n => String.eqb (q_name n) targetName)
                  (processedNodes fetch rangeSatisfied fuel targetName visited found w queue))
        /\ visitedCount r
           = StrSet.size visited
             + List.length
                 (processedNodes fetch rangeSatisfied fuel targetName visited found w queue)
             + (if truncated r then 1 else 0))
  /\ Forall (fun n =>
               In n queue
               \/ exists p,
                    In p (processedNodes fetch rangeSatisfied fuel targetName visited found w queue)
                    /\ String.eqb (q_name p) targetName = false /\ childOf p n)
       (processedNodes fetch rangeSatisfied fuel targetName visited found w queue).
Proof.
  destruct (processedNodes_fresh fuel targetName visited found w queue) as [Hnd Hfresh].
  split; [apply NoDup_keys_pairs; exact Hnd|].
  split; [exact Hfresh|].
  split; [intros; apply visit_target; assumption|].
  split; [intros w' r H; split;
          [eapply traverse_matches; eauto|eapply traverse_visitedCount; eauto]|].
  apply processedNodes_origin. apply Forall_forall. auto.
Qed.

(** *** The metadata cache *)

Lemma get_set {V : Type} k k' (v : V) o :
  Obj.get k (Obj.set k' v o) = if String.eqb k k' then Some v else Obj.get k o.
Proof.
  induction o as [|[k0 v0] o IH]; simpl; [reflexivity|].
  destruct (String.eqb k' k0) eqn:E0; simpl.
  - apply String.eqb_eq in E0. subst k0. destruct (String.eqb k k'); reflexivity.
  - rewrite IH. destruct (String.eqb k k0) eqn:E1; [|reflexivity].
    apply String.eqb_eq in E1. subst k0.
    rewrite (String.eqb_sym k' k) in E0. rewrite E0. reflexivity.
Qed.

Lemma fetchPackageMetadata_coherent n m s st w :
  coherent fetch w ->
  fetch n = Ok (mkResponse true s st (Ok m)) ->
  exists w',
    fetchPackageMetadata fetch n w = (w', Ok m)
    /\ coherent fetch w'
    /\ versionResolutionCache w' = versionResolutionCache w.
Proof.
  intros Hw Hf. unfold fetchPackageMetadata.
  destruct (Obj.get n (packageMetaCache w)) as [m0|] eqn:Eg.
  - destruct (Hw n m0 Eg) as [s0 [st0 E0]]. rewrite Hf in E0. injection E0 as _ _ <-.
    exists w. auto.
  - rewrite Hf. simpl. eexists. split; [reflexivity|]. split; [|reflexivity].
    intros n' m' Hg. simpl in Hg. rewrite get_set in Hg.
    destruct (String.eqb n' n) eqn:En.
    + apply String.eqb_eq in En. subst n'. injection Hg as <-. eauto.
    + apply Hw. exact Hg.
Qed.

(** *** The ceiling *)

Lemma traverse_ceiling fuel targetName visited matches w queue w' r :
  StrSet.size visited <= maxNodes ->
  traverse fetch rangeSatisfied fuel targetName visited matches w queue = (w', Some r) ->
  (truncated r = true /\ visitedCount r = S maxNodes)
  \/ (truncated r = false /\ visitedCount r <= maxNodes).
Proof.
  revert visited matches w queue.
  induction fuel as [|fuel IH]; intros visited matches w queue Hs;
    induction queue as [|node rest IHq]; intros H;
    try (rewrite traverse_nil in H; injection H as _ <-; right; split; [reflexivity|exact Hs]);
    rewrite traverse_cons in H;
    (destruct (StrSet.has (keyOf node) visited) eqn:Eh; [exact (IHq H)|]);
    destruct (add_fresh _ _ Eh) as [_ Es]; rewrite Es in H;
    (destruct (maxNodes <? S (StrSet.size visited))%nat eqn:El;
     [injection H as _ <-; left; split; [reflexivity|];
      apply Nat.ltb_lt in El; simpl; lia|]).
  - discriminate.
  - destruct (visit fetch rangeSatisfied targetName node matches rest w)
      as [w1 [matches' queue']].
    revert H. apply IH. rewrite Es. apply Nat.ltb_ge in El. exact El.
Qed.

(** *** A parent with one stable version *)

Lemma findCompatibleVersion_single params w w0 v w1 a :
  getPackageVersions fetch (parentPackage params) w = (w0, Ok [v]) ->
  parentMinVersion params = "" ->
  isPrerelease v = false ->
  analyze fetch rangeSatisfied params v w0 = (w1, Ok a) ->
  a_success a = true ->
  findCompatibleVersion fetch rangeSatisfied params w = (w1, winner "stable" v a).
Proof.
  intros Hg Hm Hp Ha Hs. unfold findCompatibleVersion.
  assert (Hf : filterR (atLeast (parentMinVersion params)) [v] = Ok [v])
    by (rewrite Hm; reflexivity).
  rewrite (search_tryGroups params w w0 [v] [v] Hg Hf) by discriminate.
  unfold versionGroups. cbn [filter]. rewrite Hp. cbn [negb].
  rewrite tryGroups_step, tryVersions_step, Ha, Hs. reflexivity.
Qed.

End EngineFacts.

(** ** The properties at the examples *)

Import Examples.

Lemma candidates_ordered_example :
  (forallb isVersion ["1.0.0"; "1.0.0-beta.1"; "0.9.0"; "2.0.0"] = true
   /\ floorOk "1.0.0" = true)
  /\ exists stable prerelease,
      orderCandidates ["1.0.0"; "1.0.0-beta.1"; "0.9.0"; "2.0.0"] "1.0.0"
      = Ok (stable ++ prerelease)
      /\ Permutation (stable ++ prerelease)
           (filter (meetsFloor "1.0.0") ["1.0.0"; "1.0.0-beta.1"; "0.9.0"; "2.0.0"])
      /\ Forall (fun v => isPrerelease v = false) stable
      /\ Forall (fun v => isPrerelease v = true) prerelease
      /\ StronglySorted versionLe stable
      /\ StronglySorted versionLe prerelease
      /\ orderCandidates ["1.0.0"; "1.0.0-beta.1"; "0.9.0"; "2.0.0"] "1.0.0"
         = Ok ["1.0.0"; "2.0.0"].
Proof.
  split; [split; reflexivity|].
  apply (candidates_ordered ["1.0.0"; "1.0.0-beta.1"; "0.9.0"; "2.0.0"] "1.0.0");
    reflexivity.
Defined.

(** C3, as the specification states it, at its own example: the candidates
    for the versions 1.0.0, 1.0.0-beta.1, 0.9.0, 2.0.0 and the floor 1.0.0 are
    not 1.0.0, 2.0.0, 1.0.0-beta.1. *)
Lemma candidates_example_refuted :
  orderCandidates ["1.0.0"; "1.0.0-beta.1"; "0.9.0"; "2.0.0"] "1.0.0"
  <> Ok ["1.0.0"; "2.0.0"; "1.0.0-beta.1"].
Proof. vm_compute. discriminate. Qed.


Import Runs.

Lemma first_success_wins_example :
  (Re.regex_plain (childPackage abcParams) = true
   /\ getPackageVersions chainABC "A" emptyWorld = (abcFetched, Ok abcVersions)
   /\ filterR (atLeast "") abcVersions = Ok abcVersions
   /\ candidates (versionGroups abcVersions) = ["0.9.0"] ++ "1.0.0" :: ["1.1.0"]
   /\ allFail chainABC rangeBasic abcParams ["0.9.0"] abcFetched = Some abcFirst
   /\ analyze chainABC rangeBasic abcParams "1.0.0" abcFirst = (abcSecond, Ok abcAnalysis)
   /\ a_success abcAnalysis = true)
  /\ (exists msg,
        findCompatibleVersion chainABC rangeBasic abcParams emptyWorld
        = (abcSecond, mkSearchResult true (Some "1.0.0") msg (a_details abcAnalysis)))
  /\ (forall groups' post',
        candidates groups' = ["0.9.0"] ++ "1.0.0" :: post' ->
        exists msg,
          tryGroups chainABC rangeBasic abcParams groups' abcFetched
          = (abcSecond, Ok (mkSearchResult true (Some "1.0.0") msg (a_details abcAnalysis)))).
Proof.
  assert (H0 : Re.regex_plain (childPackage abcParams) = true) by reflexivity.
  assert (H1 : getPackageVersions chainABC "A" emptyWorld = (abcFetched, Ok abcVersions))
    by (vm_compute; reflexivity).
  assert (H2 : filterR (atLeast "") abcVersions = Ok abcVersions) by reflexivity.
  assert (H3 : candidates (versionGroups abcVersions) = ["0.9.0"] ++ "1.0.0" :: ["1.1.0"])
    by (vm_compute; reflexivity).
  assert (H4 : allFail chainABC rangeBasic abcParams ["0.9.0"] abcFetched = Some abcFirst)
    by (vm_compute; reflexivity).
  assert (H5 : analyze chainABC rangeBasic abcParams "1.0.0" abcFirst = (abcSecond, Ok abcAnalysis))
    by (vm_compute; reflexivity).
  assert (H6 : a_success abcAnalysis = true) by reflexivity.
  split; [repeat split; assumption|].
  exact (first_success_wins chainABC rangeBasic abcParams emptyWorld abcFetched
           abcVersions abcVersions ["0.9.0"] "1.0.0" ["1.1.0"] abcFirst abcSecond
           abcAnalysis H0 H1 H2 H3 H4 H5 H6).
Defined.

(** ** A traversal that reaches the ceiling *)

Section Broad.

Variable deps : Obj.t string.

Lemma broad_answer n :
  exists vs,
    broad deps n = Ok (mkResponse true "200" "OK" (Ok (mkMeta n vs)))
    /\ Obj.keys vs = ["1.0.0"]
    /\ (String.eqb n "wide" = false -> vs = [("1.0.0", pkg [])])
    /\ (String.eqb n "wide" = true -> vs = [("1.0.0", pkg deps)]).
Proof.
  unfold broad, found. destruct (String.eqb n "wide"); eexists;
    (split; [reflexivity|]); repeat split; congruence.
Qed.

Lemma broad_fetch n w :
  coherent (broad deps) w ->
  exists w' vs,
    fetchPackageMetadata (broad deps) n w = (w', Ok (mkMeta n vs))
    /\ coherent (broad deps) w'
    /\ versionResolutionCache w' = versionResolutionCache w
    /\ Obj.keys vs = ["1.0.0"]
    /\ (String.eqb n "wide" = false -> vs = [("1.0.0", pkg [])])
    /\ (String.eqb n "wide" = true -> vs = [("1.0.0", pkg deps)]).
Proof.
  intros Hw. destruct (broad_answer n) as [vs [E [Hk [Hl Hr]]]].
  destruct (fetchPackageMetadata_coherent (broad deps) n _ _ _ w Hw E) as [w' [Ef [Hc Hv]]].
  exists w', vs. auto 10.
Qed.

Lemma broad_resolve n w :
  coherent (broad deps) w -> resolvedToOne w ->
  exists w',
    resolveVersion (broad deps) rangeBasic n "*" w = (w', Some "1.0.0")
    /\ coherent (broad deps) w' /\ resolvedToOne w'.
Proof.
  intros Hw Hr. unfold resolveVersion.
  destruct (Obj.get (n ++ "@" ++ "*")%string (versionResolutionCache w)) as [r|] eqn:Eg.
  - rewrite (Hr _ _ Eg). exists w. auto.
  - destruct (broad_fetch n w Hw) as [w1 [vs [Ef [Hc [Hv [Hk _]]]]]].
    rewrite Ef. cbn [versions]. rewrite Hk.
    eexists. split; [reflexivity|]. split.
    + intros n' m'. exact (Hc n' m').
    + intros k r. cbn [setResolution versionResolutionCache]. rewrite get_set, Hv.
      destruct (String.eqb k (n ++ "@" ++ "*")); [|apply Hr].
      intros E. injection E as <-. reflexivity.
Qed.

Lemma broad_enqueue node ds queue w :
  coherent (broad deps) w -> resolvedToOne w ->
  Forall (fun d => snd d = "*") ds ->
  exists w',
    enqueueDeps (broad deps) rangeBasic node ds queue w
    = (w', queue ++ map (childNode node) (map fst ds))
    /\ coherent (broad deps) w' /\ resolvedToOne w'.
Proof.
  revert queue w. induction ds as [|[d r] ds IH]; intros queue w Hw Hr Hd.
  - exists w. simpl. rewrite app_nil_r. auto.
  - inversion Hd as [|? ? Hd1 Hd2]; subst. simpl in Hd1. subst r.
    destruct (broad_resolve d w Hw Hr) as [w1 [E [Hw1 Hr1]]].
    cbn [enqueueDeps]. rewrite E.
    destruct (IH (queue ++ [childNode node d]) w1 Hw1 Hr1 Hd2) as [w2 [E2 [Hw2 Hr2]]].
    exists w2. split; [|auto]. unfold childNode in E2 at 1. rewrite E2.
    rewrite <- app_assoc. reflexivity.
Qed.

Lemma broad_visit_leaf node matches queue w :
  coherent (broad deps) w -> resolvedToOne w -> leafNode node ->
  exists w',
    visit (broad deps) rangeBasic "target" node matches queue w = (w', (matches, queue))
    /\ coherent (broad deps) w' /\ resolvedToOne w'.
Proof.
  intros Hw Hr [Hn1 [Hn2 Hv]]. unfold visit. rewrite Hn2.
  destruct (broad_fetch (q_name node) w Hw) as [w1 [vs [Ef [Hc [Hres [_ [Hl _]]]]]]].
  rewrite Ef, Hv, (Hl Hn1). exists w1. split; [reflexivity|]. split; [exact Hc|].
  intros k r. rewrite Hres. apply Hr.
Qed.

Lemma broad_visit_root path matches queue w :
  coherent (broad deps) w -> resolvedToOne w ->
  Forall (fun d => snd d = "*") deps ->
  exists w',
    visit (broad deps) rangeBasic "target" (mkNode "wide" "1.0.0" path) matches queue w
    = (w', (matches, queue ++ map (childNode (mkNode "wide" "1.0.0" path)) (map fst deps)))
    /\ coherent (broad deps) w' /\ resolvedToOne w'.
Proof.
  intros Hw Hr Hd. unfold visit. cbn [q_name q_version].
  change (String.eqb "wide" "target") with false. cbv iota.
  destruct (broad_fetch "wide" w Hw) as [w1 [vs [Ef [Hc [Hres [_ [_ Hroot]]]]]]].
  rewrite Ef, (Hroot eq_refl). cbn [versions Obj.get dependencies optionalDependencies pkg].
  change (String.eqb "1.0.0" "1.0.0") with true. cbv iota.
  change (Obj.spread (dependencies (pkg deps)) (optionalDependencies (pkg deps))) with deps.
  assert (Hr1 : resolvedToOne w1) by (intros k r; rewrite Hres; apply Hr).
  destruct (broad_enqueue (mkNode "wide" "1.0.0" path) deps queue w1 Hc Hr1 Hd)
    as [w2 [E [Hw2 Hr2]]].
  rewrite E. exists w2. auto.
Qed.

(** The loop over nodes that are leaves, new and below the ceiling: each is
    visited, nothing is recorded and nothing enqueued. *)
Lemma broad_leaf_run leaves tail fuel visited matches w :
  coherent (broad deps) w -> resolvedToOne w ->
  Forall leafNode leaves ->
  NoDup (map keyOf leaves) ->
  Forall (fun n => StrSet.has (keyOf n) visited = false) leaves ->
  StrSet.size visited + List.length leaves <= maxNodes ->
  List.length leaves <= fuel ->
  exists w',
    coherent (broad deps) w' /\ resolvedToOne w'
    /\ traverse (broad deps) rangeBasic fuel "target" visited matches w (leaves ++ tail)
       = traverse (broad deps) rangeBasic (fuel - List.length leaves) "target"
           (visited ++ map keyOf leaves) matches w' tail.
Proof.
  revert fuel visited w.
  induction leaves as [|node rest IH]; intros fuel visited w Hw Hr Hl Hnd Hfresh Hsize Hfuel.
  - exists w. simpl. rewrite Nat.sub_0_r, app_nil_r. auto.
  - inversion Hl as [|? ? Hl1 Hl2]; subst.
    inversion Hnd as [|? ? Hnd1 Hnd2]; subst.
    inversion Hfresh as [|? ? Hf1 Hf2]; subst.
    simpl in Hsize, Hfuel. destruct fuel as [|fuel]; [lia|].
    cbn [app]. rewrite traverse_cons, Hf1.
    destruct (add_fresh _ _ Hf1) as [Ea Es]. rewrite Es, Ea.
    replace (maxNodes <? S (StrSet.size visited))%nat with false
      by (symmetry; apply Nat.ltb_ge; lia).
    destruct (broad_visit_leaf node matches (rest ++ tail) w Hw Hr Hl1)
      as [w1 [Ev [Hw1 Hr1]]].
    rewrite Ev.
    destruct (IH fuel (visited ++ [keyOf node]) w1 Hw1 Hr1 Hl2 Hnd2) as [w2 [Hw2 [Hr2 E]]].
    + apply Forall_forall. intros n Hn. rewrite has_app.
      rewrite Forall_forall in Hf2. rewrite (Hf2 n Hn). simpl.
      rewrite orb_false_r. apply String.eqb_neq. intros Ek.
      apply Hnd1. rewrite <- Ek. apply in_map. exact Hn.
    + unfold StrSet.size in *. rewrite length_app. simpl. lia.
    + lia.
    + exists w2. split; [exact Hw2|]. split; [exact Hr2|].
      rewrite E. cbn [List.length map Nat.sub]. rewrite <- app_assoc. reflexivity.
Qed.

End Broad.

Lemma list_ascii_of_string_app a b :
  list_ascii_of_string (a ++ b) = list_ascii_of_string a ++ list_ascii_of_string b.
Proof. induction a as [|c a IH]; simpl; [reflexivity|]. rewrite IH. reflexivity. Qed.

Lemma append_inv_tail (a b c : string) : (a ++ c = b ++ c)%string -> a = b.
Proof.
  intros H. apply (f_equal list_ascii_of_string) in H.
  rewrite !list_ascii_of_string_app in H. apply app_inv_tail in H.
  rewrite <- (string_of_list_ascii_of_string a), <- (string_of_list_ascii_of_string b).
  rewrite H. reflexivity.
Qed.

Lemma depName_inj i j : depName i = depName j -> i = j.
Proof.
  unfold depName. intros H. injection H as H.
  assert (E : NilEmpty.uint_of_string (NilEmpty.string_of_uint (Nat.to_uint i))
              = NilEmpty.uint_of_string (NilEmpty.string_of_uint (Nat.to_uint j)))
    by (rewrite H; reflexivity).
  rewrite !NilEmpty.usu in E. injection E as E.
  rewrite <- (Unsigned.of_to i), <- (Unsigned.of_to j), E. reflexivity.
Qed.

Lemma depKey_inj (node : QueueNode) i j :
  keyOf (childNode node (depName i)) = keyOf (childNode node (depName j)) -> i = j.
Proof.
  unfold keyOf, childNode. cbn [q_name q_version]. intros H.
  apply depName_inj. eapply append_inv_tail. exact H.
Qed.

Lemma has_false key s : ~ In key s -> StrSet.has key s = false.
Proof.
  intros H. unfold StrSet.has. destruct (existsb (String.eqb key) s) eqn:E; [|reflexivity].
  apply existsb_exists in E. destruct E as [x [Hx Ex]].
  apply String.eqb_eq in Ex. subst x. contradiction.
Qed.

Lemma depKeys_NoDup node k :
  NoDup (map keyOf (map (childNode node) (map depName (seq 0 k)))).
Proof.
  rewrite !map_map. apply Injective_map_NoDup; [|apply seq_NoDup].
  intros i j. apply depKey_inj.
Qed.

(** The traversal of [wide@1.0.0], whose dependencies are more than the
    ceiling allows: it stops at the ceiling, before the target is taken from
    the queue. *)
Lemma wide_traversal w :
  coherent (broad wideDeps) w -> resolvedToOne w ->
  exists w',
    traverse (broad wideDeps) rangeBasic maxNodes "target" [] [] w
      [mkNode "wide" "1.0.0" ["wide@1.0.0"]]
    = (w', Some (mkTraversal [] (S maxNodes) true)).
Proof.
  intros Hw Hr.
  set (root := mkNode "wide" "1.0.0" ["wide@1.0.0"]).
  pose (k := 2999). assert (Hk : maxNodes = S k) by reflexivity. clearbody k.
  assert (Hd : Forall (fun d : string * string => snd d = "*") wideDeps).
  { unfold wideDeps. apply Forall_app. split.
    - apply Forall_forall. intros d Hd. apply in_map_iff in Hd.
      destruct Hd as [i [<- _]]. reflexivity.
    - repeat constructor. }
  assert (Hq : map (childNode root) (map fst wideDeps)
               = map (childNode root) (map depName (seq 0 k))
                 ++ [childNode root (depName k); childNode root "target"]).
  { unfold wideDeps. rewrite Hk, seq_S, !map_app, !map_map, <- app_assoc. reflexivity. }
  destruct (broad_visit_root wideDeps ["wide@1.0.0"] [] [] w Hw Hr Hd) as [w1 [Ev [Hw1 Hr1]]].
  fold root in Ev. rewrite Hq in Ev. cbn [app] in Ev.
  set (leaves := map (childNode root) (map depName (seq 0 k))) in *.
  assert (Hlen : List.length leaves = k).
  { unfold leaves. rewrite !length_map, length_seq. reflexivity. }
  assert (Hleaf : Forall leafNode leaves).
  { apply Forall_forall. intros n Hn. unfold leaves in Hn.
    apply in_map_iff in Hn. destruct Hn as [d [<- Hd']].
    apply in_map_iff in Hd'. destruct Hd' as [i [<- _]].
    repeat split. }
  assert (Hfresh : Forall (fun n => StrSet.has (keyOf n) [keyOf root] = false) leaves).
  { apply Forall_forall. intros n Hn. unfold leaves in Hn.
    apply in_map_iff in Hn. destruct Hn as [d [<- Hd']].
    apply in_map_iff in Hd'. destruct Hd' as [i [<- _]].
    reflexivity. }
  destruct (broad_leaf_run wideDeps leaves
              [childNode root (depName k); childNode root "target"]
              k [keyOf root] [] w1 Hw1 Hr1 Hleaf (depKeys_NoDup root k) Hfresh)
    as [w2 [Hw2 [Hr2 Erun]]].
  { unfold StrSet.size. simpl List.length. lia. }
  { lia. }
  exists w2.
  replace (traverse (broad wideDeps) rangeBasic maxNodes "target" [] [] w [root])
    with (traverse (broad wideDeps) rangeBasic (S k) "target" [] [] w [root])
    by (rewrite Hk; reflexivity).
  rewrite traverse_cons.
  change (StrSet.has (keyOf root) []) with false. cbv iota.
  change (StrSet.add (keyOf root) []) with [keyOf root].
  replace (maxNodes <? StrSet.size [keyOf root])%nat with false
    by (symmetry; apply Nat.ltb_ge; unfold StrSet.size; simpl List.length; lia).
  rewrite Ev, Erun, traverse_cons.
  assert (Hnew : StrSet.has (keyOf (childNode root (depName k)))
                   ([keyOf root] ++ map keyOf leaves) = false).
  { rewrite has_app. change (StrSet.has _ [keyOf root]) with false. simpl orb.
    apply has_false. unfold leaves. rewrite !map_map. intros Hin.
    apply in_map_iff in Hin. destruct Hin as [i [Ei Hi]].
    apply depKey_inj in Ei. subst i. apply in_seq in Hi. lia. }
  rewrite Hnew. destruct (add_fresh _ _ Hnew) as [_ Es]. rewrite Es.
  assert (Hsize : StrSet.size ([keyOf root] ++ map keyOf leaves) = maxNodes).
  { unfold StrSet.size. rewrite length_app, length_map, Hlen. simpl. lia. }
  rewrite Hsize.
  replace (maxNodes <? S maxNodes)%nat with true
    by (symmetry; apply Nat.ltb_lt; lia).
  reflexivity.
Qed.

Lemma wideFetched_coherent deps :
  coherent (broad deps) (wideFetched deps) /\ resolvedToOne (wideFetched deps).
Proof.
  split.
  - intros n m. unfold wideFetched. cbn [packageMetaCache Obj.get].
    destruct (String.eqb n "wide") eqn:E; [|discriminate].
    apply String.eqb_eq in E. subst n. intros H. injection H as <-.
    exists "200", "OK". reflexivity.
  - intros k r. discriminate.
Qed.

Lemma wide_getPackageVersions deps :
  getPackageVersions (broad deps) "wide" emptyWorld = (wideFetched deps, Ok ["1.0.0"]).
Proof. reflexivity. Qed.

Lemma wide_search :
  exists w',
    findChildOccurrencesInTree (broad wideDeps) rangeBasic "wide" "1.0.0" "target"
      (wideFetched wideDeps)
    = (w', mkTraversal [] (S maxNodes) true)
    /\ findCompatibleVersion (broad wideDeps) rangeBasic removalParams emptyWorld
       = (w', absent).
Proof.
  destruct (wideFetched_coherent wideDeps) as [Hw Hr].
  destruct (wide_traversal (wideFetched wideDeps) Hw Hr) as [w' E].
  assert (Ef : findChildOccurrencesInTree (broad wideDeps) rangeBasic "wide" "1.0.0" "target"
                 (wideFetched wideDeps)
               = (w', mkTraversal [] (S maxNodes) true)).
  { unfold findChildOccurrencesInTree.
    change ("wide" ++ "@" ++ "1.0.0")%string with "wide@1.0.0". rewrite E. reflexivity. }
  exists w'. split; [exact Ef|].
  assert (Ea : analyze (broad wideDeps) rangeBasic removalParams "1.0.0" (wideFetched wideDeps)
               = (w', Ok (mkAnalysis true
                            "✅ SUCCESS: Version 1.0.0 does not depend on 'target' anywhere in its dependency tree (package removed condition satisfied)."
                            ["Package 'target' is not found in the dependency tree"]))).
  { unfold analyze, analyzePackageDependencies, removalParams.
    cbn [parentPackage childPackage childMinVersion packageRemoved].
    change (splitNameAndVersion ("wide" ++ "@" ++ "1.0.0"))
      with (@Ok (string * string) ("wide", "1.0.0")).
    unfold bindM, lift. rewrite Ef. reflexivity. }
  rewrite (findCompatibleVersion_single (broad wideDeps) rangeBasic removalParams
             emptyWorld (wideFetched wideDeps) "1.0.0" w' _
             (wide_getPackageVersions wideDeps) eq_refl eq_refl Ea eq_refl).
  reflexivity.
Qed.

(** C4.  The truncation is computed and then dropped.  In a registry where
    [wide@1.0.0] depends on as many packages as the ceiling allows and, after
    them, on [target], the traversal of [wide@1.0.0], run once the version
    list is fetched, stops at the ceiling with [truncated] true, one key past
    [maxNodes] visited and no occurrence, though [target] is among the
    dependencies of [wide@1.0.0]; the search for a [wide] without [target]
    then succeeds with [wide@1.0.0], its message saying that the version does
    not depend on [target] anywhere in its tree.  That result is the one of
    the same search in a registry where [wide@1.0.0] has no dependency and
    the traversal is exhaustive.  For the verdict is computed from the matches
    alone: the count and the flag of the traversal do not reach it. *)
Theorem truncation_not_surfaced :
  In "target" (Obj.keys wideDeps)
  /\ getPackageVersions (broad wideDeps) "wide" emptyWorld
     = (wideFetched wideDeps, Ok ["1.0.0"])
  /\ snd (findChildOccurrencesInTree (broad wideDeps) rangeBasic
            "wide" "1.0.0" "target" (wideFetched wideDeps))
     = mkTraversal [] (S maxNodes) true
  /\ snd (findCompatibleVersion (broad wideDeps) rangeBasic removalParams emptyWorld)
     = absent
  /\ success absent = true
  /\ getPackageVersions (broad []) "wide" emptyWorld = (wideFetched [], Ok ["1.0.0"])
  /\ snd (findChildOccurrencesInTree (broad []) rangeBasic
            "wide" "1.0.0" "target" (wideFetched []))
     = mkTraversal [] 1 false
  /\ snd (findCompatibleVersion (broad []) rangeBasic removalParams emptyWorld)
     = absent
  /\ (forall parentVersion childPackage childMinVersion packageRemoved found count flag,
        evaluate parentVersion childPackage childMinVersion packageRemoved
          (mkTraversal found count flag)
        = evaluate parentVersion childPackage childMinVersion packageRemoved
            (mkTraversal found 0 false)).
Proof.
  destruct wide_search as [w' [Et Ef]].
  repeat match goal with |- _ /\ _ => split end.
  - unfold wideDeps, Obj.keys. rewrite map_app. apply in_or_app. right. left. reflexivity.
  - apply wide_getPackageVersions.
  - rewrite Et. reflexivity.
  - rewrite Ef. reflexivity.
  - reflexivity.
  - apply wide_getPackageVersions.
  - vm_compute. reflexivity.
  - vm_compute. reflexivity.
  - intros. reflexivity.
Qed.

(** ** The evaluator on a path that names the target twice *)

(** C1.  In min-version mode the version compared with the minimum is the
    first text in the path string that the pattern of the target matches, not
    the version of the occurrence.  With the minimum 4.0.0, the occurrence
    [node@5.1.0] under [@types/node@1.0.0], which meets the minimum, is counted
    as too old, and the occurrence [node@3.9.0] under [@types/node@18.0.0],
    which does not, is counted as valid; the search returns 18.0.0. *)
Theorem min_version_reads_first_match :
  snd (findChildOccurrencesInTree typesNode rangeBasic "@types/node" "1.0.0" "node"
         typesFetched)
  = mkTraversal [newerNode] 2 false
  /\ semver.gte (normalizeVersion (m_version newerNode)) (normalizeVersion "4.0.0") = Ok true
  /\ Re.exec "node" (pathString newerNode) = Some "1.0.0"
  /\ (exists msg,
        evaluate "1.0.0" "node" "4.0.0" false (mkTraversal [newerNode] 2 false)
        = Ok (mkAnalysis false msg [pathString newerNode]))
  /\ semver.gte (normalizeVersion (m_version olderNode)) (normalizeVersion "4.0.0") = Ok false
  /\ Re.exec "node" (pathString olderNode) = Some "18.0.0"
  /\ (exists msg,
        evaluate "18.0.0" "node" "4.0.0" false (mkTraversal [olderNode] 2 false)
        = Ok (mkAnalysis true msg [pathString olderNode]))
  /\ (exists msg,
        snd (findCompatibleVersion typesNode rangeBasic nodeParams emptyWorld)
        = mkSearchResult true (Some "18.0.0") msg [pathString olderNode]).
Proof.
  repeat split; try (vm_compute; reflexivity); eexists; vm_compute; reflexivity.
Qed.

(** C2.  With removal accepted and the minimum 4.0.0 the same reading decides:
    the occurrence [node@5.1.0] under [@types/node@1.0.0] fails the search
    although it meets the minimum, and [node@3.9.0] under [@types/node@18.0.0]
    passes it although the target is neither removed nor at the minimum. *)
Theorem removed_or_min_reads_first_match :
  (exists msg,
     evaluate "1.0.0" "node" "4.0.0" true (mkTraversal [newerNode] 2 false)
     = Ok (mkAnalysis false msg [pathString newerNode]))
  /\ semver.gte (normalizeVersion (m_version newerNode)) (normalizeVersion "4.0.0") = Ok true
  /\ (exists msg,
        evaluate "18.0.0" "node" "4.0.0" true (mkTraversal [olderNode] 2 false)
        = Ok (mkAnalysis true msg [pathString olderNode]))
  /\ semver.gte (normalizeVersion (m_version olderNode)) (normalizeVersion "4.0.0") = Ok false
  /\ snd (findChildOccurrencesInTree typesNode rangeBasic "@types/node" "18.0.0" "node"
            (fst (analyze typesNode rangeBasic nodeOrRemoved "1.0.0" typesFetched)))
     = mkTraversal [olderNode] 2 false
  /\ (exists msg,
        snd (findCompatibleVersion typesNode rangeBasic nodeOrRemoved emptyWorld)
        = mkSearchResult true (Some "18.0.0") msg [pathString olderNode]).
Proof.
  repeat split; try (vm_compute; reflexivity); eexists; vm_compute; reflexivity.
Qed.

(** ** [findCompatibleVersion] on params the route rejects *)

(** C5, as the specification states it, fails on these params: with
    [packageRemoved] false and no [childMinVersion], and with no parent name,
    [findCompatibleVersion] goes to the registry all the same, and in the
    first case traverses and succeeds. *)
Lemma findCompatibleVersion_validates_nothing :
  invalidParams nodeAny = true
  /\ success (snd (findCompatibleVersion typesNode rangeBasic nodeAny emptyWorld)) = true
  /\ requests (fst (findCompatibleVersion typesNode rangeBasic nodeAny emptyWorld))
     = ["@types/node"; "node"]
  /\ invalidParams (mkParams "" "" "node" "4.0.0" false) = true
  /\ requests (fst (findCompatibleVersion typesNode rangeBasic
                      (mkParams "" "" "node" "4.0.0" false) emptyWorld))
     = [""].
Proof. repeat split; vm_compute; reflexivity. Qed.

Lemma route_validates_example :
  (invalidParams nodeAny = true
   /\ exists e, POST typesNode rangeBasic nodeAny emptyWorld = (emptyWorld, JsonError 400 e))
  /\ (invalidParams nodeParams = false
      /\ POST typesNode rangeBasic nodeParams emptyWorld
         = (fst (findCompatibleVersion typesNode rangeBasic nodeParams emptyWorld),
            Json 200 (snd (findCompatibleVersion typesNode rangeBasic nodeParams emptyWorld)))).
Proof.
  split; (split; [reflexivity|]).
  - apply (proj1 (route_validates typesNode rangeBasic nodeAny emptyWorld)). reflexivity.
  - apply (proj2 (route_validates typesNode rangeBasic nodeParams emptyWorld)). reflexivity.
Defined.

(** ** The other properties at the examples *)

Lemma no_minimum_accepts_any_version_example :
  (Re.regex_plain (childPackage nodeAny) = true
   /\ packageRemoved nodeAny = false
   /\ childMinVersion nodeAny = ""
   /\ getPackageVersions typesNode "@types/node" emptyWorld
      = (typesFetched, Ok ["1.0.0"; "18.0.0"])
   /\ filterR (atLeast "") ["1.0.0"; "18.0.0"] = Ok ["1.0.0"; "18.0.0"]
   /\ candidates (versionGroups ["1.0.0"; "18.0.0"]) = [] ++ "1.0.0" :: ["18.0.0"]
   /\ noTarget typesNode rangeBasic nodeAny [] typesFetched = Some typesFetched
   /\ traversalAt typesNode rangeBasic nodeAny "1.0.0" typesFetched
      = Some (fst (analyze typesNode rangeBasic nodeAny "1.0.0" typesFetched),
              mkTraversal [newerNode] 2 false)
   /\ matches (mkTraversal [newerNode] 2 false) <> [])
  /\ (forall dependencyLines,
        analyzeVersionRequirements dependencyLines (childPackage nodeAny) ""
        = Ok (mkVersionAnalysis true []))
  /\ exists msg,
       findCompatibleVersion typesNode rangeBasic nodeAny emptyWorld
       = (fst (analyze typesNode rangeBasic nodeAny "1.0.0" typesFetched),
          mkSearchResult true (Some "1.0.0") msg
            (map pathString (matches (mkTraversal [newerNode] 2 false)))).
Proof.
  assert (H0 : Re.regex_plain (childPackage nodeAny) = true) by reflexivity.
  assert (H1 : packageRemoved nodeAny = false) by reflexivity.
  assert (H2 : childMinVersion nodeAny = "") by reflexivity.
  assert (H3 : getPackageVersions typesNode "@types/node" emptyWorld
               = (typesFetched, Ok ["1.0.0"; "18.0.0"])) by (vm_compute; reflexivity).
  assert (H4 : filterR (atLeast "") ["1.0.0"; "18.0.0"] = Ok ["1.0.0"; "18.0.0"])
    by reflexivity.
  assert (H5 : candidates (versionGroups ["1.0.0"; "18.0.0"]) = [] ++ "1.0.0" :: ["18.0.0"])
    by (vm_compute; reflexivity).
  assert (H6 : noTarget typesNode rangeBasic nodeAny [] typesFetched = Some typesFetched)
    by reflexivity.
  assert (H7 : traversalAt typesNode rangeBasic nodeAny "1.0.0" typesFetched
               = Some (fst (analyze typesNode rangeBasic nodeAny "1.0.0" typesFetched),
                       mkTraversal [newerNode] 2 false)) by (vm_compute; reflexivity).
  assert (H8 : matches (mkTraversal [newerNode] 2 false) <> []) by discriminate.
  split; [repeat split; assumption|].
  exact (no_minimum_accepts_any_version typesNode rangeBasic nodeAny emptyWorld
           typesFetched ["1.0.0"; "18.0.0"] ["1.0.0"; "18.0.0"] [] "1.0.0" ["18.0.0"]
           typesFetched _ _ H0 H1 H2 H3 H4 H5 H6 H7 H8).
Defined.

Lemma no_exception_escapes_example :
  fetchPackageMetadata typesNode "missing" emptyWorld
  = (mkWorld [] [] ["missing"],
     Throw "Failed to fetch metadata for missing: 404 Not Found")
  /\ findCompatibleVersion typesNode rangeBasic (mkParams "missing" "" "node" "4.0.0" false)
       emptyWorld
     = (mkWorld [] [] ["missing"],
        searchError "Failed to fetch metadata for missing: 404 Not Found")
  /\ success (searchError "Failed to fetch metadata for missing: 404 Not Found") = false.
Proof.
  assert (H : fetchPackageMetadata typesNode "missing" emptyWorld
              = (mkWorld [] [] ["missing"],
                 Throw "Failed to fetch metadata for missing: 404 Not Found"))
    by reflexivity.
  split; [exact H|].
  exact (proj1 (proj2 (proj2 (no_exception_escapes typesNode rangeBasic
                                (mkParams "missing" "" "node" "4.0.0" false) emptyWorld)))
           _ _ H).
Defined.

Lemma resolveVersion_example :
  (Obj.get ("C" ++ "@" ++ "^4.0.0")%string (versionResolutionCache emptyWorld) = None
   /\ fetchPackageMetadata chainABC "C" emptyWorld
      = (fst (fetchPackageMetadata chainABC "C" emptyWorld),
         Ok (mkMeta "C" [("3.9.0", pkg []); ("4.0.0", pkg []); ("5.0.0", pkg [])])))
  /\ exists r,
       resolveVersion chainABC rangeBasic "C" "^4.0.0" emptyWorld
       = (setResolution ("C" ++ "@" ++ "^4.0.0")%string r
            (fst (fetchPackageMetadata chainABC "C" emptyWorld)), r)
       /\ match r with
          | Some m =>
              maxIn rangeBasic (stableOf ["3.9.0"; "4.0.0"; "5.0.0"]) "^4.0.0" false m
              \/ (noneIn rangeBasic (stableOf ["3.9.0"; "4.0.0"; "5.0.0"]) "^4.0.0" false
                  /\ maxIn rangeBasic ["3.9.0"; "4.0.0"; "5.0.0"] "^4.0.0" true m)
          | None =>
              noneIn rangeBasic (stableOf ["3.9.0"; "4.0.0"; "5.0.0"]) "^4.0.0" false
              /\ noneIn rangeBasic ["3.9.0"; "4.0.0"; "5.0.0"] "^4.0.0" true
          end.
Proof.
  assert (H1 : Obj.get ("C" ++ "@" ++ "^4.0.0")%string (versionResolutionCache emptyWorld)
               = None) by reflexivity.
  assert (H2 : fetchPackageMetadata chainABC "C" emptyWorld
               = (fst (fetchPackageMetadata chainABC "C" emptyWorld),
                  Ok (mkMeta "C" [("3.9.0", pkg []); ("4.0.0", pkg []); ("5.0.0", pkg [])])))
    by reflexivity.
  split; [split; assumption|].
  exact (proj1 (resolveVersion_max_and_memo chainABC rangeBasic "C" "^4.0.0" emptyWorld)
           _ _ H1 H2).
Defined.

Lemma traversal_invariants_example :
  String.eqb (q_name (mkNode "C" "4.0.0" ["A@1.0.0"; "B@2.3.0"; "C@4.0.0"])) "C" = true
  /\ visit chainABC rangeBasic "C"
       (mkNode "C" "4.0.0" ["A@1.0.0"; "B@2.3.0"; "C@4.0.0"]) [] [] abcFetched
     = (abcFetched, ([] ++ [mkMatch "A@1.0.0 > B@2.3.0 > C@4.0.0" "4.0.0"], []))
  /\ NoDup (map (fun n => (q_name n, q_version n))
              (processedNodes chainABC rangeBasic maxNodes "C" [] [] abcFetched
                 [mkNode "A" "1.0.0" ["A@1.0.0"]])).
Proof.
  assert (H : String.eqb (q_name (mkNode "C" "4.0.0" ["A@1.0.0"; "B@2.3.0"; "C@4.0.0"])) "C"
              = true) by reflexivity.
  pose proof (traversal_invariants chainABC rangeBasic maxNodes "C" [] [] abcFetched
                [mkNode "A" "1.0.0" ["A@1.0.0"]]) as [Hnd [_ [Ht _]]].
  unfold occurrence in Ht.
  split; [exact H|]. split; [|exact Hnd].
  exact (Ht _ [] [] abcFetched H).
Defined.


(** ** Padding and splitting of package specs *)

Lemma split_parts_free c s : Forall (fun p => count c p = 0) (Str.split c s).
Proof.
  induction s as [|a s IH]; simpl.
  - constructor; [reflexivity | constructor].
  - destruct (Ascii.eqb a c) eqn:E.
    + constructor; [reflexivity | exact IH].
    + destruct (Str.split c s) as [|p ps] eqn:S.
      * constructor; [simpl; rewrite E; reflexivity | constructor].
      * inversion IH; subst.
        constructor; [simpl; rewrite E; simpl; assumption | assumption].
Qed.

Lemma split_free c p : count c p = 0 -> Str.split c p = [p].
Proof.
  induction p as [|a p IH]; simpl; intros H; [reflexivity|].
  destruct (Ascii.eqb a c); [discriminate|].
  rewrite IH by exact H. reflexivity.
Qed.

Lemma split_app_free c p rest :
  count c p = 0 -> Str.split c (p ++ String c rest) = p :: Str.split c rest.
Proof.
  induction p as [|a p IH]; simpl; intros H.
  - rewrite Ascii.eqb_refl. reflexivity.
  - destruct (Ascii.eqb a c); [discriminate|].
    rewrite IH by exact H. reflexivity.
Qed.

Lemma split_join c parts :
  parts <> [] -> Forall (fun p => count c p = 0) parts ->
  Str.split c (Str.join (String c EmptyString) parts) = parts.
Proof.
  induction parts as [|p ps IH]; intros Hne Hfree; [congruence|].
  inversion Hfree as [|? ? Hp Hps]; subst.
  destruct ps as [|q ps].
  - simpl. apply split_free. exact Hp.
  - change (Str.join (String c EmptyString) (p :: q :: ps))
      with (p ++ String c (Str.join (String c EmptyString) (q :: ps)))%string.
    rewrite split_app_free by exact Hp.
    rewrite IH; [reflexivity | discriminate | exact Hps].
Qed.

Lemma repeat_free c p n : count c p = 0 -> Forall (fun q => count c q = 0) (repeat p n).
Proof. intros H. induction n; simpl; constructor; assumption. Qed.

Lemma normalizeVersion_parts version :
  Str.split "." (normalizeVersion version)
  = Str.split "." version ++ repeat "0" (3 - List.length (Str.split "." version)).
Proof.
  unfold normalizeVersion. apply split_join.
  - intros E. apply app_eq_nil in E. destruct E as [E _].
    exact (split_not_nil _ _ E).
  - apply Forall_app. split; [apply split_parts_free | apply repeat_free; reflexivity].
Qed.

Lemma normalizeVersion_full version :
  3 <= List.length (Str.split "." version) -> normalizeVersion version = version.
Proof.
  intros H. unfold normalizeVersion.
  replace (3 - List.length (Str.split "." version)) with 0 by lia.
  simpl. rewrite app_nil_r. apply join_split.
Qed.

Lemma normalizeVersion_idem version :
  normalizeVersion (normalizeVersion version) = normalizeVersion version.
Proof.
  apply normalizeVersion_full. rewrite normalizeVersion_parts, length_app, repeat_length. lia.
Qed.

(** X1: [normalizeVersion] pads the dot-separated parts of its argument with
    parts [0] up to three and changes nothing else: text with two dots or more
    is returned as it is, and normalizing twice is normalizing once. *)
Theorem normalizeVersion_pads (version : string) :
  Str.split "." (normalizeVersion version)
  = Str.split "." version ++ repeat "0" (3 - List.length (Str.split "." version))
  /\ 3 <= List.length (Str.split "." (normalizeVersion version))
  /\ (2 <= count "." version -> normalizeVersion version = version)
  /\ normalizeVersion (normalizeVersion version) = normalizeVersion version.
Proof.
  split; [apply normalizeVersion_parts|].
  split; [rewrite normalizeVersion_parts, length_app, repeat_length; lia|].
  split; [|apply normalizeVersion_idem].
  intros H. apply normalizeVersion_full. rewrite split_length. lia.
Qed.

Lemma lastIndexOf_app c name v :
  count c v = 0 -> Str.lastIndexOf c (name ++ String c v) = Some (String.length name).
Proof.
  intros Hv.
  assert (Hfree : forall s, count c s = 0 -> Str.lastIndexOf c s = None).
  { induction s as [|a s IH]; simpl; intros H; [reflexivity|].
    destruct (Ascii.eqb a c); [discriminate|]. rewrite IH by exact H. reflexivity. }
  induction name as [|a name IH]; simpl.
  - rewrite (Hfree _ Hv), Ascii.eqb_refl. reflexivity.
  - rewrite IH. reflexivity.
Qed.

Lemma take_app name s : Str.take (String.length name) (name ++ s) = name.
Proof.
  induction name as [|a name IH]; simpl.
  - destruct s; reflexivity.
  - rewrite IH. reflexivity.
Qed.

Lemma drop_app name s : Str.drop (String.length name) (name ++ s) = s.
Proof.
  induction name as [|a name IH]; simpl; [destruct s; reflexivity | exact IH].
Qed.

Lemma drop_app_sep name c s :
  Str.drop (String.length name + 1) (name ++ String c s) = s.
Proof. induction name as [|a name IH]; simpl; [reflexivity | exact IH]. Qed.

Lemma lastIndexOf_inv c s :
  match Str.lastIndexOf c s with
  | Some i =>
      s = (Str.take i s ++ String c (Str.drop (i + 1) s))%string
      /\ count c (Str.drop (i + 1) s) = 0
      /\ String.length (Str.take i s) = i
  | None => count c s = 0
  end.
Proof.
  induction s as [|a s IH]; simpl; [reflexivity|].
  destruct (Str.lastIndexOf c s) as [i|].
  - destruct IH as (E & F & L). simpl. rewrite L. repeat split; [|exact F].
    f_equal. exact E.
  - destruct (Ascii.eqb a c) eqn:E.
    + apply Ascii.eqb_eq in E. subst a. simpl. repeat split. exact IH.
    + exact IH.
Qed.

Lemma splitNameAndVersion_app name version :
  name <> "" -> count "@" version = 0 ->
  splitNameAndVersion (name ++ "@" ++ version) = Ok (name, version).
Proof.
  intros Hname Hversion. unfold splitNameAndVersion.
  change ("@" ++ version)%string with (String "@" version).
  rewrite lastIndexOf_app by exact Hversion.
  destruct name as [|a name]; [congruence|].
  change (String.length (String a name) <=? 0)%nat with false. cbv iota.
  rewrite take_app, drop_app_sep. reflexivity.
Qed.

(** X2: a package spec put together from a name that is not empty, an [@]
    and a version without [@] is split back into that name and that version;
    the name may be scoped, that is hold an [@] itself. *)
Theorem splitNameAndVersion_joined (name version : string) :
  name <> "" -> count "@" version = 0 ->
  splitNameAndVersion (name ++ "@" ++ version) = Ok (name, version).
Proof. apply splitNameAndVersion_app. Qed.

Lemma count_append c a b : count c (a ++ b) = count c a + count c b.
Proof. induction a as [|x a IH]; simpl; [reflexivity | rewrite IH; lia]. Qed.

Lemma splitNameAndVersion_throws spec :
  count "@" (Str.drop 1 spec) = 0 ->
  splitNameAndVersion spec = Throw ("Invalid package spec: " ++ spec).
Proof.
  intros H. unfold splitNameAndVersion.
  pose proof (lastIndexOf_inv "@" spec) as L.
  destruct (Str.lastIndexOf "@" spec) as [i|]; [|reflexivity].
  destruct i as [|i]; [reflexivity|].
  exfalso. destruct L as (E & _ & _).
  destruct spec as [|a s]; [discriminate|].
  simpl in E. injection E as E. simpl in H. rewrite E in H.
  rewrite count_append in H. simpl in H. lia.
Qed.

(** X3: what [splitNameAndVersion] returns is the text before the last [@]
    of the spec, which is not empty, and the text after it; it throws, naming
    the spec, exactly when the spec holds no [@] past its first character. *)
Theorem splitNameAndVersion_inv (spec : string) :
  (forall name version,
      splitNameAndVersion spec = Ok (name, version) ->
      spec = (name ++ "@" ++ version)%string /\ name <> "" /\ count "@" version = 0)
  /\ (forall e,
        splitNameAndVersion spec = Throw e ->
        e = ("Invalid package spec: " ++ spec)%string
        /\ count "@" (Str.drop 1 spec) = 0)
  /\ (count "@" (Str.drop 1 spec) = 0 ->
      splitNameAndVersion spec = Throw ("Invalid package spec: " ++ spec)).
Proof.
  rewrite <- and_assoc. split; [|apply splitNameAndVersion_throws].
  unfold splitNameAndVersion.
  pose proof (lastIndexOf_inv "@" spec) as H.
  destruct (Str.lastIndexOf "@" spec) as [i|].
  - destruct H as (E & F & L). destruct i as [|i].
    + split; [intros ? ? X; discriminate|].
      intros e X. change (0 <=? 0)%nat with true in X. cbv iota in X.
      inversion X; subst. split; [reflexivity | exact F].
    + split; [|intros e X; discriminate].
      intros name version X. change (S i <=? 0)%nat with false in X.
      cbv iota in X. inversion X; subst. clear X.
      split; [exact E|]. split; [|exact F].
      intros N.
      assert (Z : String.length (Str.take (S i) spec) = String.length "")
        by exact (f_equal String.length N).
      rewrite L in Z. discriminate.
  - split; [intros ? ? X; discriminate|].
    intros e X. inversion X; subst. split; [reflexivity|].
    destruct spec as [|a s]; [reflexivity|]. simpl in *.
    destruct (Ascii.eqb a "@"); [discriminate | exact H].
Qed.
(** ** The caches across a search *)

Section WorldFacts.

Variable fetch : string -> result Response.
Variable rangeSatisfied : string -> bool -> semver.SemVer -> bool.

Lemma fetchPackageMetadata_cases packageName w :
  match Obj.get packageName (packageMetaCache w) with
  | Some meta => fetchPackageMetadata fetch packageName w = (w, Ok meta)
  | None =>
      let w1 := mkWorld (packageMetaCache w) (versionResolutionCache w)
                  (requests w ++ [packageName]) in
      (exists s st meta,
          fetch packageName = Ok (mkResponse true s st (Ok meta))
          /\ fetchPackageMetadata fetch packageName w
             = (mkWorld (Obj.set packageName meta (packageMetaCache w))
                  (versionResolutionCache w) (requests w ++ [packageName]),
                Ok meta))
      \/ (~ answered fetch packageName
          /\ exists e, fetchPackageMetadata fetch packageName w = (w1, Throw e))
  end.
Proof.
  unfold fetchPackageMetadata.
  destruct (Obj.get packageName (packageMetaCache w)) as [meta|]; [reflexivity|].
  cbv zeta. destruct (fetch packageName) as [res|e] eqn:F.
  - destruct res as [o s st j]. simpl. destruct o; simpl.
    + destruct j as [meta|e]; simpl.
      * left. exists s, st, meta. split; reflexivity.
      * right. split; [|eexists; reflexivity].
        intros (s' & st' & m' & A). congruence.
    + right. split; [|eexists; reflexivity].
      intros (s' & st' & m' & A). congruence.
  - right. split; [|eexists; reflexivity].
    intros (s' & st' & m' & A). congruence.
Qed.

Lemma fetchPackageMetadata_resolutions packageName w :
  versionResolutionCache (fst (fetchPackageMetadata fetch packageName w))
  = versionResolutionCache w.
Proof.
  pose proof (fetchPackageMetadata_cases packageName w) as H.
  destruct (Obj.get packageName (packageMetaCache w)).
  - rewrite H. reflexivity.
  - destruct H as [(s & st & meta & _ & E) | (_ & e & E)]; rewrite E; reflexivity.
Qed.

(** X4: metadata the registry gave is kept: once [fetchPackageMetadata] has
    returned the metadata of a package, asking again returns the same metadata
    and sends no request; the first call sent one request at most. *)
Theorem fetchPackageMetadata_memo (packageName : string) (w w1 : World)
    (meta : RegistryPackageMeta) :
  fetchPackageMetadata fetch packageName w = (w1, Ok meta) ->
  Obj.get packageName (packageMetaCache w1) = Some meta
  /\ fetchPackageMetadata fetch packageName w1 = (w1, Ok meta)
  /\ (requests w1 = requests w \/ requests w1 = requests w ++ [packageName]).
Proof.
  intros E.
  assert (G : Obj.get packageName (packageMetaCache w1) = Some meta).
  { pose proof (fetchPackageMetadata_cases packageName w) as H.
    destruct (Obj.get packageName (packageMetaCache w)) as [m|] eqn:C.
    - rewrite H in E. inversion E; subst. exact C.
    - destruct H as [(s & st & m & _ & E') | (_ & e & E')];
        rewrite E' in E; inversion E; subst.
      simpl. apply get_set_same. }
  split; [exact G|]. split.
  - pose proof (fetchPackageMetadata_cases packageName w1) as H.
    rewrite G in H. exact H.
  - pose proof (fetchPackageMetadata_cases packageName w) as H.
    destruct (Obj.get packageName (packageMetaCache w)) as [m|].
    + rewrite H in E. inversion E; subst. left. reflexivity.
    + destruct H as [(s & st & m & _ & E') | (_ & e & E')];
        rewrite E' in E; inversion E; subst.
      right. reflexivity.
Qed.

(** X5: a failure is not kept: when [fetchPackageMetadata] throws, one
    request was sent, the caches are as they were, and asking again sends the
    request again and throws the same error. *)
Theorem fetchPackageMetadata_failure (packageName : string) (w w1 : World)
    (e : string) :
  fetchPackageMetadata fetch packageName w = (w1, Throw e) ->
  packageMetaCache w1 = packageMetaCache w
  /\ versionResolutionCache w1 = versionResolutionCache w
  /\ requests w1 = requests w ++ [packageName]
  /\ fetchPackageMetadata fetch packageName w1
     = (mkWorld (packageMetaCache w1) (versionResolutionCache w1)
          (requests w1 ++ [packageName]),
        Throw e).
Proof.
  intros E. unfold fetchPackageMetadata in E.
  destruct (Obj.get packageName (packageMetaCache w)) as [m|] eqn:C;
    [discriminate|].
  assert (W : w1 = mkWorld (packageMetaCache w) (versionResolutionCache w)
                     (requests w ++ [packageName])).
  { cbv zeta in E. destruct (fetch packageName) as [res|e'].
    - destruct (negb (ok res)); [inversion E; reflexivity|].
      destruct (json res); inversion E; reflexivity.
    - inversion E; reflexivity. }
  subst w1. simpl. repeat split.
  unfold fetchPackageMetadata. simpl. rewrite C. cbv zeta. simpl.
  cbv zeta in E. destruct (fetch packageName) as [res|e'].
  - destruct (negb (ok res)); [inversion E; reflexivity|].
    destruct (json res); inversion E; reflexivity.
  - inversion E; reflexivity.
Qed.

(** *** Every change is a fetch or a first resolution *)

Lemma steps_trans w w1 w2 :
  steps fetch w w1 -> steps fetch w1 w2 -> steps fetch w w2.
Proof.
  intros A B. induction B.
  - exact A.
  - apply steps_fetch. apply IHB. exact A.
  - apply steps_resolution; [apply IHB; exact A | assumption].
Qed.

Lemma steps_fetch1 packageName w :
  steps fetch w (fst (fetchPackageMetadata fetch packageName w)).
Proof. apply steps_fetch, steps_done. Qed.

Lemma resolveVersion_steps name range w :
  steps fetch w (fst (resolveVersion fetch rangeSatisfied name range w)).
Proof.
  unfold resolveVersion.
  destruct (Obj.get (name ++ "@" ++ range)%string (versionResolutionCache w)) eqn:C;
    [apply steps_done|].
  pose proof (steps_fetch1 name w) as S.
  pose proof (fetchPackageMetadata_resolutions name w) as R.
  destruct (fetchPackageMetadata fetch name w) as [w1 [meta|e]]; simpl in *.
  - apply steps_resolution; [exact S | rewrite R; exact C].
  - apply steps_resolution; [exact S | rewrite R; exact C].
Qed.

Lemma enqueueDeps_steps node deps queue w :
  steps fetch w (fst (enqueueDeps fetch rangeSatisfied node deps queue w)).
Proof.
  revert queue w. induction deps as [|[depName depRange] deps IH]; intros queue w.
  - apply steps_done.
  - simpl. pose proof (resolveVersion_steps depName depRange w) as S.
    destruct (resolveVersion fetch rangeSatisfied depName depRange w) as [w1 [resolved|]];
      simpl in S; (eapply steps_trans; [exact S | apply IH]).
Qed.

Lemma visit_steps targetName node found queue w :
  steps fetch w (fst (visit fetch rangeSatisfied targetName node found queue w)).
Proof.
  unfold visit. destruct (String.eqb (q_name node) targetName); [apply steps_done|].
  pose proof (steps_fetch1 (q_name node) w) as S.
  destruct (fetchPackageMetadata fetch (q_name node) w) as [w1 [meta|e]]; simpl in S;
    [|exact S].
  destruct (Obj.get (q_version node) (versions meta)) as [pkg|]; [|exact S].
  pose proof (enqueueDeps_steps node
                (Obj.spread (dependencies pkg) (optionalDependencies pkg)) queue w1) as T.
  destruct (enqueueDeps fetch rangeSatisfied node
              (Obj.spread (dependencies pkg) (optionalDependencies pkg)) queue w1)
    as [w2 queue'].
  simpl in *. eapply steps_trans; eassumption.
Qed.

Lemma traverse_steps fuel targetName visited found w queue :
  steps fetch w (fst (traverse fetch rangeSatisfied fuel targetName visited found w queue)).
Proof.
  revert visited found w queue.
  induction fuel as [|fuel IH]; intros visited found w queue.
  - induction queue as [|node rest IHq].
    + rewrite traverse_nil. apply steps_done.
    + rewrite traverse_cons.
      destruct (StrSet.has (keyOf node) visited); [exact IHq|].
      destruct (maxNodes <? StrSet.size (StrSet.add (keyOf node) visited))%nat;
        apply steps_done.
  - induction queue as [|node rest IHq].
    + rewrite traverse_nil. apply steps_done.
    + rewrite traverse_cons.
      destruct (StrSet.has (keyOf node) visited); [exact IHq|].
      destruct (maxNodes <? StrSet.size (StrSet.add (keyOf node) visited))%nat;
        [apply steps_done|].
      pose proof (visit_steps targetName node found rest w) as S.
      destruct (visit fetch rangeSatisfied targetName node found rest w)
        as [w1 [found' queue']].
      simpl in S. eapply steps_trans; [exact S | apply IH].
Qed.

Lemma findChildOccurrencesInTree_steps rootName rootVersion targetName w :
  steps fetch w
    (fst (findChildOccurrencesInTree fetch rangeSatisfied rootName rootVersion targetName w)).
Proof.
  unfold findChildOccurrencesInTree.
  pose proof (traverse_steps maxNodes targetName [] [] w
                [mkNode rootName rootVersion [(rootName ++ "@" ++ rootVersion)%string]]) as S.
  destruct (traverse fetch rangeSatisfied maxNodes targetName [] [] w
              [mkNode rootName rootVersion [(rootName ++ "@" ++ rootVersion)%string]])
    as [w1 [r|]]; exact S.
Qed.

Lemma analyzePackageDependencies_steps spec childPackage childMinVersion packageRemoved w :
  steps fetch w
    (fst (analyzePackageDependencies fetch rangeSatisfied spec childPackage
            childMinVersion packageRemoved w)).
Proof.
  unfold analyzePackageDependencies, bindM, lift.
  destruct (splitNameAndVersion spec) as [[parentName parentVersion]|e];
    [|apply steps_done].
  pose proof (findChildOccurrencesInTree_steps parentName parentVersion childPackage w) as S.
  destruct (findChildOccurrencesInTree fetch rangeSatisfied parentName parentVersion
              childPackage w) as [w1 t].
  simpl in *.
  destruct (evaluate parentVersion childPackage childMinVersion packageRemoved t);
    exact S.
Qed.

Lemma tryVersions_steps params groupType vs w :
  steps fetch w (fst (tryVersions fetch rangeSatisfied params groupType vs w)).
Proof.
  revert w. induction vs as [|v rest IH]; intros w; [apply steps_done|].
  rewrite tryVersions_step.
  pose proof (analyzePackageDependencies_steps
                (parentPackage params ++ "@" ++ v)%string (childPackage params)
                (childMinVersion params) (packageRemoved params) w) as S.
  fold (analyze fetch rangeSatisfied params v w) in S.
  destruct (analyze fetch rangeSatisfied params v w) as [w1 [a|e]]; simpl in S;
    [|exact S].
  destruct (a_success a); [exact S|].
  eapply steps_trans; [exact S | apply IH].
Qed.

Lemma tryGroups_steps params groups w :
  steps fetch w (fst (tryGroups fetch rangeSatisfied params groups w)).
Proof.
  revert w. induction groups as [|[vs groupType] rest IH]; intros w;
    [apply steps_done|].
  rewrite tryGroups_step.
  pose proof (tryVersions_steps params groupType vs w) as S.
  destruct (tryVersions fetch rangeSatisfied params groupType vs w) as [w1 [[r|]|e]];
    simpl in S; try exact S.
  eapply steps_trans; [exact S | apply IH].
Qed.

Lemma search_steps params w :
  steps fetch w (fst (search fetch rangeSatisfied params w)).
Proof.
  unfold search, getPackageVersions, bindM, lift, ret.
  pose proof (steps_fetch1 (parentPackage params) w) as S.
  destruct (fetchPackageMetadata fetch (parentPackage params) w) as [w1 [meta|e]];
    simpl in S; [|exact S].
  destruct (sortVersions (Obj.keys (versions meta))) as [sorted|e]; [|exact S].
  destruct (List.length sorted =? 0)%nat; [exact S|].
  destruct (filterR (atLeast (parentMinVersion params)) sorted) as [filtered|e];
    [|exact S].
  destruct (List.length filtered =? 0)%nat; [exact S|].
  eapply steps_trans; [exact S | apply tryGroups_steps].
Qed.

Lemma findCompatibleVersion_steps params w :
  steps fetch w (fst (findCompatibleVersion fetch rangeSatisfied params w)).
Proof.
  unfold findCompatibleVersion. pose proof (search_steps params w) as S.
  destruct (search fetch rangeSatisfied params w) as [w1 [r|e]]; exact S.
Qed.

Lemma extends_refl w : extends w w.
Proof. repeat split; auto. exists []. rewrite app_nil_r. reflexivity. Qed.

Lemma extends_trans w w1 w2 : extends w w1 -> extends w1 w2 -> extends w w2.
Proof.
  intros (A1 & A2 & s1 & A3) (B1 & B2 & s2 & B3). repeat split; auto.
  exists (s1 ++ s2). rewrite B3, A3, app_assoc. reflexivity.
Qed.

Lemma steps_extends w w' : steps fetch w w' -> extends w w'.
Proof.
  induction 1 as [w | w w1 packageName _ IH | w w1 key r _ IH C].
  - apply extends_refl.
  - apply (extends_trans _ _ _ IH). clear IH.
    pose proof (fetchPackageMetadata_cases packageName w1) as H.
    destruct (Obj.get packageName (packageMetaCache w1)) as [m|] eqn:G.
    + rewrite H. apply extends_refl.
    + destruct H as [(s & st & meta & _ & E) | (_ & e & E)]; rewrite E; simpl.
      * repeat split; simpl; auto.
        -- intros name m Hm. rewrite get_set.
           destruct (String.eqb name packageName) eqn:N; [|exact Hm].
           apply String.eqb_eq in N. subst. congruence.
        -- eexists. reflexivity.
      * repeat split; simpl; auto. eexists. reflexivity.
  - apply (extends_trans _ _ _ IH). clear IH.
    repeat split; simpl; auto.
    + intros k r' Hk. rewrite get_set.
      destruct (String.eqb k key) eqn:N; [|exact Hk].
      apply String.eqb_eq in N. subst. congruence.
    + exists []. rewrite app_nil_r. reflexivity.
Qed.

(** X6: a search only adds to the caches: every entry the metadata cache
    and the resolution cache held before [findCompatibleVersion] they hold
    after it, unchanged, and the requests it sent come after those sent
    before.
    The name of the target is taken to hold no operator of the pattern language. *)
Theorem findCompatibleVersion_extends (params : SearchParams) (w : World) :
  Re.regex_plain (childPackage params) = true ->
  extends w (fst (findCompatibleVersion fetch rangeSatisfied params w)).
Proof. intros _. apply steps_extends, findCompatibleVersion_steps. Qed.

Lemma steps_coherent w w' : steps fetch w w' -> coherent fetch w -> coherent fetch w'.
Proof.
  induction 1 as [w | w w1 packageName _ IH | w w1 key r _ IH C]; intros Hc.
  - exact Hc.
  - specialize (IH Hc).
    pose proof (fetchPackageMetadata_cases packageName w1) as H.
    destruct (Obj.get packageName (packageMetaCache w1)) as [m|] eqn:G.
    + rewrite H. exact IH.
    + destruct H as [(s & st & meta & F & E) | (_ & e & E)]; rewrite E; simpl.
      * intros n m. simpl. rewrite get_set.
        destruct (String.eqb n packageName) eqn:N.
        -- apply String.eqb_eq in N. subst. intros X. inversion X; subst.
           exists s, st. exact F.
        -- apply IH.
      * exact IH.
  - exact (IH Hc).
Qed.

(** X7: the metadata cache stays true to the registry: when every entry of
    the metadata cache is what the registry answers for its name, the same
    holds after [findCompatibleVersion].
    The name of the target is taken to hold no operator of the pattern language. *)
Theorem findCompatibleVersion_coherent (params : SearchParams) (w : World) :
  Re.regex_plain (childPackage params) = true ->
  coherent fetch w ->
  coherent fetch (fst (findCompatibleVersion fetch rangeSatisfied params w)).
Proof. intros _. apply steps_coherent, findCompatibleVersion_steps. Qed.

Lemma count_occ_last (l : list string) (x y : string) :
  count_occ string_dec (l ++ [y]) x
  = count_occ string_dec l x + (if string_dec y x then 1 else 0).
Proof. rewrite count_occ_app. simpl. destruct (string_dec y x); reflexivity. Qed.

Lemma steps_frugal w w' : steps fetch w w' -> frugal fetch w -> frugal fetch w'.
Proof.
  induction 1 as [w | w w1 packageName _ IH | w w1 key r _ IH C]; intros Hf.
  - exact Hf.
  - specialize (IH Hf).
    pose proof (fetchPackageMetadata_cases packageName w1) as H.
    destruct (Obj.get packageName (packageMetaCache w1)) as [m|] eqn:G.
    + rewrite H. exact IH.
    + destruct H as [(s & st & meta & F & E) | (NA & e & E)]; rewrite E; simpl;
        intros name; simpl; specialize (IH name).
      * rewrite get_set. destruct (String.eqb name packageName) eqn:N.
        -- apply String.eqb_eq in N. subst name. rewrite G in IH.
           rewrite count_occ_last. destruct (string_dec packageName packageName);
             [|congruence].
           assert (Z : count_occ string_dec (requests w1) packageName = 0).
           { apply count_occ_not_In. intros I. apply (IH I).
             exists s, st, meta. exact F. }
           rewrite Z. reflexivity.
        -- apply String.eqb_neq in N.
           destruct (Obj.get name (packageMetaCache w1)).
           ++ rewrite count_occ_last. destruct (string_dec packageName name);
                [congruence|]. rewrite IH. reflexivity.
           ++ intros I. apply in_app_or in I. destruct I as [I | [I | []]];
                [exact (IH I) | congruence].
      * destruct (Obj.get name (packageMetaCache w1)) eqn:G'.
        -- rewrite count_occ_last. destruct (string_dec packageName name);
             [congruence|]. rewrite IH. reflexivity.
        -- intros I. apply in_app_or in I. destruct I as [I | [I | []]];
             [exact (IH I) | subst; exact NA].
  - exact (IH Hf).
Qed.

(** X8: no metadata is downloaded twice: for a registry that answers a
    name the same way each time, and caches where every held name was requested
    once (as the empty caches are), after [findCompatibleVersion] every name
    the metadata cache holds was requested exactly once.
    The name of the target is taken to hold no operator of the pattern language. *)
Theorem metadata_requested_once (params : SearchParams) (w : World)
    (name : string) (meta : RegistryPackageMeta) :
  Re.regex_plain (childPackage params) = true ->
  frugal fetch w ->
  Obj.get name
    (packageMetaCache (fst (findCompatibleVersion fetch rangeSatisfied params w)))
  = Some meta ->
  count_occ string_dec
    (requests (fst (findCompatibleVersion fetch rangeSatisfied params w))) name
  = 1.
Proof.
  intros _ Hf G.
  pose proof (steps_frugal _ _ (findCompatibleVersion_steps params w) Hf name) as H.
  rewrite G in H. exact H.
Qed.

End WorldFacts.
(** ** The version list and the floor *)

Lemma compare_inv a b c :
  semver.compare a b = Ok c ->
  exists va vb, semver.parse a = Some va /\ semver.parse b = Some vb
                /\ c = semver.compareSemVer va vb.
Proof.
  unfold semver.compare. intros H.
  destruct (semver.parse a) as [va|]; [|discriminate].
  destruct (semver.parse b) as [vb|]; [|discriminate].
  inversion H. eauto.
Qed.

Lemma compare_throws a b e :
  semver.compare a b = Throw e ->
  (isVersion a = false /\ e = semver.invalid a)
  \/ (isVersion b = false /\ e = semver.invalid b).
Proof.
  unfold semver.compare, isVersion. intros H.
  destruct (semver.parse a) as [va|].
  - destruct (semver.parse b) as [vb|]; [discriminate|].
    inversion H. right. split; reflexivity.
  - inversion H. left. split; reflexivity.
Qed.

Lemma compare_opp a b c :
  semver.compare a b = Ok c -> semver.compare b a = Ok (CompOpp c).
Proof.
  intros H. destruct (compare_inv _ _ _ H) as (va & vb & A & B & C).
  unfold semver.compare. rewrite A, B. subst c.
  rewrite (cmp_antisym _ Ordering_compareSemVer va vb). reflexivity.
Qed.

Lemma insertVersion_Ok v sorted r :
  insertVersion v sorted = Ok r ->
  Permutation r (v :: sorted)
  /\ (sorted <> [] -> isVersion v = true).
Proof.
  revert r. induction sorted as [|x rest IH]; intros r H; simpl in H.
  - inversion H; subst. split; [apply Permutation_refl | congruence].
  - destruct (semver.compare v x) as [c|e] eqn:C; simpl in H; [|discriminate].
    assert (V : isVersion v = true).
    { destruct (compare_inv _ _ _ C) as (va & vb & A & _). unfold isVersion.
      rewrite A. reflexivity. }
    destruct c.
    + inversion H; subst. split; [apply Permutation_refl | intros _; exact V].
    + inversion H; subst. split; [apply Permutation_refl | intros _; exact V].
    + destruct (insertVersion v rest) as [r'|e] eqn:I; simpl in H; [|discriminate].
      inversion H; subst. destruct (IH r' eq_refl) as [P _].
      split; [|intros _; exact V].
      eapply Permutation_trans; [apply perm_skip; exact P | apply perm_swap].
Qed.

Lemma insertVersion_head v x rest r :
  insertVersion v (x :: rest) = Ok r -> isVersion x = true.
Proof.
  simpl. destruct (semver.compare v x) as [c|e] eqn:C; simpl; [|discriminate].
  intros _. destruct (compare_inv _ _ _ C) as (va & vb & _ & B & _).
  unfold isVersion. rewrite B. reflexivity.
Qed.

Lemma insertVersion_Throw v sorted e :
  insertVersion v sorted = Throw e ->
  exists x, In x (v :: sorted) /\ isVersion x = false /\ e = semver.invalid x.
Proof.
  induction sorted as [|x rest IH]; simpl; [discriminate|].
  destruct (semver.compare v x) as [c|e'] eqn:C; simpl.
  - destruct c; try discriminate.
    destruct (insertVersion v rest) as [r'|e'] eqn:I; simpl; [discriminate|].
    intros H. inversion H; subst. destruct (IH eq_refl) as (y & [Y|Y] & N & E).
    + exists y. split; [left; exact Y | split; assumption].
    + exists y. split; [right; right; exact Y | split; assumption].
  - intros H. inversion H; subst.
    destruct (compare_throws _ _ _ C) as [[N E] | [N E]].
    + exists v. split; [left; reflexivity | split; assumption].
    + exists x. split; [right; left; reflexivity | split; assumption].
Qed.

Lemma sortVersions_Ok vs r :
  sortVersions vs = Ok r ->
  Permutation r vs /\ (2 <= List.length vs -> Forall (fun x => isVersion x = true) vs).
Proof.
  revert r. induction vs as [|v rest IH]; intros r H; simpl in H.
  - inversion H; subst. split; [constructor | simpl; lia].
  - destruct (sortVersions rest) as [sorted|e] eqn:S; simpl in H; [|discriminate].
    destruct (IH sorted eq_refl) as [P V].
    destruct (insertVersion_Ok _ _ _ H) as [P' V'].
    split.
    + eapply Permutation_trans; [exact P' | apply perm_skip; exact P].
    + intros L. simpl in L.
      destruct sorted as [|x sorted'].
      { apply Permutation_nil in P. subst rest. simpl in L. lia. }
      constructor; [apply V'; discriminate|].
      pose proof (insertVersion_head _ _ _ _ H) as X.
      destruct rest as [|y [|z rest']].
      * simpl in L. lia.
      * apply Permutation_length in P as PL. destruct sorted'; [|discriminate].
        apply Permutation_length_1 in P. subst. constructor; [exact X | constructor].
      * apply V. simpl. lia.
Qed.

Lemma sortVersions_Throw vs e :
  sortVersions vs = Throw e ->
  2 <= List.length vs
  /\ exists x, In x vs /\ isVersion x = false /\ e = semver.invalid x.
Proof.
  revert e. induction vs as [|v rest IH]; intros e H; simpl in H; [discriminate|].
  destruct (sortVersions rest) as [sorted|e'] eqn:S; simpl in H.
  - destruct (sortVersions_Ok _ _ S) as [P _].
    destruct (insertVersion_Throw _ _ _ H) as (x & I & N & E).
    split.
    + destruct sorted as [|y sorted']; [simpl in H; discriminate|].
      apply Permutation_length in P. simpl in *. lia.
    + exists x. split; [|split; assumption].
      destruct I as [I|I]; [left; exact I | right].
      eapply Permutation_in; eassumption.
  - inversion H; subst. destruct (IH e eq_refl) as (L & x & I & N & E).
    split; [simpl; lia|]. exists x. split; [right; exact I | split; assumption].
Qed.

(** X9: [versions.sort(semver.compare)] on one version or none returns
    it untouched; on two or more it returns them in ascending order when all
    are versions, and otherwise throws [Invalid Version] naming one of them
    that is not. *)
Theorem sortVersions_outcome (vs : list string) :
  (List.length vs <= 1 -> sortVersions vs = Ok vs)
  /\ (forall r,
        sortVersions vs = Ok r ->
        Permutation r vs
        /\ (2 <= List.length vs ->
            forallb isVersion vs = true /\ StronglySorted versionLe r))
  /\ (forall e,
        sortVersions vs = Throw e ->
        2 <= List.length vs
        /\ exists x, In x vs /\ isVersion x = false /\ e = semver.invalid x).
Proof.
  split; [|split].
  - destruct vs as [|v [|w rest]]; simpl; intros L; try reflexivity. lia.
  - intros r H. destruct (sortVersions_Ok _ _ H) as [P V]. split; [exact P|].
    intros L. specialize (V L). split.
    + apply forallb_forall. intros x I. rewrite Forall_forall in V. apply V, I.
    + destruct (sortVersions_sorted vs V) as (r' & E & _ & Sd).
      rewrite H in E. inversion E; subst. exact Sd.
  - apply sortVersions_Throw.
Qed.

Lemma normalizeVersion_truthy v : truthy (normalizeVersion v) = true.
Proof.
  pose proof (normalizeVersion_parts v) as P.
  destruct (normalizeVersion v) eqn:E; [|reflexivity].
  simpl in P. destruct (Str.split "." v) as [|a [|b [|c l]]]; simpl in P; discriminate.
Qed.

(** X11: the floor of [findCompatibleVersion]: without a floor every key
    is kept and none is parsed; a floor given in part filters as the floor
    padded to three parts; and a version passes exactly when, padded, it does
    not come before the padded floor. *)
Theorem floor_filter (parentMinVersion : string) :
  (forall vs, filterR (atLeast "") vs = Ok vs)
  /\ (truthy parentMinVersion = true ->
      (forall v, atLeast parentMinVersion v
                 = atLeast (normalizeVersion parentMinVersion) v)
      /\ (forall v, meetsFloor parentMinVersion v = true
                    <-> versionLe (normalizeVersion parentMinVersion)
                          (normalizeVersion v))).
Proof.
  split.
  - induction vs as [|v rest IH]; simpl; [reflexivity|]. rewrite IH. reflexivity.
  - intros T. split.
    + intros v. unfold atLeast. rewrite T, normalizeVersion_truthy. simpl.
      rewrite normalizeVersion_idem. reflexivity.
    + intros v. unfold meetsFloor, atLeast, versionLe, semver.gte. rewrite T. simpl.
      split.
      * destruct (semver.compare (normalizeVersion v) (normalizeVersion parentMinVersion))
          as [c|e] eqn:C; simpl; [|discriminate].
        intros H. exists (CompOpp c). split; [apply compare_opp; exact C|].
        destruct c; simpl; congruence.
      * intros (c & C & N). rewrite (compare_opp _ _ _ C). simpl.
        destruct c; simpl; congruence.
Qed.
Section SearchFacts.

Variable fetch : string -> result Response.
Variable rangeSatisfied : string -> bool -> semver.SemVer -> bool.

(** X10: one key of the parent's metadata that is no version, among two
    keys or more, aborts the search: [findCompatibleVersion] returns the error
    result [Invalid Version] for such a key, whatever the other versions
    are. *)
Theorem invalid_version_key_aborts (params : SearchParams) (w w0 : World)
    (meta : RegistryPackageMeta) :
  fetchPackageMetadata fetch (parentPackage params) w = (w0, Ok meta) ->
  2 <= List.length (Obj.keys (versions meta)) ->
  forallb isVersion (Obj.keys (versions meta)) = false ->
  exists x,
    In x (Obj.keys (versions meta)) /\ isVersion x = false
    /\ findCompatibleVersion fetch rangeSatisfied params w
       = (w0, searchError (semver.invalid x)).
Proof.
  intros F L N.
  destruct (sortVersions (Obj.keys (versions meta))) as [r|e] eqn:S.
  - destruct (sortVersions_Ok _ _ S) as [_ V]. specialize (V L).
    assert (forallb isVersion (Obj.keys (versions meta)) = true).
    { apply forallb_forall. intros x I. rewrite Forall_forall in V. apply V, I. }
    congruence.
  - destruct (sortVersions_Throw _ _ S) as (_ & x & I & X & E).
    exists x. split; [exact I|]. split; [exact X|].
    unfold findCompatibleVersion, search, getPackageVersions, bindM, lift.
    rewrite F, S. subst e. reflexivity.
Qed.

End SearchFacts.
(** ** The version requirement on the occurrences *)

Lemma checkLines_throw_or_comparable childPackage minVersion normalizedMinVersion
    dependencyLines acc :
  truthy minVersion = true ->
  (exists e, checkLines childPackage minVersion normalizedMinVersion dependencyLines acc
             = Throw e)
  \/ Forall (lineComparable childPackage normalizedMinVersion) dependencyLines.
Proof.
  intros T. revert acc. induction dependencyLines as [|line rest IH]; intros acc.
  - right. constructor.
  - simpl. destruct (Re.exec childPackage line) as [depVersion|] eqn:E.
    + rewrite T.
      destruct (semver.lt (normalizeVersion depVersion) normalizedMinVersion)
        as [older|e] eqn:L; simpl.
      * assert (C : lineComparable childPackage normalizedMinVersion line).
        { unfold lineComparable. rewrite E. eauto. }
        destruct older.
        -- destruct (IH (mkVersionAnalysis false (invalidVersions acc ++ [line])))
             as [H|H]; [left; exact H | right; constructor; assumption].
        -- destruct (IH acc) as [H|H]; [left; exact H | right; constructor; assumption].
      * left. eauto.
    + destruct (IH acc) as [H|H]; [left; exact H|].
      right. constructor; [|exact H]. unfold lineComparable. rewrite E. exact I.
Qed.

Lemma forallb_filter_length {A : Type} (f : A -> bool) l :
  forallb f l = (List.length (filter (fun x => negb (f x)) l) =? 0)%nat.
Proof.
  induction l as [|x l IH]; simpl; [reflexivity|].
  destruct (f x); simpl; [exact IH | reflexivity].
Qed.

Lemma analyzeVersionRequirements_comparable dependencyLines childPackage minVersion :
  truthy minVersion = true ->
  Forall (lineComparable childPackage (normalizeVersion minVersion)) dependencyLines ->
  analyzeVersionRequirements dependencyLines childPackage minVersion
  = Ok (mkVersionAnalysis
          (forallb (lineValid childPackage (normalizeVersion minVersion)) dependencyLines)
          (filter (fun line => negb (lineValid childPackage (normalizeVersion minVersion) line))
             dependencyLines)).
Proof.
  intros T F. unfold analyzeVersionRequirements.
  rewrite (checkLines_spec _ _ _ _ _ T F). reflexivity.
Qed.

(** X12: [analyzeVersionRequirements] for a minimum that is given: the
    invalid lines are the lines, in order, whose version read by the pattern
    is, padded, older than the padded minimum, and [allValid] tells that there
    is none; it throws exactly when a version it read, or the minimum, is no
    version once padded.
    The name of the target is taken to hold no operator of the pattern language. *)
Theorem analyzeVersionRequirements_outcome (dependencyLines : list string)
    (childPackage minVersion : string) :
  Re.regex_plain childPackage = true ->
  truthy minVersion = true ->
  (Forall (lineComparable childPackage (normalizeVersion minVersion)) dependencyLines ->
   analyzeVersionRequirements dependencyLines childPackage minVersion
   = Ok (mkVersionAnalysis
           (forallb (lineValid childPackage (normalizeVersion minVersion)) dependencyLines)
           (filter (fun line => negb (lineValid childPackage (normalizeVersion minVersion) line))
              dependencyLines)))
  /\ (~ Forall (lineComparable childPackage (normalizeVersion minVersion)) dependencyLines ->
      exists e, analyzeVersionRequirements dependencyLines childPackage minVersion = Throw e)
  /\ (forall va,
        analyzeVersionRequirements dependencyLines childPackage minVersion = Ok va ->
        allValid va = (List.length (invalidVersions va) =? 0)%nat
        /\ incl (invalidVersions va) dependencyLines).
Proof.
  intros _ T.
  pose proof (analyzeVersionRequirements_comparable dependencyLines childPackage
                minVersion T) as A.
  pose proof (checkLines_throw_or_comparable childPackage minVersion
                (normalizeVersion minVersion) dependencyLines
                (mkVersionAnalysis true []) T) as D.
  split; [exact A|]. split.
  - intros N. destruct D as [D|D]; [exact D | contradiction].
  - intros va H. destruct D as [[e D]|D].
    + unfold analyzeVersionRequirements in H. congruence.
    + rewrite (A D) in H. inversion H; subst. simpl. split.
      * apply forallb_filter_length.
      * intros x I. apply filter_In in I. apply I.
Qed.

(** *** What the pattern reads *)

Lemma forallb_append f a b :
  Str.forallb f (a ++ b) = Str.forallb f a && Str.forallb f b.
Proof.
  induction a as [|c a IH]; simpl; [reflexivity|].
  rewrite IH, andb_assoc. reflexivity.
Qed.

Lemma forallb_weaken (f g : ascii -> bool) s :
  (forall c, f c = true -> g c = true) ->
  Str.forallb f s = true -> Str.forallb g s = true.
Proof.
  intros H. induction s as [|c s IH]; simpl; [reflexivity|].
  intros X. apply andb_prop in X. destruct X as [X Y].
  rewrite (H _ X), (IH Y). reflexivity.
Qed.

Lemma span_spec f s :
  s = (fst (Re.span f s) ++ snd (Re.span f s))%string
  /\ Str.forallb f (fst (Re.span f s)) = true.
Proof.
  induction s as [|c s [E F]]; simpl; [split; reflexivity|].
  destruct (f c) eqn:C; [|split; reflexivity].
  destruct (Re.span f s) as [h t]. simpl in *. split.
  - f_equal. exact E.
  - rewrite C. exact F.
Qed.

Lemma word_version_char c : Re.word_or_dot c = true -> version_char c = true.
Proof. unfold version_char. intros H. rewrite H. reflexivity. Qed.

Lemma word_run_spec s :
  exists t, s = (Re.word_run s ++ t)%string
            /\ Str.forallb version_char (Re.word_run s) = true.
Proof.
  remember (String.length s) as n eqn:N.
  revert s N. induction n as [n IH] using lt_wf_ind. intros s N.
  destruct s as [|c s]; [exists EmptyString; split; reflexivity|].
  simpl. destruct (Re.word_or_dot c) eqn:W.
  - destruct (IH (String.length s)) with (s := s) as (t & E & F);
      [subst; simpl; lia | reflexivity|].
    exists t. split; [simpl; f_equal; exact E|].
    simpl. rewrite (word_version_char _ W). exact F.
  - destruct (Ascii.eqb c "-") eqn:D; [|exists (String c s); split; reflexivity].
    destruct s as [|d s]; [exists (String c EmptyString); split; reflexivity|].
    destruct (Re.word_or_dot d) eqn:W'; [|exists (String c (String d s)); split; reflexivity].
    destruct (IH (String.length s)) with (s := s) as (t & E & F);
      [subst; simpl; lia | reflexivity|].
    exists t. split; [simpl; do 2 f_equal; exact E|].
    simpl. unfold version_char at 1. rewrite D, orb_true_r.
    rewrite (word_version_char _ W'). exact F.
Qed.

Lemma groups_spec s :
  exists t, s = (Re.groups s ++ t)%string
            /\ Str.forallb version_char (Re.groups s) = true.
Proof.
  unfold Re.groups.
  destruct s as [|c s]; [exists EmptyString; split; reflexivity|].
  destruct (Ascii.eqb c "-") eqn:D.
  - apply Ascii.eqb_eq in D. subst c.
    destruct s as [|d s]; [exists "-"%string; split; reflexivity|].
    destruct (Re.word_or_dot d) eqn:W; [|exists (String "-" (String d s)); split; reflexivity].
    destruct (word_run_spec s) as (t & E & F). exists t.
    split; [simpl; do 2 f_equal; exact E|].
    simpl. rewrite (word_version_char _ W). exact F.
  - exists (String c s).
    assert (X : match c with
                | "-"%char => match s with
                              | EmptyString => EmptyString
                              | String d s' =>
                                  if Re.word_or_dot d
                                  then String "-" (String d (Re.word_run s'))
                                  else EmptyString
                              end
                | _ => EmptyString
                end = EmptyString).
    { destruct c as [[] [] [] [] [] [] [] []]; try reflexivity. discriminate. }
    rewrite X. split; reflexivity.
Qed.

Lemma capture_spec s v :
  Re.capture s = Some v ->
  exists post,
    s = (v ++ post)%string
    /\ Str.forallb version_char v = true
    /\ exists d rest, v = String d rest /\ Re.digit_or_dot d = true.
Proof.
  unfold Re.capture. pose proof (span_spec Re.digit_or_dot s) as [E F].
  destruct (Re.span Re.digit_or_dot s) as [h t]. simpl in E, F.
  destruct h as [|d h]; [discriminate|].
  intros H. inversion H; subst v. clear H.
  destruct (groups_spec t) as (post & G & K).
  exists post. split; [|split].
  - rewrite E. rewrite G at 1. simpl. f_equal.
    clear. induction h as [|c h IH]; simpl; [reflexivity | f_equal; exact IH].
  - change (String d h ++ Re.groups t)%string with (String d (h ++ Re.groups t)).
    change (Str.forallb version_char (String d (h ++ Re.groups t)))
      with (version_char d && Str.forallb version_char (h ++ Re.groups t)).
    rewrite forallb_append, K, andb_true_r.
    change (version_char d && Str.forallb version_char h)
      with (Str.forallb version_char (String d h)).
    apply (forallb_weaken Re.digit_or_dot); [|exact F].
    intros c. unfold Re.digit_or_dot, version_char, Re.word_or_dot.
    intros X. apply orb_prop in X. destruct X as [X|X]; rewrite X;
      rewrite ?orb_true_r; reflexivity.
  - exists d, (h ++ Re.groups t)%string. split; [reflexivity|].
    simpl in F. apply andb_prop in F. apply F.
Qed.

Lemma match_here_spec name s v :
  Re.match_here name s = Some v ->
  exists m rest,
    s = (m ++ String "@" rest)%string
    /\ String.length m = String.length name
    /\ Re.capture rest = Some v
    /\ match name, m with
       | String p _, String c _ => Re.pattern_char p c = true
       | _, _ => True
       end.
Proof.
  revert s. induction name as [|p name IH]; intros s H; simpl in H.
  - destruct s as [|c s]; [discriminate|].
    destruct (Ascii.eqb c "@") eqn:A.
    + apply Ascii.eqb_eq in A. subst c. exists EmptyString, s. repeat split. exact H.
    + exfalso. destruct c as [[] [] [] [] [] [] [] []]; try discriminate.
  - destruct s as [|c s]; [discriminate|].
    destruct (Re.pattern_char p c) eqn:P; [|discriminate].
    destruct (IH _ H) as (m & rest & E & L & C & _).
    exists (String c m), rest. repeat split.
    + simpl. f_equal. exact E.
    + simpl. f_equal. exact L.
    + exact C.
    + exact P.
Qed.

Lemma exec_spec name line v :
  Re.exec name line = Some v ->
  exists pre m rest,
    line = (pre ++ m ++ String "@" rest)%string
    /\ String.length m = String.length name
    /\ Re.capture rest = Some v.
Proof.
  induction line as [|c line IH]; simpl.
  - destruct (Re.match_here name EmptyString) as [v'|] eqn:M; [|discriminate].
    intros H. inversion H; subst.
    destruct (match_here_spec _ _ _ M) as (m & rest & E & L & C & _).
    exists EmptyString, m, rest. repeat split; assumption.
  - destruct (Re.match_here name (String c line)) as [v'|] eqn:M.
    + intros H. inversion H; subst.
      destruct (match_here_spec _ _ _ M) as (m & rest & E & L & C & _).
      exists EmptyString, m, rest. repeat split; assumption.
    + intros H. destruct (IH H) as (pre & m & rest & E & L & C).
      exists (String c pre), m, rest. repeat split; [|assumption..].
      simpl. f_equal. exact E.
Qed.

Lemma append_assoc (a b c : string) : ((a ++ b) ++ c = a ++ (b ++ c))%string.
Proof. induction a as [|x a IH]; simpl; [reflexivity | f_equal; exact IH]. Qed.

Lemma length_append (a b : string) :
  String.length (a ++ b) = String.length a + String.length b.
Proof. induction a as [|x a IH]; simpl; [reflexivity | f_equal; exact IH]. Qed.

(** X13: the version [analyzeVersionRequirements] reads in a line is text
    of the line: it stands right after an [@] that has at least as many
    characters before it as the name of the package has, it is not empty,
    starts with a digit or a dot and holds only word characters, dots and
    hyphens.
    The name of the target is taken to hold no operator of the pattern language. *)
Theorem exec_reads_after_at (name line v : string) :
  Re.regex_plain name = true ->
  Re.exec name line = Some v ->
  exists pre post,
    line = (pre ++ "@" ++ v ++ post)%string
    /\ String.length name <= String.length pre
    /\ Str.forallb version_char v = true
    /\ exists d rest, v = String d rest /\ Re.digit_or_dot d = true.
Proof.
  intros _ H. destruct (exec_spec _ _ _ H) as (pre & m & rest & E & L & C).
  destruct (capture_spec _ _ C) as (post & R & F & D).
  exists (pre ++ m)%string, post. split; [|split; [|split; assumption]].
  - rewrite E, R, append_assoc. reflexivity.
  - rewrite length_append. lia.
Qed.

Lemma pattern_char_refl p : Re.pattern_char p p = true.
Proof.
  unfold Re.pattern_char. destruct (Ascii.eqb p ".") eqn:D.
  - apply Ascii.eqb_eq in D. subst. reflexivity.
  - apply Ascii.eqb_refl.
Qed.

Lemma match_here_self name s :
  Re.match_here name (name ++ String "@" s) = Re.capture s.
Proof.
  induction name as [|p name IH]; simpl; [reflexivity|].
  rewrite pattern_char_refl. exact IH.
Qed.

Lemma at_past_free (m rest u w : string) :
  (m ++ String "@" rest = u ++ w)%string -> count "@" u = 0 ->
  exists m', m = (u ++ m')%string /\ w = (m' ++ String "@" rest)%string.
Proof.
  revert m. induction u as [|b u IH]; intros m E F.
  - exists m. split; [reflexivity | symmetry; exact E].
  - simpl in F. destruct (Ascii.eqb b "@") eqn:B; [discriminate|].
    destruct m as [|c m]; simpl in E.
    + inversion E; subst. discriminate.
    + inversion E; subst. destruct (IH m H1 F) as (m' & A & C).
      exists m'. split; [simpl; f_equal; exact A | exact C].
Qed.

Lemma match_here_early name pre s :
  pre <> "" -> count "@" pre = 0 -> count "@" (Str.drop 1 name) = 0 ->
  Re.match_here name (pre ++ name ++ String "@" s) = None.
Proof.
  intros Hne Hpre Hname.
  destruct (Re.match_here name (pre ++ name ++ String "@" s)) as [v|] eqn:M;
    [exfalso | reflexivity].
  destruct (match_here_spec _ _ _ M) as (m & rest & E & L & _ & P).
  symmetry in E. destruct (at_past_free _ _ _ _ E Hpre) as (m' & A & B).
  assert (L' : String.length m' < String.length name).
  { subst m. rewrite length_append in L. destruct pre; [congruence|]. simpl in L. lia. }
  destruct name as [|p name]; [simpl in L'; lia|].
  destruct m' as [|d m'].
  - simpl in B. inversion B; subst p.
    destruct pre as [|a pre]; [congruence|]. subst m.
    assert (Q : Ascii.eqb "@" a = true) by exact P.
    simpl in Hpre. rewrite Ascii.eqb_sym in Q. rewrite Q in Hpre. discriminate.
  - simpl in B. inversion B. subst d. simpl in Hname.
    symmetry in H1. destruct (at_past_free _ _ _ _ H1 Hname) as (m'' & A' & _).
    subst m'. simpl in L'. rewrite length_append in L'. lia.
Qed.

(** X14: when the name of the package and its [@] come before any other
    [@] of a line (the name itself may start with one, as a scoped name does),
    the version [analyzeVersionRequirements] reads in the line is the one
    right after them.
    The name of the target is taken to hold no operator of the pattern language. *)
Theorem exec_first_at (name pre s v : string) :
  Re.regex_plain name = true ->
  count "@" pre = 0 -> count "@" (Str.drop 1 name) = 0 ->
  Re.capture s = Some v ->
  Re.exec name (pre ++ name ++ "@" ++ s) = Some v.
Proof.
  intros _ Hpre Hname C.
  change ("@" ++ s)%string with (String "@" s).
  induction pre as [|a pre IH].
  - simpl. destruct name as [|p name].
    + simpl. simpl in C. rewrite C. reflexivity.
    + assert (M : Re.match_here (String p name) (String p name ++ String "@" s) = Some v)
        by (rewrite match_here_self; exact C).
      simpl in M |- *. rewrite M. reflexivity.
  - assert (M : Re.match_here name (String a pre ++ name ++ String "@" s) = None)
      by (apply match_here_early; [discriminate | exact Hpre | exact Hname]).
    simpl in Hpre. destruct (Ascii.eqb a "@"); [discriminate|].
    change (Re.exec name (String a pre ++ name ++ String "@" s))
      with (match Re.match_here name (String a pre ++ name ++ String "@" s) with
            | Some v => Some v
            | None => Re.exec name (pre ++ name ++ String "@" s)
            end).
    rewrite M. apply IH. exact Hpre.
Qed.

(** *** The verdict of the evaluator *)

(** X15: the verdict of [analyzePackageDependencies] on the occurrences
    found, when the versions read in them can be compared with the minimum:
    with no occurrence it succeeds exactly when removal is accepted; with
    occurrences and a minimum it succeeds exactly when no line reads older
    than the minimum, whether removal is accepted or not; with occurrences
    and no minimum it fails when removal is asked for and succeeds
    otherwise.  The details are all the lines, but for a failed minimum,
    where they are the lines that read older.
    The name of the target is taken to hold no operator of the pattern language. *)
Theorem evaluate_verdict (parentVersion childPackage childMinVersion : string)
    (packageRemoved : bool) (t : TraversalResult) :
  Re.regex_plain childPackage = true ->
  (truthy childMinVersion = true ->
   Forall (lineComparable childPackage (normalizeVersion childMinVersion))
     (map pathString (matches t))) ->
  exists msg,
    evaluate parentVersion childPackage childMinVersion packageRemoved t
    = Ok (mkAnalysis
            (match matches t with
             | [] => packageRemoved
             | _ :: _ =>
                 if truthy childMinVersion
                 then forallb (lineValid childPackage (normalizeVersion childMinVersion))
                        (map pathString (matches t))
                 else negb packageRemoved
             end)
            msg
            (match matches t with
             | [] => if packageRemoved then absentNote childPackage else []
             | _ :: _ =>
                 if truthy childMinVersion
                    && negb (forallb (lineValid childPackage (normalizeVersion childMinVersion))
                               (map pathString (matches t)))
                 then filter (fun line =>
                                negb (lineValid childPackage
                                        (normalizeVersion childMinVersion) line))
                        (map pathString (matches t))
                 else map pathString (matches t)
             end)).
Proof.
  intros _ Hc. unfold evaluate.
  destruct (matches t) as [|m ms] eqn:Em.
  - simpl. destruct packageRemoved; eexists; reflexivity.
  - assert (Z : (List.length (map pathString (m :: ms)) =? 0)%nat = false)
      by reflexivity.
    rewrite Z. clear Z.
    remember (map pathString (m :: ms)) as lines eqn:El. clear El.
    destruct (truthy childMinVersion) eqn:T.
    + rewrite (analyzeVersionRequirements_comparable lines childPackage childMinVersion
                 T (Hc eq_refl)).
      simpl.
      destruct (forallb (lineValid childPackage (normalizeVersion childMinVersion)) lines);
        destruct packageRemoved; simpl; eexists; reflexivity.
    + assert (childMinVersion = "") as ->.
      { unfold truthy in T. apply negb_false_iff, String.eqb_eq in T. exact T. }
      rewrite analyzeVersionRequirements_no_minimum. simpl.
      destruct packageRemoved; simpl; eexists; reflexivity.
Qed.
(** ** The shape of the traversal *)

Section TraversalFacts.

Variable fetch : string -> result Response.
Variable rangeSatisfied : string -> bool -> semver.SemVer -> bool.

(** A property of the nodes of the queue that passes from a node to the nodes
    enqueued for it holds for every processed node. *)
Lemma processedNodes_closed fuel targetName visited found w queue (P : QueueNode -> Prop) :
  (forall p k, P p -> childOf p k -> P k) ->
  Forall P queue ->
  Forall P (processedNodes fetch rangeSatisfied fuel targetName visited found w queue).
Proof.
  intros Hstep. revert visited found w queue.
  induction fuel as [|fuel IH]; intros visited found w queue;
    induction queue as [|node rest IHq]; intros Hq;
    try (rewrite processedNodes_nil; constructor);
    rewrite processedNodes_cons;
    (destruct (StrSet.has (keyOf node) visited);
     [apply IHq; inversion Hq; assumption|]);
    (destruct (maxNodes <? StrSet.size (StrSet.add (keyOf node) visited))%nat;
     [constructor|]).
  - constructor.
  - destruct (visit_children fetch rangeSatisfied targetName node found rest w)
      as [kids [Ek Hk]].
    destruct (visit fetch rangeSatisfied targetName node found rest w)
      as [w1 [found' queue']]. simpl in Ek. subst queue'.
    inversion Hq as [|? ? Hnode Hrest]; subst.
    constructor; [exact Hnode|].
    apply IH. apply Forall_app. split; [exact Hrest|].
    eapply Forall_impl; [|exact Hk]. intros k [_ Hc]. exact (Hstep _ _ Hnode Hc).
Qed.

Lemma rooted_child rootKey p k : rooted rootKey p -> childOf p k -> rooted rootKey k.
Proof.
  intros (mid & E & _) C. unfold childOf in C. unfold rooted. rewrite C, E.
  exists (mid ++ [keyOf k]). split; [reflexivity|].
  exact (last_last (rootKey :: mid) (keyOf k) "").
Qed.

Lemma matches_processed rootName rootVersion targetName w :
  matches (snd (findChildOccurrencesInTree fetch rangeSatisfied rootName rootVersion
                  targetName w))
  = map occurrence
      (filter (fun n => String.eqb (q_name n) targetName)
         (processedNodes fetch rangeSatisfied maxNodes targetName [] [] w
            [mkNode rootName rootVersion [(rootName ++ "@" ++ rootVersion)%string]])).
Proof.
  destruct (findChildOccurrencesInTree_traverse fetch rangeSatisfied rootName rootVersion
              targetName w) as (r & T & E).
  pose proof (traverse_matches _ _ _ _ _ _ _ _ _ _ T) as M.
  rewrite E, M. apply app_nil_l.
Qed.

(** X16: every occurrence [findChildOccurrencesInTree] returns has a path
    that starts at the parent and its version and ends at the target and the
    version recorded for the occurrence, the elements joined by [" > "]. *)
Theorem occurrence_paths (rootName rootVersion targetName : string) (w : World)
    (m : Match) :
  In m (matches (snd (findChildOccurrencesInTree fetch rangeSatisfied rootName
                        rootVersion targetName w))) ->
  exists mid,
    pathString m = Str.join " > " ((rootName ++ "@" ++ rootVersion)%string :: mid)
    /\ last ((rootName ++ "@" ++ rootVersion)%string :: mid) ""
       = (targetName ++ "@" ++ m_version m)%string.
Proof.
  rewrite matches_processed. intros I.
  apply in_map_iff in I. destruct I as (n & <- & I).
  apply filter_In in I. destruct I as [I T]. apply String.eqb_eq in T.
  assert (R : Forall (rooted (rootName ++ "@" ++ rootVersion)%string)
                (processedNodes fetch rangeSatisfied maxNodes targetName [] [] w
                   [mkNode rootName rootVersion [(rootName ++ "@" ++ rootVersion)%string]])).
  { apply processedNodes_closed; [apply rooted_child|].
    constructor; [|constructor]. exists []. split; reflexivity. }
  rewrite Forall_forall in R. destruct (R _ I) as (mid & E & L).
  exists mid. split.
  - unfold occurrence. cbn [pathString]. rewrite E. reflexivity.
  - rewrite <- E, L. unfold keyOf, occurrence. cbn [m_version]. rewrite T.
    reflexivity.
Qed.

Lemma StronglySorted_append {A : Type} (R : A -> A -> Prop) l1 l2 :
  StronglySorted R l1 -> StronglySorted R l2 ->
  (forall x y, In x l1 -> In y l2 -> R x y) ->
  StronglySorted R (l1 ++ l2).
Proof.
  intros H1 H2 H. induction l1 as [|a l1 IH]; simpl; [exact H2|].
  inversion H1 as [|? ? Hs Hf]; subst. constructor.
  - apply IH; [exact Hs|]. intros x y Ix Iy. apply H; [right; exact Ix | exact Iy].
  - apply Forall_app. split; [exact Hf|].
    apply Forall_forall. intros y Iy. apply H; [left; reflexivity | exact Iy].
Qed.

Lemma processedNodes_depth fuel targetName visited found w queue d :
  Forall (fun n => d <= depth n <= S d) queue ->
  StronglySorted (fun a b => depth a <= depth b) queue ->
  StronglySorted (fun a b => depth a <= depth b)
    (processedNodes fetch rangeSatisfied fuel targetName visited found w queue)
  /\ Forall (fun n => d <= depth n)
       (processedNodes fetch rangeSatisfied fuel targetName visited found w queue).
Proof.
  revert visited found w queue d.
  induction fuel as [|fuel IH]; intros visited found w queue d;
    induction queue as [|node rest IHq]; intros Hb Hs;
    try (rewrite processedNodes_nil; split; constructor);
    rewrite processedNodes_cons;
    (destruct (StrSet.has (keyOf node) visited);
     [apply IHq; [inversion Hb; assumption | inversion Hs; assumption]|]);
    (destruct (maxNodes <? StrSet.size (StrSet.add (keyOf node) visited))%nat;
     [split; constructor|]).
  - split; constructor.
  - destruct (visit_children fetch rangeSatisfied targetName node found rest w)
      as [kids [Ek Hk]].
    destruct (visit fetch rangeSatisfied targetName node found rest w)
      as [w1 [found' queue']]. simpl in Ek. subst queue'.
    inversion Hb as [|? ? Hnode Hrest]; subst.
    inversion Hs as [|? ? Hsr Hle]; subst.
    assert (Hkd : Forall (fun k => depth k = S (depth node)) kids).
    { eapply Forall_impl; [|exact Hk]. intros k [_ C]. unfold childOf in C.
      unfold depth. rewrite C, length_app. simpl. lia. }
    destruct (IH (StrSet.add (keyOf node) visited) found' w1 (rest ++ kids) (depth node))
      as [S1 B1].
    + apply Forall_app. split.
      * rewrite Forall_forall in *. intros n I. specialize (Hrest n I).
        specialize (Hle n I). lia.
      * eapply Forall_impl; [|exact Hkd]. intros k E. simpl in E. lia.
    + apply StronglySorted_append; [exact Hsr | |].
      * clear -Hkd. induction kids as [|k kids IHk]; constructor.
        -- apply IHk. inversion Hkd; assumption.
        -- inversion Hkd as [|? ? E1 E2]; subst.
           eapply Forall_impl; [|exact E2]. intros k' E. simpl in E. lia.
      * intros x y Ix Iy. rewrite Forall_forall in Hrest, Hkd.
        specialize (Hrest x Ix). specialize (Hkd y Iy). simpl in Hkd. lia.
    + split.
      * constructor; [exact S1 | exact B1].
      * constructor; [lia|]. eapply Forall_impl; [|exact B1].
        intros n Hn. simpl in Hn. lia.
Qed.

(** X17: the traversal is breadth first: [findChildOccurrencesInTree]
    processes the nodes in the order of their depth, the length of their
    path from the root, a node nearer the root never coming after one further
    from it; and the occurrences it returns are those of the processed nodes
    of the target, in that order. *)
Theorem traversal_breadth_first (rootName rootVersion targetName : string) (w : World) :
  StronglySorted (fun a b => depth a <= depth b)
    (processedNodes fetch rangeSatisfied maxNodes targetName [] [] w
       [mkNode rootName rootVersion [(rootName ++ "@" ++ rootVersion)%string]])
  /\ matches (snd (findChildOccurrencesInTree fetch rangeSatisfied rootName rootVersion
                     targetName w))
     = map occurrence
         (filter (fun n => String.eqb (q_name n) targetName)
            (processedNodes fetch rangeSatisfied maxNodes targetName [] [] w
               [mkNode rootName rootVersion [(rootName ++ "@" ++ rootVersion)%string]])).
Proof.
  split; [|apply matches_processed].
  apply (processedNodes_depth maxNodes targetName [] [] w _ 1).
  - constructor; [|constructor]. unfold depth. simpl. lia.
  - constructor; constructor.
Qed.

End TraversalFacts.

(** ** The dependencies of a version *)




(** ** The result of the search *)

Lemma afterVersion_other versionType c message :
  Ascii.eqb c "V" = false -> afterVersion versionType (String c message) = None.
Proof.
  intros H. destruct c as [[] [] [] [] [] [] [] []]; try reflexivity; discriminate.
Qed.

Lemma enhance_step versionType c message :
  Ascii.eqb c "V" = false ->
  enhance versionType (String c message) = String c (enhance versionType message).
Proof.
  intros H. pose proof (afterVersion_other versionType c message H) as A.
  change (enhance versionType (String c message))
    with (match afterVersion versionType (String c message) with
          | Some replaced => replaced
          | None => String c (enhance versionType message)
          end).
  rewrite A. reflexivity.
Qed.

Lemma visible_not_space c : visible c = true -> Str.is_space c = false.
Proof.
  intros H. destruct c as [[] [] [] [] [] [] [] []]; vm_compute in H |- *; congruence.
Qed.

Lemma span_visible word rest :
  Str.forallb visible word = true ->
  Re.span (fun c => negb (Str.is_space c)) (word ++ String " " rest)
  = (word, String " " rest).
Proof.
  induction word as [|c word IH]; simpl; intros H; [reflexivity|].
  apply andb_prop in H. destruct H as [V H].
  rewrite (visible_not_space _ V). simpl. rewrite (IH H). reflexivity.
Qed.

Lemma enhance_version versionType word rest :
  word <> "" -> Str.forallb visible word = true ->
  enhance versionType ("Version " ++ word ++ String " " rest)
  = ("Version " ++ word ++ versionType ++ String " " rest)%string.
Proof.
  intros Hne Hv.
  change (enhance versionType ("Version " ++ word ++ String " " rest))
    with (match afterVersion versionType ("Version " ++ word ++ String " " rest) with
          | Some replaced => replaced
          | None => String "V" (enhance versionType ("ersion " ++ word ++ String " " rest))
          end).
  change (afterVersion versionType ("Version " ++ word ++ String " " rest))
    with (let '(w, r) := Re.span (fun c => negb (Str.is_space c)) (word ++ String " " rest) in
          match w with
          | EmptyString => None
          | _ => Some ("Version " ++ w ++ versionType ++ r)%string
          end).
  rewrite (span_visible _ _ Hv). destruct word; [congruence | reflexivity].
Qed.

Lemma enhance_success versionType word rest :
  word <> "" -> Str.forallb visible word = true ->
  enhance versionType ("✅ SUCCESS: Version " ++ word ++ String " " rest)
  = ("✅ SUCCESS: Version " ++ word ++ versionType ++ String " " rest)%string.
Proof.
  intros Hne Hv. cbn [append].
  repeat (rewrite enhance_step by reflexivity).
  repeat f_equal. exact (enhance_version versionType word rest Hne Hv).
Qed.

Lemma evaluate_success_message parentVersion childPackage childMinVersion packageRemoved t a :
  evaluate parentVersion childPackage childMinVersion packageRemoved t = Ok a ->
  a_success a = true ->
  exists rest,
    a_message a = ("✅ SUCCESS: Version " ++ parentVersion ++ String " " rest)%string.
Proof.
  unfold evaluate.
  destruct (List.length (map pathString (matches t)) =? 0)%nat.
  - destruct packageRemoved; intros H S; inversion H; subst; simpl in S;
      [|discriminate].
    eexists. reflexivity.
  - destruct packageRemoved.
    + destruct (truthy childMinVersion).
      * destruct (analyzeVersionRequirements _ _ _) as [va|e]; simpl; [|discriminate].
        destruct (allValid va); intros H S; inversion H; subst; simpl in S;
          [|discriminate].
        eexists. reflexivity.
      * intros H S; inversion H; subst; simpl in S. discriminate.
    + destruct (analyzeVersionRequirements _ _ _) as [va|e]; simpl; [|discriminate].
      destruct (allValid va); intros H S; inversion H; subst; simpl in S;
        [|discriminate].
      eexists. reflexivity.
Qed.

Lemma prefix_of_split {A : Type} (l1 l2 pre post : list A) v :
  l1 ++ l2 = pre ++ v :: post -> ~ In v l1 -> exists q, pre = l1 ++ q.
Proof.
  revert pre. induction l1 as [|x l1 IH]; intros pre E N.
  - exists pre. reflexivity.
  - destruct pre as [|y pre]; simpl in E; inversion E; subst.
    + exfalso. apply N. left. reflexivity.
    + destruct (IH pre H1) as [q Q]; [intros I; apply N; right; exact I|].
      exists q. simpl. f_equal. exact Q.
Qed.

Section ResultFacts.

Variable fetch : string -> result Response.
Variable rangeSatisfied : string -> bool -> semver.SemVer -> bool.

Lemma search_inv params w w2 r :
  search fetch rangeSatisfied params w = (w2, Ok r) ->
  exists w0 versions,
    getPackageVersions fetch (parentPackage params) w = (w0, Ok versions)
    /\ ((versions = [] /\ w2 = w0
         /\ r = mkSearchResult false None
                  ("No versions found for package '" ++ parentPackage params ++ "'") [])
        \/ (versions <> []
            /\ filterR (atLeast (parentMinVersion params)) versions = Ok []
            /\ w2 = w0
            /\ r = mkSearchResult false None
                     ("No versions of '" ++ parentPackage params
                      ++ "' found that are >= " ++ parentMinVersion params) [])
        \/ (exists filtered,
               filterR (atLeast (parentMinVersion params)) versions = Ok filtered
               /\ filtered <> []
               /\ tryGroups fetch rangeSatisfied params (versionGroups filtered) w0
                  = (w2, Ok r))).
Proof.
  unfold search. unfold bindM at 1.
  destruct (getPackageVersions fetch (parentPackage params) w) as [w0 [versions|e]];
    [|discriminate].
  intros H. exists w0, versions. split; [reflexivity|].
  destruct versions as [|x xs].
  - simpl in H. unfold ret in H. inversion H; subst. left. repeat split.
  - cbn [List.length Nat.eqb] in H. unfold bindM at 1, lift in H.
    destruct (filterR (atLeast (parentMinVersion params)) (x :: xs)) as [filtered|e];
      [|discriminate].
    destruct filtered as [|y ys].
    + simpl in H. unfold ret in H. inversion H; subst.
      right. left. repeat split. discriminate.
    + cbn [List.length Nat.eqb] in H. right. right.
      exists (y :: ys). repeat split; [discriminate | exact H].
Qed.

Lemma analyze_evaluate params v w :
  parentPackage params <> "" -> count "@" v = 0 ->
  analyze fetch rangeSatisfied params v w
  = (fst (findChildOccurrencesInTree fetch rangeSatisfied (parentPackage params) v
            (childPackage params) w),
     evaluate v (childPackage params) (childMinVersion params) (packageRemoved params)
       (snd (findChildOccurrencesInTree fetch rangeSatisfied (parentPackage params) v
               (childPackage params) w))).
Proof.
  intros Hp Hat. unfold analyze, analyzePackageDependencies, bindM, lift.
  rewrite (splitNameAndVersion_app _ _ Hp Hat).
  destruct (findChildOccurrencesInTree fetch rangeSatisfied (parentPackage params) v
              (childPackage params) w) as [w1 t].
  reflexivity.
Qed.

Lemma tryGroups_winner params groups w w2 r :
  tryGroups fetch rangeSatisfied params groups w = (w2, Ok r) ->
  success r = true ->
  exists vs groupType v w1 a,
    In (vs, groupType) groups /\ In v vs
    /\ analyze fetch rangeSatisfied params v w1 = (w2, Ok a)
    /\ a_success a = true
    /\ r = winner groupType v a.
Proof.
  revert w. induction groups as [|[vs groupType] rest IH]; intros w H S.
  - simpl in H. unfold ret in H. inversion H; subst. discriminate.
  - rewrite tryGroups_step in H.
    destruct (tryVersions fetch rangeSatisfied params groupType vs w)
      as [w' [found|e]] eqn:Ev; [|discriminate].
    pose proof (tryVersions_inv _ _ _ _ _ _ _ _ Ev) as Hinv.
    destruct found as [r'|].
    + inversion H; subst.
      destruct Hinv as (pre & v & post & w1 & a & E1 & E2 & E3 & E4 & E5).
      exists vs, groupType, v, w1, a. repeat split; try assumption.
      * left. reflexivity.
      * subst vs. apply in_or_app. right. left. reflexivity.
    + destruct (IH w' H S) as (vs' & g' & v & w1 & a & I1 & I2 & E3 & E4 & E5).
      exists vs', g', v, w1, a. repeat split; try assumption. right. exact I1.
Qed.

Lemma findCompatibleVersion_success_inv params w w2 r :
  findCompatibleVersion fetch rangeSatisfied params w = (w2, r) ->
  success r = true ->
  exists w0 versions filtered,
    getPackageVersions fetch (parentPackage params) w = (w0, Ok versions)
    /\ filterR (atLeast (parentMinVersion params)) versions = Ok filtered
    /\ tryGroups fetch rangeSatisfied params (versionGroups filtered) w0 = (w2, Ok r).
Proof.
  unfold findCompatibleVersion.
  destruct (search fetch rangeSatisfied params w) as [w1 [r1|e]] eqn:Es;
    intros H S; inversion H; subst; [|discriminate].
  destruct (search_inv _ _ _ _ Es) as (w0 & versions & G & [C | [C | C]]).
  - destruct C as (_ & _ & ->). discriminate.
  - destruct C as (_ & _ & _ & ->). discriminate.
  - destruct C as (filtered & F & _ & T). exists w0, versions, filtered. auto.
Qed.

(** X19: a version is reported only as the first success: when
    [findCompatibleVersion] succeeds, the version of its result is a candidate
    whose analysis succeeded after the analyses of all the candidates before
    it, in the order of the search, had failed; the details of the result are
    those of that analysis.
    The name of the target is taken to hold no operator of the pattern language. *)
Theorem reported_version_is_first_success (params : SearchParams) (w w2 : World)
    (r : SearchResult) :
  Re.regex_plain (childPackage params) = true ->
  findCompatibleVersion fetch rangeSatisfied params w = (w2, r) ->
  success r = true ->
  exists w0 versions filtered pre v post w1 a,
    getPackageVersions fetch (parentPackage params) w = (w0, Ok versions)
    /\ filterR (atLeast (parentMinVersion params)) versions = Ok filtered
    /\ candidates (versionGroups filtered) = pre ++ v :: post
    /\ allFail fetch rangeSatisfied params pre w0 = Some w1
    /\ analyze fetch rangeSatisfied params v w1 = (w2, Ok a)
    /\ a_success a = true
    /\ version r = Some v
    /\ details r = a_details a.
Proof.
  intros _ H S.
  destruct (findCompatibleVersion_success_inv _ _ _ _ H S)
    as (w0 & versions & filtered & G & F & T).
  destruct (tryGroups_inv _ _ _ _ _ _ _ T)
    as [(_ & pre & v & post & w1 & a & E1 & E2 & E3 & E4 & E5 & E6) | [-> _]];
    [|discriminate].
  exists w0, versions, filtered, pre, v, post, w1, a. auto 10.
Qed.

(** X20: a pre-release is the last resort: when the version
    [findCompatibleVersion] reports is a pre-release, every stable version of
    the parent that passed the floor was analysed before it, and failed.
    The name of the target is taken to hold no operator of the pattern language. *)
Theorem prerelease_only_after_stable (params : SearchParams) (w w2 : World)
    (r : SearchResult) (v : string) :
  Re.regex_plain (childPackage params) = true ->
  findCompatibleVersion fetch rangeSatisfied params w = (w2, r) ->
  success r = true ->
  version r = Some v ->
  isPrerelease v = true ->
  exists w0 versions filtered w1,
    getPackageVersions fetch (parentPackage params) w = (w0, Ok versions)
    /\ filterR (atLeast (parentMinVersion params)) versions = Ok filtered
    /\ allFail fetch rangeSatisfied params
         (filter (fun x => negb (isPrerelease x)) filtered) w0
       = Some w1.
Proof.
  intros _ H S V P.
  destruct (findCompatibleVersion_success_inv _ _ _ _ H S)
    as (w0 & versions & filtered & G & F & T).
  destruct (tryGroups_inv _ _ _ _ _ _ _ T)
    as [(_ & pre & v' & post & w1 & a & E1 & E2 & E3 & E4 & E5 & E6) | [-> _]];
    [|discriminate].
  assert (v' = v) by congruence. subst v'.
  rewrite isPrerelease_partition in E1.
  destruct (prefix_of_split _ _ _ _ _ E1) as [q Q].
  - intros I. apply filter_In in I. destruct I as [_ I]. rewrite P in I. discriminate.
  - subst pre. rewrite allFail_app in E2.
    destruct (allFail fetch rangeSatisfied params
                (filter (fun x => negb (isPrerelease x)) filtered) w0) as [w'|] eqn:A;
      [|discriminate].
    exists w0, versions, filtered, w'. auto.
Qed.

(** X21: a failure of [findCompatibleVersion] carries no version and no
    details, and it is one of four: the error of the search, a parent without
    versions, no version at or above the floor, or no compatible version, and
    this last one only when every candidate was analysed in turn and
    failed.
    The name of the target is taken to hold no operator of the pattern language. *)
Theorem failure_kinds (params : SearchParams) (w w2 : World) (r : SearchResult) :
  Re.regex_plain (childPackage params) = true ->
  findCompatibleVersion fetch rangeSatisfied params w = (w2, r) ->
  success r = false ->
  version r = None /\ details r = []
  /\ ((exists e, search fetch rangeSatisfied params w = (w2, Throw e)
                 /\ r = searchError e)
      \/ exists w0 versions,
           getPackageVersions fetch (parentPackage params) w = (w0, Ok versions)
           /\ ((versions = [] /\ w2 = w0
                /\ message r = ("No versions found for package '"
                                ++ parentPackage params ++ "'")%string)
               \/ (versions <> []
                   /\ filterR (atLeast (parentMinVersion params)) versions = Ok []
                   /\ w2 = w0
                   /\ message r = ("No versions of '" ++ parentPackage params
                                   ++ "' found that are >= "
                                   ++ parentMinVersion params)%string)
               \/ (exists filtered,
                      filterR (atLeast (parentMinVersion params)) versions = Ok filtered
                      /\ filtered <> []
                      /\ r = noCompatible
                      /\ allFail fetch rangeSatisfied params
                           (candidates (versionGroups filtered)) w0
                         = Some w2))).
Proof.
  intros _. unfold findCompatibleVersion.
  destruct (search fetch rangeSatisfied params w) as [w1 [r1|e]] eqn:Es;
    intros H S; inversion H; subst.
  - destruct (search_inv _ _ _ _ Es) as (w0 & versions & G & [C | [C | C]]).
    + destruct C as (-> & -> & ->). repeat split. right.
      exists w0, []. split; [exact G|]. left. repeat split.
    + destruct C as (N & F & -> & ->). repeat split. right.
      exists w0, versions. split; [exact G|]. right. left. repeat split; assumption.
    + destruct C as (filtered & F & N & T).
      destruct (tryGroups_inv _ _ _ _ _ _ _ T) as [(S' & _) | [-> A]]; [congruence|].
      repeat split. right. exists w0, versions. split; [exact G|]. right. right.
      exists filtered. repeat split; assumption.
  - repeat split. left. exists e. split; reflexivity.
Qed.

(** X22: the message of a success names the version and its kind: for a
    parent with a name, when [findCompatibleVersion] succeeds with a version
    made of visible characters of ASCII without [@], its message starts with
    the success mark, [Version], that version and, right after it,
    [(stable release)] when the version carries no pre-release tag and
    [(pre-release)] when it does.
    The name of the target is taken to hold no operator of the pattern language. *)
Theorem success_message (params : SearchParams) (w w2 : World) (r : SearchResult)
    (v : string) :
  Re.regex_plain (childPackage params) = true ->
  findCompatibleVersion fetch rangeSatisfied params w = (w2, r) ->
  success r = true ->
  version r = Some v ->
  parentPackage params <> "" ->
  v <> "" -> Str.forallb visible v = true -> count "@" v = 0 ->
  exists rest,
    message r
    = ("✅ SUCCESS: Version " ++ v
       ++ (if isPrerelease v then " (pre-release)" else " (stable release)")
       ++ " " ++ rest)%string.
Proof.
  intros _ H S V Hp Hne Hv Hat.
  destruct (findCompatibleVersion_success_inv _ _ _ _ H S)
    as (w0 & versions & filtered & G & F & T).
  destruct (tryGroups_winner _ _ _ _ _ T S)
    as (vs & groupType & v' & w1 & a & I1 & I2 & E3 & E4 & ->).
  simpl in V. assert (v' = v) by congruence. subst v'.
  rewrite (analyze_evaluate params v w1 Hp Hat) in E3.
  injection E3 as _ Ee.
  destruct (evaluate_success_message _ _ _ _ _ _ Ee E4) as [rest M].
  exists rest. simpl. rewrite M, (enhance_success _ _ _ Hne Hv).
  assert (K : versionTypeOf groupType
              = if isPrerelease v then " (pre-release)" else " (stable release)").
  { unfold versionGroups in I1. destruct I1 as [I1 | [I1 | []]]; inversion I1; subst.
    - apply filter_In in I2. destruct I2 as [_ I2].
      apply negb_true_iff in I2. rewrite I2. reflexivity.
    - apply filter_In in I2. destruct I2 as [_ I2]. rewrite I2. reflexivity. }
  rewrite K. reflexivity.
Qed.

End ResultFacts.
(** ** The command line *)

(** X23: [parseArg] of the command line: only the empty spec gives
    nothing; a name that is not empty, an [@] and a version without [@] are
    split into that name and that version, the name scoped or not; and a spec
    without [@] past its first character is all name, with no version. *)
Theorem parseArg_spec (spec : string) :
  (parseArg spec = None <-> spec = "")
  /\ (forall name version,
        name <> "" -> count "@" version = 0 ->
        parseArg (name ++ "@" ++ version) = Some (name, version))
  /\ (spec <> "" -> count "@" (Str.drop 1 spec) = 0 ->
      parseArg spec = Some (spec, "")).
Proof.
  split; [|split].
  - unfold parseArg. destruct spec as [|a s]; [split; reflexivity|].
    change (negb (truthy (String a s))) with false. cbv iota.
    split; [|discriminate].
    destruct (Str.lastIndexOf "@" (String a s)) as [i|]; [|discriminate].
    destruct (i <=? 0)%nat; discriminate.
  - intros name version Hn Hv. unfold parseArg.
    destruct name as [|a name]; [congruence|].
    change (negb (truthy (String a name ++ "@" ++ version))) with false. cbv iota.
    change ("@" ++ version)%string with (String "@" version).
    rewrite lastIndexOf_app by exact Hv.
    change (String.length (String a name) <=? 0)%nat with false. cbv iota.
    rewrite take_app, drop_app_sep. reflexivity.
  - intros Hne Hc. unfold parseArg.
    destruct spec as [|a s]; [congruence|].
    change (negb (truthy (String a s))) with false. cbv iota.
    pose proof (lastIndexOf_inv "@" (String a s)) as H.
    destruct (Str.lastIndexOf "@" (String a s)) as [i|]; [|reflexivity].
    destruct i as [|i]; [reflexivity|].
    exfalso. destruct H as (E & _ & L).
    assert (X : count "@" (Str.drop 1 (Str.take (S i) (String a s)
                                         ++ String "@" (Str.drop (S i + 1) (String a s))))
                = 0) by (rewrite <- E; exact Hc).
    simpl in X. rewrite count_append in X. simpl in X. lia.
Qed.

Lemma has_add f token flags :
  StrSet.has f (StrSet.add token flags) = StrSet.has f flags || String.eqb f token.
Proof.
  unfold StrSet.add. destruct (StrSet.has token flags) eqn:H.
  - destruct (String.eqb f token) eqn:E; [|rewrite orb_false_r; reflexivity].
    apply String.eqb_eq in E. subst. rewrite H. reflexivity.
  - unfold StrSet.has. rewrite existsb_app. simpl. rewrite orb_false_r. reflexivity.
Qed.

Lemma sortTokens_loop argv positional flags :
  exists flags',
    fold_left
      (fun acc token =>
         if startsWithDash token then (fst acc, StrSet.add token (snd acc))
         else (fst acc ++ [token], snd acc))
      argv (positional, flags)
    = (positional ++ positionals argv, flags')
    /\ forall f, startsWithDash f = true ->
                 StrSet.has f flags' = StrSet.has f flags || includes f argv.
Proof.
  revert positional flags. induction argv as [|token argv IH]; intros positional flags.
  - exists flags. simpl. rewrite app_nil_r. split; [reflexivity|].
    intros f _. rewrite orb_false_r. reflexivity.
  - simpl. unfold positionals. simpl. destruct (startsWithDash token) eqn:D; simpl.
    + destruct (IH positional (StrSet.add token flags)) as (flags' & E & F).
      exists flags'. split; [exact E|].
      intros f Hf. rewrite (F f Hf), has_add, orb_assoc. reflexivity.
    + destruct (IH (positional ++ [token]) flags) as (flags' & E & F).
      exists flags'. split; [rewrite E, <- app_assoc; reflexivity|].
      intros f Hf. rewrite (F f Hf).
      destruct (String.eqb f token) eqn:X; [|reflexivity].
      apply String.eqb_eq in X. subst. congruence.
Qed.

Lemma sortTokens_spec argv :
  exists flags,
    sortTokens argv = (positionals argv, flags)
    /\ forall f, startsWithDash f = true -> StrSet.has f flags = includes f argv.
Proof.
  destruct (sortTokens_loop argv [] []) as (flags & E & F).
  exists flags. split; [exact E | exact F].
Qed.

Lemma parseArgs_positionals argv NO_COLOR :
  parseArgs argv NO_COLOR
  = match positionals argv with
    | parent :: child :: _ =>
        Some (mkParsedArgs parent child
                (includes "--removed" argv || includes "-r" argv)
                (includes "--no-color" argv || envSet NO_COLOR))
    | _ => None
    end.
Proof.
  unfold parseArgs.
  destruct (sortTokens_spec argv) as (flags & E & F). rewrite E.
  rewrite !F by reflexivity.
  destruct (positionals argv) as [|p [|c l]]; reflexivity.
Qed.

(** X24: [parseArgs] of the command line: the parent and the target are
    the first two tokens that do not start with a hyphen, wherever the flags
    stand among them, and fewer than two such tokens give nothing; removal is
    accepted exactly when [--removed] or [-r] is among the tokens; every other
    flag but [--no-color] is ignored. *)
Theorem parseArgs_spec (argv : list string) (NO_COLOR : option string) :
  parseArgs argv NO_COLOR
  = match positionals argv with
    | parent :: child :: _ =>
        Some (mkParsedArgs parent child
                (includes "--removed" argv || includes "-r" argv)
                (includes "--no-color" argv || envSet NO_COLOR))
    | _ => None
    end.
Proof. apply parseArgs_positionals. Qed.

Lemma parseArg_Some spec : spec <> "" -> exists nv, parseArg spec = Some nv.
Proof.
  intros H. unfold parseArg. destruct spec as [|a s]; [congruence|].
  change (negb (truthy (String a s))) with false. cbv iota.
  destruct (Str.lastIndexOf "@" (String a s)) as [i|]; [|eauto].
  destruct (i <=? 0)%nat; eauto.
Qed.

(** X25: the exit code of the command line: 0 when [--help] or [-h] is
    among the arguments, whatever the others are; otherwise 1 when fewer than
    two arguments are positional or one of the first two is empty; otherwise
    the search is called once, and the code is 0 when it succeeds, 2 when it
    fails and 99 when it throws.  Only the search changes the caches. *)
Theorem run_exit_code (find : SearchParams -> M SearchResult) (argv : list string)
    (NO_COLOR : option string) (w : World) :
  (includes "--help" (skipn 2 argv) || includes "-h" (skipn 2 argv) = true ->
   run find argv NO_COLOR w = (w, 0))
  /\ (includes "--help" (skipn 2 argv) || includes "-h" (skipn 2 argv) = false ->
      (List.length (positionals (skipn 2 argv)) < 2
       \/ nth 0 (positionals (skipn 2 argv)) "" = ""
       \/ nth 1 (positionals (skipn 2 argv)) "" = "" ->
       run find argv NO_COLOR w = (w, 1))
      /\ (forall parent child more,
             positionals (skipn 2 argv) = parent :: child :: more ->
             parent <> "" -> child <> "" ->
             exists params,
               parseArg parent = Some (parentPackage params, parentMinVersion params)
               /\ parseArg child = Some (childPackage params, childMinVersion params)
               /\ packageRemoved params
                  = includes "--removed" (skipn 2 argv) || includes "-r" (skipn 2 argv)
               /\ run find argv NO_COLOR w
                  = match find params w with
                    | (w1, Ok result) => (w1, if success result then 0 else 2)
                    | (w1, Throw _) => (w1, 99)
                    end)).
Proof.
  unfold run. split.
  - intros H. rewrite H. reflexivity.
  - intros H. rewrite H. rewrite parseArgs_positionals. split.
    + intros C. destruct (positionals (skipn 2 argv)) as [|p [|c l]]; try reflexivity.
      simpl in C. destruct C as [C | [C | C]]; [lia | |]; subst; simpl.
      * reflexivity.
      * destruct (parseArg p); reflexivity.
    + intros parent child more E Hp Hc. rewrite E. simpl.
      destruct (parseArg_Some parent Hp) as [[pn pv] Ep].
      destruct (parseArg_Some child Hc) as [[cn cv] Ec].
      rewrite Ep, Ec. simpl.
      exists (mkParams pn pv cn cv
                (includes "--removed" (skipn 2 argv) || includes "-r" (skipn 2 argv))).
      repeat split.
Qed.

(** X26: the command line does not validate what the route validates: a
    target named without a version, and no [--removed] or [-r], reach the
    search as parameters with no minimum and removal not accepted, which the
    route answers with 400. *)
Theorem cli_passes_unvalidated (find : SearchParams -> M SearchResult)
    (argv : list string) (NO_COLOR : option string) (w : World)
    (parent child : string) (more : list string) :
  includes "--help" (skipn 2 argv) || includes "-h" (skipn 2 argv) = false ->
  includes "--removed" (skipn 2 argv) || includes "-r" (skipn 2 argv) = false ->
  positionals (skipn 2 argv) = parent :: child :: more ->
  parent <> "" -> child <> "" -> count "@" (Str.drop 1 child) = 0 ->
  exists params,
    invalidParams params = true
    /\ childPackage params = child /\ childMinVersion params = ""
    /\ packageRemoved params = false
    /\ run find argv NO_COLOR w
       = match find params w with
         | (w1, Ok result) => (w1, if success result then 0 else 2)
         | (w1, Throw _) => (w1, 99)
         end.
Proof.
  intros H R E Hp Hc Hat. unfold run. rewrite H, parseArgs_positionals, E, R. simpl.
  destruct (parseArg_Some parent Hp) as [[pn pv] Ep]. rewrite Ep.
  assert (Ec : parseArg child = Some (child, "")).
  { unfold parseArg. destruct child as [|a s]; [congruence|].
    change (negb (truthy (String a s))) with false. cbv iota.
    pose proof (lastIndexOf_inv "@" (String a s)) as L.
    destruct (Str.lastIndexOf "@" (String a s)) as [i|]; [|reflexivity].
    destruct i as [|i]; [reflexivity|].
    exfalso. destruct L as (X & _ & _).
    assert (Y : count "@" (Str.drop 1 (Str.take (S i) (String a s)
                                         ++ String "@" (Str.drop (S i + 1) (String a s))))
                = 0) by (rewrite <- X; exact Hat).
    simpl in Y. rewrite count_append in Y. simpl in Y. lia. }
  rewrite Ec. simpl.
  exists (mkParams pn pv child "" false). repeat split.
  unfold invalidParams. simpl. apply orb_true_r.
Qed.

(** ** The older evaluator *)

(** X27: the evaluator of [lib/package-finder.ts] decides as [evaluate]
    does on the same lines, and names in its messages the text between the
    first and the second [@] of the parent spec: the version when the name of
    the parent holds no [@], and for a scoped parent its scope and name in
    place of the version. *)
Theorem legacy_evaluate_reports (parentPackageVersion childPackage childMinVersion : string)
    (packageRemoved : bool) (t : TraversalResult) :
  legacyEvaluate parentPackageVersion childPackage childMinVersion packageRemoved
    (map pathString (matches t))
  = evaluate (reportedVersion parentPackageVersion) childPackage childMinVersion
      packageRemoved t
  /\ (forall name version,
        count "@" name = 0 -> count "@" version = 0 ->
        reportedVersion (name ++ "@" ++ version) = version)
  /\ (forall scoped version,
        count "@" scoped = 0 ->
        reportedVersion ("@" ++ scoped ++ "@" ++ version) = scoped).
Proof.
  split; [reflexivity|]. split.
  - intros name version Hn Hv. unfold reportedVersion.
    change ("@" ++ version)%string with (String "@" version).
    rewrite (split_app_free "@" name version Hn), (split_free _ _ Hv). reflexivity.
  - intros scoped version Hs. unfold reportedVersion.
    change ("@" ++ scoped ++ "@" ++ version)%string
      with (String "@" (scoped ++ String "@" version)).
    change (Str.split "@" (String "@" (scoped ++ String "@" version)))
      with (EmptyString :: Str.split "@" (scoped ++ String "@" version)).
    rewrite (split_app_free "@" scoped version Hs). reflexivity.
Qed.
(** ** The version reported *)

Lemma filterR_In pred vs kept v :
  filterR pred vs = Ok kept -> In v kept -> In v vs /\ pred v = Ok true.
Proof.
  revert kept. induction vs as [|x rest IH]; intros kept H I; simpl in H.
  - inversion H; subst. destruct I.
  - destruct (pred x) as [keep|e] eqn:P; simpl in H; [|discriminate].
    destruct (filterR pred rest) as [kept'|e]; simpl in H; [|discriminate].
    inversion H; subst. clear H. destruct keep.
    + destruct I as [<-|I]; [split; [left; reflexivity | exact P]|].
      destruct (IH _ eq_refl I) as [A B]. split; [right; exact A | exact B].
    + destruct (IH _ eq_refl I) as [A B]. split; [right; exact A | exact B].
Qed.

Section ReportedFacts.

Variable fetch : string -> result Response.
Variable rangeSatisfied : string -> bool -> semver.SemVer -> bool.

(** X28: the version [findCompatibleVersion] reports is a version the
    registry lists for the parent, and it passes the floor.
    The name of the target is taken to hold no operator of the pattern language. *)
Theorem reported_version_is_published (params : SearchParams) (w w2 : World)
    (r : SearchResult) (v : string) :
  Re.regex_plain (childPackage params) = true ->
  findCompatibleVersion fetch rangeSatisfied params w = (w2, r) ->
  success r = true ->
  version r = Some v ->
  exists w0 meta,
    fetchPackageMetadata fetch (parentPackage params) w = (w0, Ok meta)
    /\ In v (Obj.keys (versions meta))
    /\ meetsFloor (parentMinVersion params) v = true.
Proof.
  intros _ H S V.
  destruct (findCompatibleVersion_success_inv _ _ _ _ _ _ H S)
    as (w0 & sorted & filtered & G & F & T).
  destruct (tryGroups_inv _ _ _ _ _ _ _ T)
    as [(_ & pre & v' & post & w1 & a & E1 & _ & _ & _ & E5 & _) | [-> _]];
    [|discriminate].
  assert (v' = v) by congruence. subst v'.
  assert (I : In v filtered).
  { rewrite isPrerelease_partition in E1.
    assert (I : In v (pre ++ v :: post)) by (apply in_or_app; right; left; reflexivity).
    rewrite <- E1 in I. apply in_app_or in I.
    destruct I as [I|I]; apply filter_In in I; apply I. }
  destruct (filterR_In _ _ _ _ F I) as [Is A].
  unfold getPackageVersions, bindM, lift in G.
  destruct (fetchPackageMetadata fetch (parentPackage params) w) as [w0' [meta|e]];
    [|discriminate].
  destruct (sortVersions (Obj.keys (versions meta))) as [sorted'|e] eqn:Es;
    [|discriminate].
  inversion G; subst. exists w0, meta. split; [reflexivity|]. split.
  - destruct (sortVersions_Ok _ _ Es) as [P _].
    eapply Permutation_in; eassumption.
  - unfold meetsFloor. rewrite A. reflexivity.
Qed.

Lemma traverse_target fuel targetName version path w :
  traverse fetch rangeSatisfied (S fuel) targetName [] [] w
    [mkNode targetName version path]
  = (w, Some (mkTraversal [mkMatch (Str.join " > " path) version] 1 false)).
Proof.
  rewrite traverse_cons.
  change (StrSet.has (keyOf (mkNode targetName version path)) []) with false. cbv iota.
  assert (C : (maxNodes <? StrSet.size
                             (StrSet.add (keyOf (mkNode targetName version path)) []))%nat
              = false) by reflexivity.
  rewrite C. rewrite visit_target by apply String.eqb_refl.
  rewrite traverse_nil. reflexivity.
Qed.

(** X29: a package searched for in its own tree: when the target is the
    parent itself, [findChildOccurrencesInTree] returns the root as the one
    occurrence, at its own version, having visited one node, and it fetches
    and resolves nothing. *)
Theorem self_occurrence (name version : string) (w : World) :
  findChildOccurrencesInTree fetch rangeSatisfied name version name w
  = (w, mkTraversal [mkMatch (name ++ "@" ++ version) version] 1 false).
Proof.
  unfold findChildOccurrencesInTree.
  assert (E : maxNodes = S (Nat.pred maxNodes)) by reflexivity.
  rewrite E at 1. rewrite traverse_target. reflexivity.
Qed.

End ReportedFacts.
(** ** The properties at work on the examples *)

Import Examples.
Import Runs.
Import Samples.

Lemma normalizeVersion_pads_example :
  2 <= count "." "1.2.3-rc.1" /\ normalizeVersion "1.2.3-rc.1" = "1.2.3-rc.1".
Proof.
  assert (H : 2 <= count "." "1.2.3-rc.1") by (vm_compute; lia).
  split; [exact H|].
  exact (proj1 (proj2 (proj2 (normalizeVersion_pads "1.2.3-rc.1"))) H).
Defined.

Lemma splitNameAndVersion_joined_example :
  ("@types/node" <> "" /\ count "@" "18.0.0" = 0)
  /\ splitNameAndVersion ("@types/node" ++ "@" ++ "18.0.0") = Ok ("@types/node", "18.0.0").
Proof.
  assert (H1 : "@types/node" <> "") by discriminate.
  assert (H2 : count "@" "18.0.0" = 0) by reflexivity.
  split; [split; assumption|].
  exact (splitNameAndVersion_joined "@types/node" "18.0.0" H1 H2).
Defined.

Lemma splitNameAndVersion_inv_example :
  (splitNameAndVersion "@types/node@18.0.0" = Ok ("@types/node", "18.0.0")
   /\ "@types/node@18.0.0" = ("@types/node" ++ "@" ++ "18.0.0")%string
   /\ "@types/node" <> "" /\ count "@" "18.0.0" = 0)
  /\ (splitNameAndVersion "@types" = Throw "Invalid package spec: @types"
      /\ "Invalid package spec: @types" = ("Invalid package spec: " ++ "@types")%string
      /\ count "@" (Str.drop 1 "@types") = 0).
Proof.
  assert (H1 : splitNameAndVersion "@types/node@18.0.0" = Ok ("@types/node", "18.0.0"))
    by reflexivity.
  assert (H2 : splitNameAndVersion "@types" = Throw "Invalid package spec: @types")
    by reflexivity.
  split; (split; [assumption|]).
  - exact (proj1 (splitNameAndVersion_inv "@types/node@18.0.0") _ _ H1).
  - exact (proj1 (proj2 (splitNameAndVersion_inv "@types")) _ H2).
Defined.

Lemma fetchPackageMetadata_memo_example :
  fetchPackageMetadata chainABC "C" emptyWorld
  = (fst (fetchPackageMetadata chainABC "C" emptyWorld),
     Ok (mkMeta "C" [("3.9.0", pkg []); ("4.0.0", pkg []); ("5.0.0", pkg [])]))
  /\ Obj.get "C" (packageMetaCache (fst (fetchPackageMetadata chainABC "C" emptyWorld)))
     = Some (mkMeta "C" [("3.9.0", pkg []); ("4.0.0", pkg []); ("5.0.0", pkg [])])
  /\ fetchPackageMetadata chainABC "C" (fst (fetchPackageMetadata chainABC "C" emptyWorld))
     = (fst (fetchPackageMetadata chainABC "C" emptyWorld),
        Ok (mkMeta "C" [("3.9.0", pkg []); ("4.0.0", pkg []); ("5.0.0", pkg [])]))
  /\ (requests (fst (fetchPackageMetadata chainABC "C" emptyWorld)) = requests emptyWorld
      \/ requests (fst (fetchPackageMetadata chainABC "C" emptyWorld))
         = requests emptyWorld ++ ["C"]).
Proof.
  assert (H : fetchPackageMetadata chainABC "C" emptyWorld
              = (fst (fetchPackageMetadata chainABC "C" emptyWorld),
                 Ok (mkMeta "C" [("3.9.0", pkg []); ("4.0.0", pkg []); ("5.0.0", pkg [])])))
    by reflexivity.
  split; [exact H|].
  exact (fetchPackageMetadata_memo chainABC "C" emptyWorld _ _ H).
Defined.

Lemma fetchPackageMetadata_failure_example :
  fetchPackageMetadata typesNode "missing" emptyWorld
  = (mkWorld [] [] ["missing"],
     Throw "Failed to fetch metadata for missing: 404 Not Found")
  /\ packageMetaCache (mkWorld [] [] ["missing"]) = packageMetaCache emptyWorld
  /\ versionResolutionCache (mkWorld [] [] ["missing"]) = versionResolutionCache emptyWorld
  /\ requests (mkWorld [] [] ["missing"]) = requests emptyWorld ++ ["missing"]
  /\ fetchPackageMetadata typesNode "missing" (mkWorld [] [] ["missing"])
     = (mkWorld (packageMetaCache (mkWorld [] [] ["missing"]))
          (versionResolutionCache (mkWorld [] [] ["missing"]))
          (requests (mkWorld [] [] ["missing"]) ++ ["missing"]),
        Throw "Failed to fetch metadata for missing: 404 Not Found").
Proof.
  assert (H : fetchPackageMetadata typesNode "missing" emptyWorld
              = (mkWorld [] [] ["missing"],
                 Throw "Failed to fetch metadata for missing: 404 Not Found"))
    by reflexivity.
  split; [exact H|].
  exact (fetchPackageMetadata_failure typesNode "missing" emptyWorld _ _ H).
Defined.

Lemma coherent_empty fetch : coherent fetch emptyWorld.
Proof. intros n m H. discriminate. Qed.

Lemma frugal_empty fetch : frugal fetch emptyWorld.
Proof. intros name. simpl. intros []. Qed.

Lemma findCompatibleVersion_extends_example :
  Re.regex_plain (childPackage abcParams) = true
  /\ extends abcFetched (fst (findCompatibleVersion chainABC rangeBasic abcParams abcFetched)).
Proof.
  assert (H : Re.regex_plain (childPackage abcParams) = true) by reflexivity.
  split; [exact H|].
  exact (findCompatibleVersion_extends chainABC rangeBasic abcParams abcFetched H).
Defined.

Lemma findCompatibleVersion_coherent_example :
  (Re.regex_plain (childPackage abcParams) = true /\ coherent chainABC emptyWorld)
  /\ coherent chainABC (fst (findCompatibleVersion chainABC rangeBasic abcParams emptyWorld)).
Proof.
  assert (H : Re.regex_plain (childPackage abcParams) = true) by reflexivity.
  split; [split; [exact H | apply coherent_empty]|].
  exact (findCompatibleVersion_coherent chainABC rangeBasic abcParams emptyWorld H
           (coherent_empty chainABC)).
Defined.

Lemma metadata_requested_once_example :
  Re.regex_plain (childPackage abcParams) = true
  /\ frugal chainABC emptyWorld
  /\ Obj.get "B"
       (packageMetaCache (fst (findCompatibleVersion chainABC rangeBasic abcParams emptyWorld)))
     = Some (mkMeta "B" [("1.0.0", pkg [("C", "^3.0.0")]); ("2.0.0", pkg [("C", "^4.0.0")]);
                         ("2.3.0", pkg [("C", "^4.0.0")]); ("3.0.0", pkg [])])
  /\ count_occ string_dec
       (requests (fst (findCompatibleVersion chainABC rangeBasic abcParams emptyWorld))) "B"
     = 1.
Proof.
  assert (H : Obj.get "B"
                (packageMetaCache
                   (fst (findCompatibleVersion chainABC rangeBasic abcParams emptyWorld)))
              = Some (mkMeta "B" [("1.0.0", pkg [("C", "^3.0.0")]);
                                  ("2.0.0", pkg [("C", "^4.0.0")]);
                                  ("2.3.0", pkg [("C", "^4.0.0")]); ("3.0.0", pkg [])]))
    by (vm_compute; reflexivity).
  assert (P : Re.regex_plain (childPackage abcParams) = true) by reflexivity.
  split; [exact P|]. split; [apply frugal_empty|]. split; [exact H|].
  exact (metadata_requested_once chainABC rangeBasic abcParams emptyWorld "B" _ P
           (frugal_empty chainABC) H).
Defined.

Lemma sortVersions_outcome_example :
  sortVersions ["1.0.0"; "next"] = Throw "Invalid Version: next"
  /\ 2 <= List.length ["1.0.0"; "next"]
  /\ exists x, In x ["1.0.0"; "next"] /\ isVersion x = false
               /\ "Invalid Version: next" = semver.invalid x.
Proof.
  assert (H : sortVersions ["1.0.0"; "next"] = Throw "Invalid Version: next")
    by reflexivity.
  split; [exact H|].
  exact (proj2 (proj2 (sortVersions_outcome ["1.0.0"; "next"])) _ H).
Defined.

Lemma invalid_version_key_aborts_example :
  (fetchPackageMetadata tagged "p" emptyWorld
   = (fst (fetchPackageMetadata tagged "p" emptyWorld),
      Ok (mkMeta "p" [("1.0.0", pkg []); ("next", pkg [])]))
   /\ 2 <= List.length (Obj.keys (versions (mkMeta "p" [("1.0.0", pkg []); ("next", pkg [])])))
   /\ forallb isVersion (Obj.keys (versions (mkMeta "p" [("1.0.0", pkg []); ("next", pkg [])])))
      = false)
  /\ exists x,
       In x (Obj.keys (versions (mkMeta "p" [("1.0.0", pkg []); ("next", pkg [])])))
       /\ isVersion x = false
       /\ findCompatibleVersion tagged rangeBasic (mkParams "p" "" "C" "1.0.0" false) emptyWorld
          = (fst (fetchPackageMetadata tagged "p" emptyWorld), searchError (semver.invalid x)).
Proof.
  assert (H1 : fetchPackageMetadata tagged "p" emptyWorld
               = (fst (fetchPackageMetadata tagged "p" emptyWorld),
                  Ok (mkMeta "p" [("1.0.0", pkg []); ("next", pkg [])]))) by reflexivity.
  assert (H2 : 2 <= List.length
                      (Obj.keys (versions (mkMeta "p" [("1.0.0", pkg []); ("next", pkg [])]))))
    by (simpl; lia).
  assert (H3 : forallb isVersion
                 (Obj.keys (versions (mkMeta "p" [("1.0.0", pkg []); ("next", pkg [])])))
               = false) by reflexivity.
  split; [repeat split; assumption|].
  exact (invalid_version_key_aborts tagged rangeBasic (mkParams "p" "" "C" "1.0.0" false)
           emptyWorld _ _ H1 H2 H3).
Defined.

Lemma floor_filter_example :
  truthy "4" = true
  /\ (forall v, atLeast "4" v = atLeast (normalizeVersion "4") v)
  /\ (forall v, meetsFloor "4" v = true
                <-> versionLe (normalizeVersion "4") (normalizeVersion v)).
Proof.
  assert (H : truthy "4" = true) by reflexivity.
  split; [exact H|].
  exact (proj2 (floor_filter "4") H).
Defined.

Lemma analyzeVersionRequirements_outcome_example :
  (Re.regex_plain "C" = true /\ truthy "4" = true
   /\ Forall (lineComparable "C" (normalizeVersion "4"))
        ["A@0.9.0 > B@1.0.0 > C@3.9.0"; "A@1.0.0 > B@2.3.0 > C@4.0.0"])
  /\ analyzeVersionRequirements
       ["A@0.9.0 > B@1.0.0 > C@3.9.0"; "A@1.0.0 > B@2.3.0 > C@4.0.0"] "C" "4"
     = Ok (mkVersionAnalysis
             (forallb (lineValid "C" (normalizeVersion "4"))
                ["A@0.9.0 > B@1.0.0 > C@3.9.0"; "A@1.0.0 > B@2.3.0 > C@4.0.0"])
             (filter (fun line => negb (lineValid "C" (normalizeVersion "4") line))
                ["A@0.9.0 > B@1.0.0 > C@3.9.0"; "A@1.0.0 > B@2.3.0 > C@4.0.0"])).
Proof.
  assert (H1 : truthy "4" = true) by reflexivity.
  assert (H2 : Forall (lineComparable "C" (normalizeVersion "4"))
                 ["A@0.9.0 > B@1.0.0 > C@3.9.0"; "A@1.0.0 > B@2.3.0 > C@4.0.0"]).
  { repeat constructor; eexists; vm_compute; reflexivity. }
  assert (H0 : Re.regex_plain "C" = true) by reflexivity.
  split; [repeat split; assumption|].
  exact (proj1 (analyzeVersionRequirements_outcome _ "C" "4" H0 H1) H2).
Defined.

Lemma exec_reads_after_at_example :
  (Re.regex_plain "node" = true
   /\ Re.exec "node" "@types/node@1.0.0 > node@5.1.0" = Some "1.0.0")
  /\ exists pre post,
       "@types/node@1.0.0 > node@5.1.0" = (pre ++ "@" ++ "1.0.0" ++ post)%string
       /\ String.length "node" <= String.length pre
       /\ Str.forallb version_char "1.0.0" = true
       /\ exists d rest, "1.0.0" = String d rest /\ Re.digit_or_dot d = true.
Proof.
  assert (H : Re.exec "node" "@types/node@1.0.0 > node@5.1.0" = Some "1.0.0")
    by reflexivity.
  assert (P : Re.regex_plain "node" = true) by reflexivity.
  split; [split; assumption|].
  exact (exec_reads_after_at "node" _ _ P H).
Defined.

Lemma exec_first_at_example :
  (Re.regex_plain "@types/node" = true
   /\ count "@" "+-- " = 0 /\ count "@" (Str.drop 1 "@types/node") = 0
   /\ Re.capture "18.0.0 deduped" = Some "18.0.0")
  /\ Re.exec "@types/node" ("+-- " ++ "@types/node" ++ "@" ++ "18.0.0 deduped")
     = Some "18.0.0".
Proof.
  assert (H1 : count "@" "+-- " = 0) by reflexivity.
  assert (H2 : count "@" (Str.drop 1 "@types/node") = 0) by reflexivity.
  assert (H3 : Re.capture "18.0.0 deduped" = Some "18.0.0") by reflexivity.
  assert (H0 : Re.regex_plain "@types/node" = true) by reflexivity.
  split; [repeat split; assumption|].
  exact (exec_first_at "@types/node" "+-- " "18.0.0 deduped" "18.0.0" H0 H1 H2 H3).
Defined.

Lemma evaluate_verdict_example :
  (Re.regex_plain "C" = true
   /\ (truthy "4.0.0" = true ->
       Forall (lineComparable "C" (normalizeVersion "4.0.0"))
         (map pathString (matches abcTraversal))))
  /\ exists msg,
       evaluate "1.0.0" "C" "4.0.0" false abcTraversal
       = Ok (mkAnalysis
               (match matches abcTraversal with
                | [] => false
                | _ :: _ =>
                    if truthy "4.0.0"
                    then forallb (lineValid "C" (normalizeVersion "4.0.0"))
                           (map pathString (matches abcTraversal))
                    else negb false
                end)
               msg
               (match matches abcTraversal with
                | [] => if false then absentNote "C" else []
                | _ :: _ =>
                    if truthy "4.0.0"
                       && negb (forallb (lineValid "C" (normalizeVersion "4.0.0"))
                                  (map pathString (matches abcTraversal)))
                    then filter (fun line =>
                                   negb (lineValid "C" (normalizeVersion "4.0.0") line))
                           (map pathString (matches abcTraversal))
                    else map pathString (matches abcTraversal)
                end)).
Proof.
  assert (H : truthy "4.0.0" = true ->
              Forall (lineComparable "C" (normalizeVersion "4.0.0"))
                (map pathString (matches abcTraversal))).
  { intros _. repeat constructor; eexists; vm_compute; reflexivity. }
  assert (P : Re.regex_plain "C" = true) by reflexivity.
  split; [split; assumption|].
  exact (evaluate_verdict "1.0.0" "C" "4.0.0" false abcTraversal P H).
Defined.

Lemma occurrence_paths_example :
  In (mkMatch "A@1.0.0 > B@2.3.0 > C@4.0.0" "4.0.0")
    (matches (snd (findChildOccurrencesInTree chainABC rangeBasic "A" "1.0.0" "C"
                     emptyWorld)))
  /\ exists mid,
       pathString (mkMatch "A@1.0.0 > B@2.3.0 > C@4.0.0" "4.0.0")
       = Str.join " > " (("A" ++ "@" ++ "1.0.0")%string :: mid)
       /\ last (("A" ++ "@" ++ "1.0.0")%string :: mid) ""
          = ("C" ++ "@" ++ m_version (mkMatch "A@1.0.0 > B@2.3.0 > C@4.0.0" "4.0.0"))%string.
Proof.
  assert (H : In (mkMatch "A@1.0.0 > B@2.3.0 > C@4.0.0" "4.0.0")
                (matches (snd (findChildOccurrencesInTree chainABC rangeBasic "A" "1.0.0"
                                 "C" emptyWorld))))
    by (vm_compute; left; reflexivity).
  split; [exact H|].
  exact (occurrence_paths chainABC rangeBasic "A" "1.0.0" "C" emptyWorld _ H).
Defined.

Lemma traversal_breadth_first_example :
  processedNodes diamond rangeBasic maxNodes "T" [] [] emptyWorld
    [mkNode "R" "1.0.0" ["R@1.0.0"]]
  = [mkNode "R" "1.0.0" ["R@1.0.0"];
     mkNode "X" "1.0.0" ["R@1.0.0"; "X@1.0.0"];
     mkNode "T" "1.0.0" ["R@1.0.0"; "T@1.0.0"];
     mkNode "T" "2.0.0" ["R@1.0.0"; "X@1.0.0"; "T@2.0.0"]]
  /\ matches (snd (findChildOccurrencesInTree diamond rangeBasic "R" "1.0.0" "T" emptyWorld))
     = [mkMatch "R@1.0.0 > T@1.0.0" "1.0.0";
        mkMatch "R@1.0.0 > X@1.0.0 > T@2.0.0" "2.0.0"]
  /\ StronglySorted (fun a b => depth a <= depth b)
       (processedNodes diamond rangeBasic maxNodes "T" [] [] emptyWorld
          [mkNode "R" "1.0.0" [("R" ++ "@" ++ "1.0.0")%string]])
  /\ matches (snd (findChildOccurrencesInTree diamond rangeBasic "R" "1.0.0" "T" emptyWorld))
     = map occurrence
         (filter (fun n => String.eqb (q_name n) "T")
            (processedNodes diamond rangeBasic maxNodes "T" [] [] emptyWorld
               [mkNode "R" "1.0.0" [("R" ++ "@" ++ "1.0.0")%string]])).
Proof.
  split; [vm_compute; reflexivity|]. split; [vm_compute; reflexivity|].
  exact (traversal_breadth_first diamond rangeBasic "R" "1.0.0" "T" emptyWorld).
Defined.


Lemma reported_version_is_first_success_example :
  (Re.regex_plain (childPackage abcParams) = true
   /\ findCompatibleVersion chainABC rangeBasic abcParams emptyWorld
   = (abcSecond, winner "stable" "1.0.0" abcAnalysis)
   /\ success (winner "stable" "1.0.0" abcAnalysis) = true)
  /\ exists w0 versions filtered pre v post w1 a,
       getPackageVersions chainABC (parentPackage abcParams) emptyWorld = (w0, Ok versions)
       /\ filterR (atLeast (parentMinVersion abcParams)) versions = Ok filtered
       /\ candidates (versionGroups filtered) = pre ++ v :: post
       /\ allFail chainABC rangeBasic abcParams pre w0 = Some w1
       /\ analyze chainABC rangeBasic abcParams v w1 = (abcSecond, Ok a)
       /\ a_success a = true
       /\ version (winner "stable" "1.0.0" abcAnalysis) = Some v
       /\ details (winner "stable" "1.0.0" abcAnalysis) = a_details a.
Proof.
  assert (H1 : findCompatibleVersion chainABC rangeBasic abcParams emptyWorld
               = (abcSecond, winner "stable" "1.0.0" abcAnalysis))
    by (vm_compute; reflexivity).
  assert (H2 : success (winner "stable" "1.0.0" abcAnalysis) = true) by reflexivity.
  assert (H0 : Re.regex_plain (childPackage abcParams) = true) by reflexivity.
  split; [repeat split; assumption|].
  exact (reported_version_is_first_success chainABC rangeBasic abcParams emptyWorld _ _
           H0 H1 H2).
Defined.

Lemma prerelease_only_after_stable_example :
  (Re.regex_plain (childPackage betaParams) = true
   /\ findCompatibleVersion betas rangeBasic betaParams emptyWorld
   = (fst (findCompatibleVersion betas rangeBasic betaParams emptyWorld),
      snd (findCompatibleVersion betas rangeBasic betaParams emptyWorld))
   /\ success (snd (findCompatibleVersion betas rangeBasic betaParams emptyWorld)) = true
   /\ version (snd (findCompatibleVersion betas rangeBasic betaParams emptyWorld))
      = Some "2.0.0-beta.1"
   /\ isPrerelease "2.0.0-beta.1" = true)
  /\ exists w0 versions filtered w1,
       getPackageVersions betas (parentPackage betaParams) emptyWorld = (w0, Ok versions)
       /\ filterR (atLeast (parentMinVersion betaParams)) versions = Ok filtered
       /\ allFail betas rangeBasic betaParams
            (filter (fun x => negb (isPrerelease x)) filtered) w0
          = Some w1.
Proof.
  assert (H1 : findCompatibleVersion betas rangeBasic betaParams emptyWorld
               = (fst (findCompatibleVersion betas rangeBasic betaParams emptyWorld),
                  snd (findCompatibleVersion betas rangeBasic betaParams emptyWorld)))
    by apply surjective_pairing.
  assert (H2 : success (snd (findCompatibleVersion betas rangeBasic betaParams emptyWorld))
               = true) by (vm_compute; reflexivity).
  assert (H3 : version (snd (findCompatibleVersion betas rangeBasic betaParams emptyWorld))
               = Some "2.0.0-beta.1") by (vm_compute; reflexivity).
  assert (H4 : isPrerelease "2.0.0-beta.1" = true) by reflexivity.
  assert (H0 : Re.regex_plain (childPackage betaParams) = true) by reflexivity.
  split; [repeat split; assumption|].
  exact (prerelease_only_after_stable betas rangeBasic betaParams emptyWorld _ _ _
           H0 H1 H2 H3 H4).
Defined.

Lemma failure_kinds_example :
  (Re.regex_plain "C" = true
   /\ findCompatibleVersion chainABC rangeBasic (mkParams "A" "" "C" "9.0.0" false) emptyWorld
   = (fst (findCompatibleVersion chainABC rangeBasic (mkParams "A" "" "C" "9.0.0" false)
             emptyWorld),
      noCompatible)
   /\ success noCompatible = false)
  /\ version noCompatible = None /\ details noCompatible = [].
Proof.
  assert (H1 : findCompatibleVersion chainABC rangeBasic (mkParams "A" "" "C" "9.0.0" false)
                 emptyWorld
               = (fst (findCompatibleVersion chainABC rangeBasic
                         (mkParams "A" "" "C" "9.0.0" false) emptyWorld),
                  noCompatible)) by (vm_compute; reflexivity).
  assert (H2 : success noCompatible = false) by reflexivity.
  assert (H0 : Re.regex_plain "C" = true) by reflexivity.
  split; [repeat split; assumption|].
  pose proof (failure_kinds chainABC rangeBasic (mkParams "A" "" "C" "9.0.0" false)
                emptyWorld _ _ H0 H1 H2) as K.
  split; [exact (proj1 K) | exact (proj1 (proj2 K))].
Defined.

Lemma success_message_example :
  (Re.regex_plain (childPackage abcParams) = true
   /\ findCompatibleVersion chainABC rangeBasic abcParams emptyWorld
   = (abcSecond, winner "stable" "1.0.0" abcAnalysis)
   /\ success (winner "stable" "1.0.0" abcAnalysis) = true
   /\ version (winner "stable" "1.0.0" abcAnalysis) = Some "1.0.0"
   /\ parentPackage abcParams <> ""
   /\ "1.0.0" <> "" /\ Str.forallb visible "1.0.0" = true /\ count "@" "1.0.0" = 0)
  /\ exists rest,
       message (winner "stable" "1.0.0" abcAnalysis)
       = ("✅ SUCCESS: Version " ++ "1.0.0"
          ++ (if isPrerelease "1.0.0" then " (pre-release)" else " (stable release)")
          ++ " " ++ rest)%string.
Proof.
  assert (H1 : findCompatibleVersion chainABC rangeBasic abcParams emptyWorld
               = (abcSecond, winner "stable" "1.0.0" abcAnalysis))
    by (vm_compute; reflexivity).
  assert (H2 : success (winner "stable" "1.0.0" abcAnalysis) = true) by reflexivity.
  assert (H3 : version (winner "stable" "1.0.0" abcAnalysis) = Some "1.0.0") by reflexivity.
  assert (H4 : parentPackage abcParams <> "") by discriminate.
  assert (H5 : "1.0.0" <> "") by discriminate.
  assert (H6 : Str.forallb visible "1.0.0" = true) by reflexivity.
  assert (H7 : count "@" "1.0.0" = 0) by reflexivity.
  assert (H0 : Re.regex_plain (childPackage abcParams) = true) by reflexivity.
  split; [repeat split; assumption|].
  exact (success_message chainABC rangeBasic abcParams emptyWorld _ _ "1.0.0"
           H0 H1 H2 H3 H4 H5 H6 H7).
Defined.

Lemma parseArg_spec_example :
  ("@types/node" <> "" /\ count "@" "18" = 0)
  /\ parseArg ("@types/node" ++ "@" ++ "18") = Some ("@types/node", "18").
Proof.
  assert (H1 : "@types/node" <> "") by discriminate.
  assert (H2 : count "@" "18" = 0) by reflexivity.
  split; [split; assumption|].
  exact (proj1 (proj2 (parseArg_spec "")) "@types/node" "18" H1 H2).
Defined.

Lemma run_exit_code_example :
  includes "--help" (skipn 2 ["node"; "cli.js"; "axios"; "-h"])
  || includes "-h" (skipn 2 ["node"; "cli.js"; "axios"; "-h"]) = true
  /\ run (engineSearch chainABC rangeBasic) ["node"; "cli.js"; "axios"; "-h"] None emptyWorld
     = (emptyWorld, 0).
Proof.
  assert (H : includes "--help" (skipn 2 ["node"; "cli.js"; "axios"; "-h"])
              || includes "-h" (skipn 2 ["node"; "cli.js"; "axios"; "-h"]) = true)
    by reflexivity.
  split; [exact H|].
  exact (proj1 (run_exit_code (engineSearch chainABC rangeBasic)
                  ["node"; "cli.js"; "axios"; "-h"] None emptyWorld) H).
Defined.

Lemma cli_passes_unvalidated_example :
  (includes "--help" (skipn 2 bareArgv) || includes "-h" (skipn 2 bareArgv) = false
   /\ includes "--removed" (skipn 2 bareArgv) || includes "-r" (skipn 2 bareArgv) = false
   /\ positionals (skipn 2 bareArgv) = "axios" :: "form-data" :: []
   /\ "axios" <> "" /\ "form-data" <> "" /\ count "@" (Str.drop 1 "form-data") = 0)
  /\ exists params,
       invalidParams params = true
       /\ childPackage params = "form-data" /\ childMinVersion params = ""
       /\ packageRemoved params = false
       /\ run (engineSearch chainABC rangeBasic) bareArgv None emptyWorld
          = match engineSearch chainABC rangeBasic params emptyWorld with
            | (w1, Ok result) => (w1, if success result then 0 else 2)
            | (w1, Throw _) => (w1, 99)
            end.
Proof.
  assert (H1 : includes "--help" (skipn 2 bareArgv) || includes "-h" (skipn 2 bareArgv)
               = false) by reflexivity.
  assert (H2 : includes "--removed" (skipn 2 bareArgv) || includes "-r" (skipn 2 bareArgv)
               = false) by reflexivity.
  assert (H3 : positionals (skipn 2 bareArgv) = "axios" :: "form-data" :: [])
    by reflexivity.
  assert (H4 : "axios" <> "") by discriminate.
  assert (H5 : "form-data" <> "") by discriminate.
  assert (H6 : count "@" (Str.drop 1 "form-data") = 0) by reflexivity.
  split; [repeat split; assumption|].
  exact (cli_passes_unvalidated (engineSearch chainABC rangeBasic) bareArgv None emptyWorld
           "axios" "form-data" [] H1 H2 H3 H4 H5 H6).
Defined.

Lemma legacy_evaluate_reports_example :
  count "@" "types/node" = 0
  /\ reportedVersion ("@" ++ "types/node" ++ "@" ++ "18.0.0") = "types/node".
Proof.
  assert (H : count "@" "types/node" = 0) by reflexivity.
  split; [exact H|].
  exact (proj2 (proj2 (legacy_evaluate_reports "" "" "" false abcTraversal))
           "types/node" "18.0.0" H).
Defined.

Lemma reported_version_is_published_example :
  (Re.regex_plain (childPackage abcParams) = true
   /\ findCompatibleVersion chainABC rangeBasic abcParams emptyWorld
      = (abcSecond, winner "stable" "1.0.0" abcAnalysis)
   /\ success (winner "stable" "1.0.0" abcAnalysis) = true
   /\ version (winner "stable" "1.0.0" abcAnalysis) = Some "1.0.0")
  /\ exists w0 meta,
       fetchPackageMetadata chainABC (parentPackage abcParams) emptyWorld = (w0, Ok meta)
       /\ In "1.0.0" (Obj.keys (versions meta))
       /\ meetsFloor (parentMinVersion abcParams) "1.0.0" = true.
Proof.
  assert (H0 : Re.regex_plain (childPackage abcParams) = true) by reflexivity.
  assert (H1 : findCompatibleVersion chainABC rangeBasic abcParams emptyWorld
               = (abcSecond, winner "stable" "1.0.0" abcAnalysis))
    by (vm_compute; reflexivity).
  assert (H2 : success (winner "stable" "1.0.0" abcAnalysis) = true) by reflexivity.
  assert (H3 : version (winner "stable" "1.0.0" abcAnalysis) = Some "1.0.0") by reflexivity.
  split; [repeat split; assumption|].
  exact (reported_version_is_published chainABC rangeBasic abcParams emptyWorld _ _ _
           H0 H1 H2 H3).
Defined.
